(** * htkl: lexer, parser and evaluator of the htkl template language

    A shallow embedding of the Go packages [parser], [runtime], [eval] and
    [eval/internal/funcs], followed by theorems about them.

    Conventions of the embedding:
    - a Go [string] is a Rocq [string] (a sequence of bytes); where the
      source indexes a string by byte offset the bytes are taken as a
      [list ascii];
    - a Go [int] is a [Z] (a [nat] where it is a slice offset);
    - a Go [float64] is a primitive binary64 [float];
    - a function that may panic, or whose recursion is bounded here by a
      fuel counter, returns a [Res]: [Ok], a Go [error] ([Err]), [Panic],
      or [OutOfFuel];
    - pointers to mutable objects are locations into explicit stores. *)

From Stdlib Require Import ZArith Ascii String PrimFloat Uint63 FloatOps SpecFloat.
From stdpp Require Import base option list gmap strings.
From Stdlib Require FloatAxioms.

Local Open Scope Z_scope.
#[local] Set Warnings "-register-all".

(** ** Outcomes *)

Inductive Res (E A : Type) : Type :=
  | Ok (a : A)
  | Err (e : E)
  | Panic
  | OutOfFuel.
Arguments Ok {E A} a.
Arguments Err {E A} e.
Arguments Panic {E A}.
Arguments OutOfFuel {E A}.

Definition isOk {E A} (r : Res E A) : bool :=
  match r with Ok _ => true | _ => false end.

(** ** Bytes and strings of the Go runtime *)

Module gostr.

Definition bytes (s : string) : list ascii := list_ascii_of_string s.
Definition str (l : list ascii) : string := string_of_list_ascii l.

Definition nul : ascii := "000"%char.
Definition tab : ascii := "009"%char.
Definition lf : ascii := "010"%char.
Definition cr : ascii := "013"%char.
Definition space : ascii := " "%char.
Definition dquote : ascii := "034"%char.
Definition backslash : ascii := "\"%char.

Definition code (c : ascii) : N := N_of_ascii c.

(** [s[i]], zero past the end as the lexer's accessors return it. *)
Definition at_ (l : list ascii) (i : nat) : ascii := nth i l nul.

(** [s[lo:hi]]; Go panics unless [lo <= hi <= len(s)]. *)
Definition slice (l : list ascii) (lo hi : nat) : option (list ascii) :=
  if decide (lo ≤ hi ∧ hi ≤ length l)%nat
  then Some (take (hi - lo) (drop lo l)) else None.

(** [unicode.IsDigit(rune(ch))] for a byte: only the ASCII digits are of
    category Nd below U+0100. *)
Definition IsDigit (c : ascii) : bool :=
  ((48 <=? code c) && (code c <=? 57))%N.

(** [unicode.IsLetter(rune(ch))] for a byte: the letters of Latin-1. *)
Definition IsLetter (c : ascii) : bool :=
  let n := code c in
  (((65 <=? n) && (n <=? 90)) || ((97 <=? n) && (n <=? 122))
   || (n =? 170) || (n =? 181) || (n =? 186)
   || ((192 <=? n) && (n <=? 214)) || ((216 <=? n) && (n <=? 246))
   || ((248 <=? n) && (n <=? 255)))%N.

(** [string(ch)] for a byte [ch]: the UTF-8 encoding of the code point. *)
Definition of_rune (c : ascii) : string :=
  let n := code c in
  if (n <? 128)%N then String c EmptyString
  else String (ascii_of_N (192 + n / 64))
         (String (ascii_of_N (128 + n mod 64)) EmptyString).

Fixpoint prefixb (p l : list ascii) : bool :=
  match p, l with
  | [], _ => true
  | _ :: _, [] => false
  | a :: p', b :: l' => Ascii.eqb a b && prefixb p' l'
  end.

(** [strings.Index(s, sep)] for a non-empty [sep]; [None] is Go's -1. *)
Fixpoint Index (l sep : list ascii) : option nat :=
  if prefixb sep l then Some 0%nat
  else match l with
       | [] => None
       | _ :: l' => S <$> Index l' sep
       end.

Definition Contains (l sep : list ascii) : bool := bool_decide (is_Some (Index l sep)).

(** [strings.ReplaceAll(s, old, new)] for a non-empty [old]. *)
Fixpoint ReplaceAll_go (fuel : nat) (l old new : list ascii) : list ascii :=
  match fuel with
  | O => l
  | S f =>
      if prefixb old l then new ++ ReplaceAll_go f (drop (length old) l) old new
      else match l with
           | [] => []
           | c :: l' => c :: ReplaceAll_go f l' old new
           end
  end.
Definition ReplaceAll (l old new : list ascii) : list ascii :=
  ReplaceAll_go (S (length l)) l old new.

(** The longest prefix whose bytes all satisfy [keep], and what follows it. *)
Fixpoint takeWhile (keep : ascii → bool) (l : list ascii) : list ascii :=
  match l with
  | c :: l' => if keep c then c :: takeWhile keep l' else []
  | [] => []
  end.
Fixpoint dropWhile (keep : ascii → bool) (l : list ascii) : list ascii :=
  match l with
  | c :: l' => if keep c then dropWhile keep l' else l
  | [] => []
  end.

(** Decimal rendering of an [int] ([%d]). *)
Definition digit (n : N) : ascii := ascii_of_N (48 + n).
Fixpoint utoa_go (fuel : nat) (n : N) (acc : list ascii) : list ascii :=
  match fuel with
  | O => acc
  | S f => if (n <? 10)%N then digit n :: acc
           else utoa_go f (n / 10)%N (digit (n mod 10)%N :: acc)
  end.
Definition utoa (n : N) : string := str (utoa_go (S (N.to_nat (N.log2 n))) n []).
Definition itoa (z : Z) : string :=
  if z <? 0 then "-" +:+ utoa (Z.to_N (- z)) else utoa (Z.to_N z).

(** [%4d]: right-justified in a field of width four. *)
Definition itoa4 (z : Z) : string :=
  let s := itoa z in
  str (replicate (4 - String.length s) space) +:+ s.

(** [strings.Split(s, "\n")]. *)
Fixpoint SplitLines_go (l cur : list ascii) : list string :=
  match l with
  | [] => [str (rev cur)]
  | c :: l' => if Ascii.eqb c lf then str (rev cur) :: SplitLines_go l' []
               else SplitLines_go l' (c :: cur)
  end.
Definition SplitLines (s : string) : list string := SplitLines_go (bytes s) [].

End gostr.

(** ** The parts of the Go standard library that the sources call and that
    are kept abstract: number syntax, number printing, quoting ([%q]),
    [filepath.Base] and the string transformations of the function
    library. *)

(** A value as [runtimeToNative] hands it to [fmt]: [string], [float64],
    [bool], [nil], [[]interface{}] or [map[string]interface{}]. *)
Inductive native :=
  | NString (s : string)
  | NFloat (f : float)
  | NBool (b : bool)
  | NNil
  | NSlice (l : list native)
  | NMap (m : list (string * native)).

Class GoStdlib := {
  (** [strconv.ParseFloat(s, 64)]: the number, or the text of the error. *)
  strconv_ParseFloat : string → float + string;
  (** [strconv.FormatFloat(f, 'f', -1, 64)]. *)
  strconv_FormatFloat : float → string;
  (** [fmt.Sprintf("%q", s)]. *)
  fmt_q : string → string;
  (** [filepath.Base]. *)
  filepath_Base : string → string;
  (** [strings.ToUpper], [strings.ToLower], [strings.TrimSpace],
      [strings.Split(s, sep)], [strings.ReplaceAll(s, old, new)]. *)
  strings_ToUpper : string → string;
  strings_ToLower : string → string;
  strings_TrimSpace : string → string;
  strings_Split : string → string → list string;
  strings_ReplaceAll : string → string → string → string;
  (** [fmt.Sprintf(format, args...)] on converted values. *)
  fmt_Sprintf : string → list native → string;
  (** [math.Round], [math.Floor], [math.Ceil]. *)
  math_Round : float → float;
  math_Floor : float → float;
  math_Ceil : float → float;
  (** [base64.StdEncoding]: [EncodeToString], and [DecodeString] with the
      text of its error. *)
  base64_EncodeToString : string → string;
  base64_DecodeString : string → string + string;
  (** The order in which [for k, v := range m] visits a map: the language
      leaves it unspecified. *)
  rangeMap : ∀ {A : Type}, gmap string A → list (string * A);
  rangeMap_perm : ∀ (A : Type) (m : gmap string A), rangeMap m ≡ₚ map_to_list m;
}.

(** ** Conversions between [int] and [float64] *)

Module gofloat.

(** [float64(i)] for an [int] [i]. *)
Definition of_int (z : Z) : float :=
  if z <? 0 then PrimFloat.opp (PrimFloat.of_uint63 (Uint63.of_Z (- z)))
  else PrimFloat.of_uint63 (Uint63.of_Z z).

Definition minInt64 : Z := - 2 ^ 63.

(** [int(f)] for a [float64] [f]: the fraction is discarded; when the value
    does not fit an [int] the result is implementation-specific, here the
    one of amd64. *)
Definition to_int (f : float) : Z :=
  match Prim2SF f with
  | S754_zero _ => 0
  | S754_finite s m e =>
      let v := if 0 <=? e then Z.pos m * 2 ^ e else Z.pos m / 2 ^ (- e) in
      let v := if s then - v else v in
      if (minInt64 <=? v) && (v <? 2 ^ 63) then v else minInt64
  | _ => minInt64
  end.

Definition isZero (f : float) : bool := PrimFloat.eqb f 0%float.

End gofloat.

(** * Package parser *)

Module parser.

(** ** Tokens (lexer.go) *)

Inductive TokenType :=
  | TokenEOF | TokenIdent | TokenString | TokenNumber | TokenColon | TokenComma
  | TokenLBrace | TokenRBrace | TokenLBracket | TokenRBracket | TokenLParen
  | TokenRParen | TokenComment | TokenNewline | TokenIf | TokenElse | TokenFor
  | TokenIn | TokenWith | TokenAs | TokenDo | TokenEnd | TokenBreak
  | TokenContinue | TokenLet | TokenDefine | TokenInclude | TokenSpread
  | TokenTrue | TokenFalse | TokenNull | TokenDot | TokenAssign | TokenPlus
  | TokenMinus | TokenMul | TokenDiv | TokenPipe | TokenAnd | TokenOr | TokenEq
  | TokenNeq | TokenNot | TokenLt | TokenLte | TokenGt | TokenGte.

#[global] Instance TokenType_eq_dec : EqDecision TokenType.
Proof. solve_decision. Defined.

Definition TokenType_String (t : TokenType) : string :=
  match t with
  | TokenEOF => "EOF" | TokenIdent => "identifier" | TokenString => "string"
  | TokenNumber => "number" | TokenColon => "':'" | TokenComma => "','"
  | TokenLBrace => "'{'" | TokenRBrace => "'}'" | TokenLBracket => "'['"
  | TokenRBracket => "']'" | TokenLParen => "'('" | TokenRParen => "')'"
  | TokenComment => "comment" | TokenNewline => "newline" | TokenIf => "'if'"
  | TokenElse => "'else'" | TokenFor => "'for'" | TokenIn => "'in'"
  | TokenWith => "'with'" | TokenAs => "'as'" | TokenDo => "'do'"
  | TokenEnd => "'end'" | TokenBreak => "'break'" | TokenContinue => "'continue'"
  | TokenLet => "'let'" | TokenDefine => "'define'" | TokenInclude => "'include'"
  | TokenSpread => "'spread'" | TokenTrue => "'true'" | TokenFalse => "'false'"
  | TokenNull => "'null'" | TokenDot => "'.'" | TokenAssign => "'='"
  | TokenPlus => "'+'" | TokenMinus => "'-'" | TokenMul => "'*'"
  | TokenDiv => "'/'" | TokenPipe => "'|'" | TokenAnd => "'&&'"
  | TokenOr => "'||'" | TokenEq => "'=='" | TokenNeq => "'!='"
  | TokenNot => "'!'" | TokenLt => "'<'" | TokenLte => "'<='"
  | TokenGt => "'>'" | TokenGte => "'>='"
  end.

Record Token := mkToken {
  tok_Type : TokenType;
  tok_Value : string;
  tok_Line : Z;
  tok_Col : Z;
}.

(** The zero [Token{}]. *)
Definition Token_zero : Token := mkToken TokenEOF EmptyString 0 0.

(** ** Lexer (lexer.go) *)

Record Lexer := mkLexer {
  input : list ascii;
  pos : nat;
  line : Z;
  col : Z;
}.

Definition NewLexer (src : string) : Lexer :=
  mkLexer (gostr.bytes src) 0 1 1.

Definition Lexer_current (l : Lexer) : ascii :=
  if decide (length (input l) ≤ pos l)%nat then gostr.nul
  else gostr.at_ (input l) (pos l).

Definition peekN (l : Lexer) (n : nat) : ascii :=
  if decide (length (input l) ≤ pos l + n)%nat then gostr.nul
  else gostr.at_ (input l) (pos l + n).

Definition Lexer_peek (l : Lexer) : ascii := peekN l 1.

Definition advance (l : Lexer) : Lexer :=
  if decide (pos l < length (input l))%nat then
    if Ascii.eqb (gostr.at_ (input l) (pos l)) gostr.lf
    then mkLexer (input l) (S (pos l)) (line l + 1) 1
    else mkLexer (input l) (S (pos l)) (line l) (col l + 1)
  else l.

(** [for l.pos < len(l.input) && keep(l.current()) { l.advance() }]: every
    turn moves [pos] one byte forward, so [len - pos] turns are all the
    loop can make. *)
Fixpoint advanceWhile_go (fuel : nat) (keep : ascii → bool) (l : Lexer) : Lexer :=
  match fuel with
  | O => l
  | S f =>
      if decide (pos l < length (input l))%nat then
        if keep (Lexer_current l) then advanceWhile_go f keep (advance l) else l
      else l
  end.
Definition advanceWhile (keep : ascii → bool) (l : Lexer) : Lexer :=
  advanceWhile_go (length (input l) - pos l) keep l.

Definition isBlank (ch : ascii) : bool :=
  Ascii.eqb ch gostr.space || Ascii.eqb ch gostr.tab || Ascii.eqb ch gostr.cr.

Definition skipWhitespace (l : Lexer) : Lexer := advanceWhile isBlank l.

Definition readComment (l : Lexer) : option (Token * Lexer) :=
  let start := pos l in
  let startCol := col l in
  let l := advance l in
  let l := advanceWhile (λ ch, negb (Ascii.eqb ch gostr.lf)) l in
  v ← gostr.slice (input l) start (pos l);
  Some (mkToken TokenComment (gostr.str v) (line l) startCol, l).

Fixpoint unescapeString_go (s : list ascii) : list ascii :=
  match s with
  | [] => []
  | c :: rest =>
      if Ascii.eqb c gostr.backslash then
        match rest with
        | [] => [c]
        | d :: rest' =>
            if Ascii.eqb d "n" then gostr.lf :: unescapeString_go rest'
            else if Ascii.eqb d "t" then gostr.tab :: unescapeString_go rest'
            else if Ascii.eqb d "r" then gostr.cr :: unescapeString_go rest'
            else if Ascii.eqb d gostr.dquote then gostr.dquote :: unescapeString_go rest'
            else if Ascii.eqb d gostr.backslash then gostr.backslash :: unescapeString_go rest'
            else if Ascii.eqb d "$" then gostr.nul :: "$"%char :: unescapeString_go rest'
            else gostr.backslash :: unescapeString_go rest
        end
      else c :: unescapeString_go rest
  end.

Definition unescapeString (s : list ascii) : list ascii :=
  if negb (gostr.Contains s [gostr.backslash]) then s else unescapeString_go s.

(** The scanning loop of [readString]: a backslash skips the byte after it. *)
Fixpoint readString_loop (fuel : nat) (l : Lexer) : Lexer :=
  match fuel with
  | O => l
  | S f =>
      if decide (pos l < length (input l))%nat then
        if negb (Ascii.eqb (Lexer_current l) gostr.dquote) then
          let l := if Ascii.eqb (Lexer_current l) gostr.backslash then advance l else l in
          readString_loop f (advance l)
        else l
      else l
  end.

Definition readString (l : Lexer) : option (Token * Lexer) :=
  let start := pos l in
  let startCol := col l in
  let l := advance l in
  let l := readString_loop (length (input l) - pos l) l in
  let l := if decide (pos l < length (input l))%nat then advance l else l in
  v ← gostr.slice (input l) (start + 1) (pos l - 1);
  (* [l.pos-1] is computed on Go ints: it is never negative here since the
     opening quote was consumed *)
  Some (mkToken TokenString (gostr.str (unescapeString v)) (line l) startCol, l).

Definition isTripleQuote (l : Lexer) : bool :=
  Ascii.eqb (Lexer_current l) gostr.dquote && Ascii.eqb (Lexer_peek l) gostr.dquote
  && Ascii.eqb (peekN l 2) gostr.dquote.

Fixpoint readMultilineString_loop (fuel : nat) (start : nat) (startLine startCol : Z)
    (l : Lexer) : option (Token * Lexer) :=
  match fuel with
  | O =>
      v ← gostr.slice (input l) (start + 3) (length (input l));
      Some (mkToken TokenString (gostr.str (unescapeString v)) startLine startCol, l)
  | S f =>
      if decide (pos l < length (input l))%nat then
        if isTripleQuote l then
          v ← gostr.slice (input l) (start + 3) (pos l);
          let l := advance (advance (advance l)) in
          Some (mkToken TokenString (gostr.str (unescapeString v)) startLine startCol, l)
        else readMultilineString_loop f start startLine startCol (advance l)
      else
        v ← gostr.slice (input l) (start + 3) (length (input l));
        Some (mkToken TokenString (gostr.str (unescapeString v)) startLine startCol, l)
  end.

Definition readMultilineString (l : Lexer) : option (Token * Lexer) :=
  let start := pos l in
  let startCol := col l in
  let startLine := line l in
  let l := advance (advance (advance l)) in
  readMultilineString_loop (length (input l) - pos l) start startLine startCol l.

Definition isNumberByte (ch : ascii) : bool :=
  gostr.IsDigit ch || Ascii.eqb ch ".".

Definition readNumber (l : Lexer) : option (Token * Lexer) :=
  let start := pos l in
  let startCol := col l in
  let l := if Ascii.eqb (Lexer_current l) "-" then advance l else l in
  let l := advanceWhile isNumberByte l in
  v ← gostr.slice (input l) start (pos l);
  Some (mkToken TokenNumber (gostr.str v) (line l) startCol, l).

Definition isIdentByte (ch : ascii) : bool :=
  gostr.IsLetter ch || gostr.IsDigit ch || Ascii.eqb ch "_".

Definition keyword (value : string) : TokenType :=
  if String.eqb value "if" then TokenIf
  else if String.eqb value "else" then TokenElse
  else if String.eqb value "for" then TokenFor
  else if String.eqb value "in" then TokenIn
  else if String.eqb value "with" then TokenWith
  else if String.eqb value "as" then TokenAs
  else if String.eqb value "do" then TokenDo
  else if String.eqb value "end" then TokenEnd
  else if String.eqb value "break" then TokenBreak
  else if String.eqb value "continue" then TokenContinue
  else if String.eqb value "let" then TokenLet
  else if String.eqb value "define" then TokenDefine
  else if String.eqb value "include" then TokenInclude
  else if String.eqb value "spread" then TokenSpread
  else if String.eqb value "true" then TokenTrue
  else if String.eqb value "false" then TokenFalse
  else if String.eqb value "null" then TokenNull
  else TokenIdent.

Definition readIdentifier (l : Lexer) : option (Token * Lexer) :=
  let start := pos l in
  let startCol := col l in
  let l := advanceWhile isIdentByte l in
  v ← gostr.slice (input l) start (pos l);
  let value := gostr.str v in
  Some (mkToken (keyword value) value (line l) startCol, l).

(** The [switch ch] at the end of [NextToken]: one- and two-byte operators,
    and the [default] branch. *)
Definition operatorToken (l : Lexer) (ch : ascii) : Token * Lexer :=
  let one (t : TokenType) (v : string) := (mkToken t v (line l) (col l), advance l) in
  let two (t : TokenType) (v : string) := (mkToken t v (line l) (col l), advance (advance l)) in
  if Ascii.eqb ch ":" then one TokenColon ":"
  else if Ascii.eqb ch "," then one TokenComma ","
  else if Ascii.eqb ch "{" then one TokenLBrace "{"
  else if Ascii.eqb ch "}" then one TokenRBrace "}"
  else if Ascii.eqb ch "[" then one TokenLBracket "["
  else if Ascii.eqb ch "]" then one TokenRBracket "]"
  else if Ascii.eqb ch "(" then one TokenLParen "("
  else if Ascii.eqb ch ")" then one TokenRParen ")"
  else if Ascii.eqb ch "." then one TokenDot "."
  else if Ascii.eqb ch "&" then
    if Ascii.eqb (Lexer_peek l) "&" then two TokenAnd "&&"
    else one TokenEOF (gostr.of_rune ch)
  else if Ascii.eqb ch "|" then
    if Ascii.eqb (Lexer_peek l) "|" then two TokenOr "||" else one TokenPipe "|"
  else if Ascii.eqb ch "=" then
    if Ascii.eqb (Lexer_peek l) "=" then two TokenEq "==" else one TokenAssign "="
  else if Ascii.eqb ch "!" then
    if Ascii.eqb (Lexer_peek l) "=" then two TokenNeq "!=" else one TokenNot "!"
  else if Ascii.eqb ch "<" then
    if Ascii.eqb (Lexer_peek l) "=" then two TokenLte "<=" else one TokenLt "<"
  else if Ascii.eqb ch ">" then
    if Ascii.eqb (Lexer_peek l) "=" then two TokenGte ">=" else one TokenGt ">"
  else if Ascii.eqb ch "+" then one TokenPlus "+"
  else if Ascii.eqb ch "-" then one TokenMinus "-"
  else if Ascii.eqb ch "*" then one TokenMul "*"
  else if Ascii.eqb ch "/" then one TokenDiv "/"
  else one TokenEOF (gostr.of_rune ch).

(** [NextToken]; [None] stands for a run-time panic (a slice out of range
    in [readString]). *)
Definition NextToken (l : Lexer) : option (Token * Lexer) :=
  let l := skipWhitespace l in
  if decide (length (input l) ≤ pos l)%nat then
    Some (mkToken TokenEOF EmptyString (line l) (col l), l)
  else
    let ch := Lexer_current l in
    if Ascii.eqb ch gostr.lf then
      Some (mkToken TokenNewline (String gostr.lf EmptyString) (line l) (col l), advance l)
    else if Ascii.eqb ch "#" then readComment l
    else if Ascii.eqb ch gostr.dquote then
      if Ascii.eqb (Lexer_peek l) gostr.dquote && Ascii.eqb (peekN l 2) gostr.dquote
      then readMultilineString l
      else readString l
    else if gostr.IsDigit ch
            || (Ascii.eqb ch "-" && negb (Ascii.eqb (Lexer_peek l) gostr.nul)
                && gostr.IsDigit (Lexer_peek l))
    then readNumber l
    else if gostr.IsLetter ch || Ascii.eqb ch "_" then readIdentifier l
    else Some (operatorToken l ch).

(** All the tokens of a source text, up to and including the first token of
    type [TokenEOF] (a reading aid for examples; not part of the package). *)
Fixpoint lexAll_go (fuel : nat) (l : Lexer) : option (list Token) :=
  match fuel with
  | O => Some []
  | S f =>
      '(t, l') ← NextToken l;
      if decide (tok_Type t = TokenEOF) then Some [t]
      else (t ::.) <$> lexAll_go f l'
  end.
Definition lexAll (src : string) : option (list Token) :=
  lexAll_go (S (String.length src)) (NewLexer src).

(** ** Syntax trees (ast.go) *)

Record Pos := mkPos {
  Filename : string;
  Line : Z;
  Col : Z;
}.

(** The node types that implement [Expression], and the others.  [Node]
    stands for the interfaces [Node], [Statement] and [ValueStatement]: an
    expression seen as a statement is [NExpr], the nil interface is
    [NilNode]. *)
Inductive Expression :=
  | StringLiteral (Value : string) (pos : Pos)
  | InterpolatedString (Parts : list Expression) (pos : Pos)
  | NumberLiteral (Value : float) (pos : Pos)
  | BooleanLiteral (Value : bool) (pos : Pos)
  | NullLiteral (pos : Pos)
  | CurrentContext (pos : Pos)
  | Identifier (Name : string) (pos : Pos)
  | MemberExpression (Object : Expression) (Member : string) (pos : Pos)
  | IndexExpression (Object : Expression) (Index : Expression) (pos : Pos)
  | BinaryOp (Left : Expression) (Operator : string) (Right : Expression) (pos : Pos)
  | UnaryOp (Operator : string) (Operand : Expression) (pos : Pos)
  | Object (Body : list Node) (pos : Pos)
  | Array (Body : list Node) (pos : Pos)
  | IncludeExpression (Name : string) (Context : option Expression) (pos : Pos)
  | CallExpression (Function : Expression) (Args : list Expression) (pos : Pos)
with Node :=
  | NExpr (e : Expression)
  | KeyValueStatement (Key : string) (Value : Node) (pos : Pos)
  | SpreadStatement (Operand : Node) (pos : Pos)
  | IfStatement (Condition : Expression) (Body : list Node) (Else : list Node) (pos : Pos)
  | ForStatement (KeyVar : string) (ValueVar : string) (Iterable : Expression)
      (Body : list Node) (pos : Pos)
  | WithStatement (Context : Expression) (VarName : string) (Body : list Node) (pos : Pos)
  | BreakStatement (pos : Pos)
  | ContinueStatement (pos : Pos)
  | LetStatement (Name : string) (Value : Node) (pos : Pos)
  | AssignmentStatement (Name : string) (Value : Node) (pos : Pos)
  | NilNode.

Definition Expression_GetPos (e : Expression) : Pos :=
  match e with
  | StringLiteral _ p | InterpolatedString _ p | NumberLiteral _ p
  | BooleanLiteral _ p | NullLiteral p | CurrentContext p | Identifier _ p
  | MemberExpression _ _ p | IndexExpression _ _ p | BinaryOp _ _ _ p
  | UnaryOp _ _ p | Object _ p | Array _ p | IncludeExpression _ _ p
  | CallExpression _ _ p => p
  end.

(** [GetPos] through an interface value: calling it on the nil interface
    panics ([None]). *)
Definition GetPos (n : Node) : option Pos :=
  match n with
  | NExpr e => Some (Expression_GetPos e)
  | KeyValueStatement _ _ p | SpreadStatement _ p | IfStatement _ _ _ p
  | ForStatement _ _ _ _ p | WithStatement _ _ _ p | BreakStatement p
  | ContinueStatement p | LetStatement _ _ p | AssignmentStatement _ _ p => Some p
  | NilNode => None
  end.

(** The dynamic type as [%T] prints it. *)
Definition Expression_typeName (e : Expression) : string :=
  match e with
  | StringLiteral _ _ => "*parser.StringLiteral"
  | InterpolatedString _ _ => "*parser.InterpolatedString"
  | NumberLiteral _ _ => "*parser.NumberLiteral"
  | BooleanLiteral _ _ => "*parser.BooleanLiteral"
  | NullLiteral _ => "*parser.NullLiteral"
  | CurrentContext _ => "*parser.CurrentContext"
  | Identifier _ _ => "*parser.Identifier"
  | MemberExpression _ _ _ => "*parser.MemberExpression"
  | IndexExpression _ _ _ => "*parser.IndexExpression"
  | BinaryOp _ _ _ _ => "*parser.BinaryOp"
  | UnaryOp _ _ _ => "*parser.UnaryOp"
  | Object _ _ => "*parser.Object"
  | Array _ _ => "*parser.Array"
  | IncludeExpression _ _ _ => "*parser.IncludeExpression"
  | CallExpression _ _ _ => "*parser.CallExpression"
  end.

Definition typeName (n : Node) : string :=
  match n with
  | NExpr e => Expression_typeName e
  | KeyValueStatement _ _ _ => "*parser.KeyValueStatement"
  | SpreadStatement _ _ => "*parser.SpreadStatement"
  | IfStatement _ _ _ _ => "*parser.IfStatement"
  | ForStatement _ _ _ _ _ => "*parser.ForStatement"
  | WithStatement _ _ _ _ => "*parser.WithStatement"
  | BreakStatement _ => "*parser.BreakStatement"
  | ContinueStatement _ => "*parser.ContinueStatement"
  | LetStatement _ _ _ => "*parser.LetStatement"
  | AssignmentStatement _ _ _ => "*parser.AssignmentStatement"
  | NilNode => "<nil>"
  end.

(** [Definition] of ast.go (the name is reserved in Rocq). *)
Record TemplateDefinition := mkDefinition {
  def_Name : string;
  def_Body : list Node;
  def_Pos : Pos;
}.

Record Document := mkDocument {
  doc_Body : list Node;
  Definitions : list TemplateDefinition;
}.

(** ** Parse errors (parser.go) *)

Record ParseError := mkParseError {
  Message : string;
  pe_Line : Z;
  pe_Col : Z;
  Offset : nat;
  Source : string;
}.

(** The values of type [error] that the parser returns: a [*ParseError], or
    an error made by [fmt.Errorf], which may wrap another one ([%w]). *)
Inductive error :=
  | ParseErr (e : ParseError)
  | Errorf (msg : string) (wrapped : option error).

Definition contextLine (lines : list string) (lineNum : Z) : string :=
  gostr.itoa4 lineNum +:+ " | " +:+ default EmptyString (lines !! Z.to_nat (lineNum - 1))
  +:+ gostr.str [gostr.lf].

Definition FormatWithContext (e : ParseError) : string :=
  let head :=
    "Parse error at line " +:+ gostr.itoa (pe_Line e) +:+ ", column "
    +:+ gostr.itoa (pe_Col e) +:+ ": " +:+ Message e +:+ gostr.str [gostr.lf] in
  if String.eqb (Source e) EmptyString then head
  else
    let lines := gostr.SplitLines (Source e) in
    if (0 <? pe_Line e) && (pe_Line e <=? Z.of_nat (length lines)) then
      let before :=
        foldr String.append EmptyString
          ((λ i, let lineNum := pe_Line e - i in
                 if 0 <? lineNum then contextLine lines lineNum else EmptyString)
             <$> [3; 2; 1]) in
      let pointer :=
        gostr.str (replicate (Z.to_nat (7 + pe_Col e - 1)) gostr.space) +:+ "^" in
      let after :=
        foldr String.append EmptyString
          ((λ i, let lineNum := pe_Line e + i in
                 if lineNum <=? Z.of_nat (length lines)
                 then contextLine lines lineNum else EmptyString)
             <$> [1; 2; 3]) in
      head +:+ gostr.str [gostr.lf] +:+ before +:+ contextLine lines (pe_Line e)
      +:+ pointer +:+ gostr.str [gostr.lf] +:+ after
    else head.

Definition error_Error (e : error) : string :=
  match e with
  | ParseErr pe => FormatWithContext pe
  | Errorf msg _ => msg
  end.

Abbreviation PR := (Res error).

#[global] Instance Res_ret {E} : MRet (Res E) := λ A a, Ok a.
#[global] Instance Res_bind {E} : MBind (Res E) := λ A B k r,
  match r with
  | Ok a => k a
  | Err e => Err e
  | Panic => Panic
  | OutOfFuel => OutOfFuel
  end.

(** ** Parser (parser.go) *)

Record Parser := mkParser {
  lexer : Lexer;
  current : Token;
  peek : Token;
  source : string;
  filename : string;
}.

Definition nextToken (p : Parser) : PR Parser :=
  match NextToken (lexer p) with
  | Some (t, l) => Ok (mkParser l (peek p) t (source p) (filename p))
  | None => Panic
  end.

Definition New (source filename : string) : PR Parser :=
  let p := mkParser (NewLexer source) Token_zero Token_zero source filename in
  p ← nextToken p;
  nextToken p.

Definition currentIs (p : Parser) (t : TokenType) : bool :=
  bool_decide (tok_Type (current p) = t).

Definition peekIs (p : Parser) (t : TokenType) : bool :=
  bool_decide (tok_Type (peek p) = t).

(** A bound on the number of tokens still to come: every byte left in the
    input, and the two tokens of lookahead.  The loops of the parser take at
    least one token per turn, so none of them makes more turns than this;
    they give [OutOfFuel] if they did. *)
Definition tokensLeft (p : Parser) : nat :=
  (length (input (lexer p)) - pos (lexer p) + 3)%nat.

Fixpoint skipNewlines_go (fuel : nat) (p : Parser) : PR Parser :=
  match fuel with
  | O => OutOfFuel
  | S f =>
      if currentIs p TokenNewline then p ← nextToken p; skipNewlines_go f p
      else Ok p
  end.
Definition skipNewlines (p : Parser) : PR Parser := skipNewlines_go (tokensLeft p) p.

Definition Parser_pos (p : Parser) : Pos :=
  mkPos (filename p) (tok_Line (current p)) (tok_Col (current p)).

Definition Parser_error (p : Parser) (message : string) : ParseError :=
  mkParseError message (tok_Line (current p)) (tok_Col (current p))
    (pos (lexer p)) (source p).

Definition expectCurrent (p : Parser) (t : TokenType) : PR unit :=
  if negb (currentIs p t) then
    Err (ParseErr (Parser_error p
      ("expected " +:+ TokenType_String t +:+ ", got "
       +:+ TokenType_String (tok_Type (current p)))))
  else Ok ().

Definition PREC_LOWEST : Z := 0.
Definition PREC_PIPE : Z := 1.
Definition PREC_OR : Z := 2.
Definition PREC_AND : Z := 3.
Definition PREC_EQUALS : Z := 4.
Definition PREC_COMPARISON : Z := 5.
Definition PREC_SUM : Z := 6.
Definition PREC_PRODUCT : Z := 7.

Definition tokenPrecedence (t : TokenType) : Z :=
  match t with
  | TokenPipe => PREC_PIPE
  | TokenOr => PREC_OR
  | TokenAnd => PREC_AND
  | TokenEq | TokenNeq => PREC_EQUALS
  | TokenLt | TokenLte | TokenGt | TokenGte => PREC_COMPARISON
  | TokenPlus | TokenMinus => PREC_SUM
  | TokenMul | TokenDiv => PREC_PRODUCT
  | _ => PREC_LOWEST
  end.

Definition peekPrecedence (p : Parser) : Z := tokenPrecedence (tok_Type (peek p)).

Definition expectStatementEnd (p : Parser) : PR unit :=
  match tok_Type (peek p) with
  | TokenNewline | TokenComma | TokenRBrace | TokenRBracket | TokenEnd
  | TokenElse | TokenEOF => Ok ()
  | t => Err (ParseErr (Parser_error p
           ("unexpected token " +:+ TokenType_String t +:+ " after expression")))
  end.

(** The recursive descent.  The functions of parser.go call one another in
    a cycle; here each is written once, over the three entry points through
    which the cycle closes ([parseStatement], [parseValueWithPrecedence],
    [parseIfStatement]), and the cycle is closed below by recursion on a
    fuel counter that bounds the nesting depth. *)

Section descent.

Context `{GoStdlib}.

Variable parseStatement_rec : Parser → PR (Node * Parser).
Variable parseValueWithPrecedence_rec : Z → Parser → PR (Expression * Parser).
Variable parseIfStatement_rec : Parser → PR (Node * Parser).

(** [exprParser.parseExpression()] on a parser of a lower level. *)
Definition parseExpression_rec (p : Parser) : PR (Expression * Parser) :=
  parseValueWithPrecedence_rec PREC_LOWEST p.

Definition parseIdentifier (p : Parser) : Expression :=
  Identifier (tok_Value (current p)) (Parser_pos p).

Definition parseIncludeExpression (p : Parser) : PR (Expression * Parser) :=
  let pos := Parser_pos p in
  p ← nextToken p;
  _ ← expectCurrent p TokenLParen;
  p ← nextToken p;
  _ ← expectCurrent p TokenString;
  let name := tok_Value (current p) in
  p ← nextToken p;
  '(context, p) ←
    (if currentIs p TokenComma then
       p ← nextToken p;
       '(arg, p) ← parseExpression_rec p;
       p ← nextToken p;
       Ok (Some arg, p)
     else Ok (None, p));
  _ ← expectCurrent p TokenRParen;
  Ok (IncludeExpression name context pos, p).

(** *** String literals and interpolation *)

Definition escapedDollar : list ascii := [gostr.nul; "$"%char].
Definition dollar : list ascii := ["$"%char].
Definition dollarBrace : list ascii := ["$"%char; "{"%char].

Definition cleanStr (s : list ascii) : string :=
  gostr.str (gostr.ReplaceAll s escapedDollar dollar).

(** The first loop of [parseStringLiteral]: is there a [${] that the marker
    byte does not precede? *)
Definition hasInterpolation (str : list ascii) : bool :=
  existsb
    (λ i, Ascii.eqb (gostr.at_ str i) "$" && Ascii.eqb (gostr.at_ str (i + 1)) "{"
          && negb (bool_decide (0 < i)%nat && Ascii.eqb (gostr.at_ str (i - 1)) gostr.nul))
    (seq 0 (length str - 1)).

(** The inner search loop: the next [${] at or after [searchPos] that is
    not escaped, as the pair [(start, pos)] the source assigns; [None] is
    [start == -1]. *)
Fixpoint findInterpolation (fuel : nat) (str : list ascii) (searchPos : nat)
    : option (nat * nat) :=
  match fuel with
  | O => None
  | S f =>
      if decide (searchPos < length str)%nat then
        match gostr.Index (drop searchPos str) dollarBrace with
        | None => None
        | Some idx =>
            let absoluteIdx := (searchPos + idx)%nat in
            if bool_decide (0 < absoluteIdx)%nat
               && Ascii.eqb (gostr.at_ str (absoluteIdx - 1)) gostr.nul
            then findInterpolation f str (absoluteIdx + 2)
            else Some (idx, searchPos)
        end
      else None
  end.

(** The fresh parser made for the text of one interpolation. *)
Definition newExprParser (p : Parser) (exprStr : list ascii) : PR Parser :=
  let exprParser :=
    mkParser (NewLexer (gostr.str exprStr)) Token_zero Token_zero
      EmptyString (filename p) in
  exprParser ← nextToken exprParser;
  nextToken exprParser.

Fixpoint parseInterpolation_loop (fuel : nat) (p : Parser) (stringPos : Pos)
    (str : list ascii) (pos : nat) (parts : list Expression)
    : PR (list Expression) :=
  match fuel with
  | O => OutOfFuel
  | S f =>
      match findInterpolation (S (length str)) str pos with
      | None =>
          Ok (if decide (pos < length str)%nat
              then parts ++ [StringLiteral (cleanStr (drop pos str)) stringPos]
              else parts)
      | Some (start, pos) =>
          let parts :=
            if decide (0 < start)%nat
            then parts ++ [StringLiteral (cleanStr (take start (drop pos str))) stringPos]
            else parts in
          let pos := (pos + (start + 2))%nat in
          match gostr.Index (drop pos str) ["}"%char] with
          | None => Err (ParseErr (Parser_error p "unclosed interpolation in string"))
          | Some end_ =>
              let exprStr := take end_ (drop pos str) in
              exprParser ← newExprParser p exprStr;
              match parseExpression_rec exprParser with
              | Ok (expr, _) =>
                  parseInterpolation_loop f p stringPos str (pos + (end_ + 1))
                    (parts ++ [expr])
              | Err err =>
                  Err (Errorf ("failed to parse interpolation expression "
                               +:+ fmt_q (gostr.str exprStr) +:+ ": " +:+ error_Error err)
                         (Some err))
              | Panic => Panic
              | OutOfFuel => OutOfFuel
              end
          end
      end
  end.

Definition parseStringLiteral (p : Parser) : PR (Expression * Parser) :=
  let stringPos := Parser_pos p in
  let str := gostr.bytes (tok_Value (current p)) in
  if negb (hasInterpolation str) then
    Ok (StringLiteral (cleanStr str) stringPos, p)
  else
    parts ← parseInterpolation_loop (S (length str)) p stringPos str 0 [];
    Ok (InterpolatedString parts stringPos, p).

(** *** Blocks *)

(** The loop that parser.go writes out for the body of [for], [with], [if],
    [else], [define], and of object and array literals: until a token of
    [stop] or the end of input, skip comments and newlines, else parse a
    statement, step over its last token, and take an optional comma.
    [check] is the extra test that object literals make first. *)
Fixpoint parseBody_loop (fuel : nat) (stop : TokenType → bool)
    (check : Parser → PR unit) (p : Parser) (body : list Node)
    : PR (list Node * Parser) :=
  match fuel with
  | O => OutOfFuel
  | S f =>
      if negb (stop (tok_Type (current p))) && negb (currentIs p TokenEOF) then
        if currentIs p TokenComment || currentIs p TokenNewline then
          p ← nextToken p;
          parseBody_loop f stop check p body
        else
          _ ← check p;
          '(stmt, p) ← parseStatement_rec p;
          p ← nextToken p;
          p ← skipNewlines p;
          let body := body ++ [stmt] in
          p ← (if currentIs p TokenComma then p ← nextToken p; skipNewlines p
               else Ok p);
          parseBody_loop f stop check p body
      else Ok (body, p)
  end.

Definition noCheck (p : Parser) : PR unit := Ok ().

Definition parseBody (stop : TokenType → bool) (p : Parser)
    : PR (list Node * Parser) :=
  parseBody_loop (tokensLeft p) stop noCheck p [].

Definition isTok (t : TokenType) (u : TokenType) : bool := bool_decide (u = t).

Definition objectMemberCheck (p : Parser) : PR unit :=
  if (currentIs p TokenIdent || currentIs p TokenString) && negb (peekIs p TokenColon)
  then Err (ParseErr (Parser_error p
         ("expected ':', got " +:+ TokenType_String (tok_Type (peek p)))))
  else Ok ().

Definition parseObject (p : Parser) : PR (Expression * Parser) :=
  let pos := Parser_pos p in
  p ← nextToken p;
  p ← skipNewlines p;
  '(body, p) ← parseBody_loop (tokensLeft p) (isTok TokenRBrace) objectMemberCheck p [];
  if negb (currentIs p TokenRBrace) then
    Err (ParseErr (Parser_error p
      ("expected '}', got " +:+ TokenType_String (tok_Type (current p)))))
  else Ok (Object body pos, p).

Definition parseArray (p : Parser) : PR (Expression * Parser) :=
  let pos := Parser_pos p in
  p ← nextToken p;
  p ← skipNewlines p;
  '(body, p) ← parseBody (isTok TokenRBracket) p;
  if negb (currentIs p TokenRBracket) then
    Err (ParseErr (Parser_error p
      ("expected ']', got " +:+ TokenType_String (tok_Type (current p)))))
  else Ok (Array body pos, p).

(** *** Expressions *)

Definition parsePrimaryValue (p : Parser) : PR (Expression * Parser) :=
  let pos := Parser_pos p in
  match tok_Type (current p) with
  | TokenString => parseStringLiteral p
  | TokenTrue => Ok (BooleanLiteral true pos, p)
  | TokenFalse => Ok (BooleanLiteral false pos, p)
  | TokenNull => Ok (NullLiteral pos, p)
  | TokenDot =>
      if peekIs p TokenIdent then
        p ← nextToken p;
        Ok (MemberExpression (CurrentContext pos) (tok_Value (current p)) pos, p)
      else Ok (CurrentContext pos, p)
  | TokenLBrace => parseObject p
  | TokenLBracket => parseArray p
  | TokenInclude => parseIncludeExpression p
  | TokenNumber =>
      match strconv_ParseFloat (tok_Value (current p)) with
      | inl num => Ok (NumberLiteral num pos, p)
      | inr err =>
          Err (Errorf ("invalid number " +:+ fmt_q (tok_Value (current p)) +:+ ": " +:+ err)
                 (Some (Errorf err None)))
      end
  | TokenIdent => Ok (parseIdentifier p, p)
  | TokenNot =>
      p ← nextToken p;
      '(operand, p) ← parseExpression_rec p;
      Ok (UnaryOp "!" operand pos, p)
  | TokenLParen =>
      p ← nextToken p;
      '(value, p) ← parseExpression_rec p;
      p ← nextToken p;
      _ ← expectCurrent p TokenRParen;
      Ok (value, p)
  | t => Err (ParseErr (Parser_error p ("unexpected token " +:+ TokenType_String t)))
  end.

(** The argument loop of a call. *)
Fixpoint parseArgs_loop (fuel : nat) (p : Parser) (args : list Expression)
    : PR (list Expression * Parser) :=
  match fuel with
  | O => OutOfFuel
  | S f =>
      if negb (currentIs p TokenRParen) && negb (currentIs p TokenEOF) then
        '(arg, p) ← parseExpression_rec p;
        p ← nextToken p;
        p ← (if currentIs p TokenComma then nextToken p else Ok p);
        parseArgs_loop f p (args ++ [arg])
      else Ok (args, p)
  end.

Fixpoint parsePostfix_loop (fuel : nat) (p : Parser) (value : Expression)
    : PR (Expression * Parser) :=
  match fuel with
  | O => OutOfFuel
  | S f =>
      if peekIs p TokenDot then
        p ← nextToken p;
        let pos := Parser_pos p in
        p ← nextToken p;
        _ ← expectCurrent p TokenIdent;
        parsePostfix_loop f p (MemberExpression value (tok_Value (current p)) pos)
      else if peekIs p TokenLBracket then
        p ← nextToken p;
        let pos := Parser_pos p in
        p ← nextToken p;
        '(index, p) ← parseExpression_rec p;
        p ← nextToken p;
        _ ← expectCurrent p TokenRBracket;
        parsePostfix_loop f p (IndexExpression value index pos)
      else if peekIs p TokenLParen then
        p ← nextToken p;
        let pos := Parser_pos p in
        p ← nextToken p;
        '(args, p) ← parseArgs_loop (tokensLeft p) p [];
        _ ← expectCurrent p TokenRParen;
        parsePostfix_loop f p (CallExpression value args pos)
      else Ok (value, p)
  end.

Definition parsePostfixValue (p : Parser) : PR (Expression * Parser) :=
  '(value, p) ← parsePrimaryValue p;
  parsePostfix_loop (tokensLeft p) p value.

Fixpoint parseBinary_loop (fuel : nat) (minPrecedence : Z) (p : Parser)
    (lhs : Expression) : PR (Expression * Parser) :=
  match fuel with
  | O => OutOfFuel
  | S f =>
      if minPrecedence <? peekPrecedence p then
        p ← nextToken p;
        let pos := Parser_pos p in
        let operator := tok_Value (current p) in
        let precedence := tokenPrecedence (tok_Type (current p)) in
        p ← nextToken p;
        '(rhs, p) ← parseValueWithPrecedence_rec precedence p;
        parseBinary_loop f minPrecedence p (BinaryOp lhs operator rhs pos)
      else Ok (lhs, p)
  end.

Definition parseValueWithPrecedence (minPrecedence : Z) (p : Parser)
    : PR (Expression * Parser) :=
  '(lhs, p) ← parsePostfixValue p;
  parseBinary_loop (tokensLeft p) minPrecedence p lhs.

Definition parseExpression (p : Parser) : PR (Expression * Parser) :=
  parseValueWithPrecedence PREC_LOWEST p.

(** *** Statements *)

Definition expectedEnd (p : Parser) : error :=
  Errorf ("expected 'end', got " +:+ TokenType_String (tok_Type (current p))) None.

Definition parseIfStatement (p : Parser) : PR (Node * Parser) :=
  let pos := Parser_pos p in
  p ← nextToken p;
  '(condition, p) ← parseExpression p;
  p ← nextToken p;
  _ ← expectCurrent p TokenDo;
  p ← nextToken p;
  p ← skipNewlines p;
  '(body, p) ← parseBody (λ t, isTok TokenElse t || isTok TokenEnd t) p;
  if currentIs p TokenElse then
    p ← nextToken p;
    p ← skipNewlines p;
    if currentIs p TokenIf then
      '(ifStmt, p) ← parseIfStatement_rec p;
      Ok (IfStatement condition body [ifStmt] pos, p)
    else
      '(elseBody, p) ← parseBody (isTok TokenEnd) p;
      if negb (currentIs p TokenEnd) then Err (expectedEnd p)
      else Ok (IfStatement condition body elseBody pos, p)
  else
    if negb (currentIs p TokenEnd) then Err (expectedEnd p)
    else Ok (IfStatement condition body [] pos, p).

Definition parseWithStatement (p : Parser) : PR (Node * Parser) :=
  let pos := Parser_pos p in
  p ← nextToken p;
  '(context, p) ← parseExpression p;
  p ← nextToken p;
  _ ← expectCurrent p TokenAs;
  p ← nextToken p;
  _ ← expectCurrent p TokenIdent;
  let varName := tok_Value (current p) in
  p ← nextToken p;
  _ ← expectCurrent p TokenDo;
  p ← nextToken p;
  p ← skipNewlines p;
  '(body, p) ← parseBody (isTok TokenEnd) p;
  if negb (currentIs p TokenEnd) then Err (expectedEnd p)
  else Ok (WithStatement context varName body pos, p).

Definition parseForStatement (p : Parser) : PR (Node * Parser) :=
  let pos := Parser_pos p in
  p ← nextToken p;
  _ ← expectCurrent p TokenIdent;
  let keyVar := tok_Value (current p) in
  p ← nextToken p;
  _ ← expectCurrent p TokenComma;
  p ← nextToken p;
  _ ← expectCurrent p TokenIdent;
  let valueVar := tok_Value (current p) in
  p ← nextToken p;
  _ ← expectCurrent p TokenIn;
  p ← nextToken p;
  '(iterable, p) ← parseExpression p;
  p ← nextToken p;
  _ ← expectCurrent p TokenDo;
  p ← nextToken p;
  p ← skipNewlines p;
  '(body, p) ← parseBody (isTok TokenEnd) p;
  if negb (currentIs p TokenEnd) then Err (expectedEnd p)
  else Ok (ForStatement keyVar valueVar iterable body pos, p).

Definition asNode (r : PR (Expression * Parser)) : PR (Node * Parser) :=
  '(e, p) ← r; Ok (NExpr e, p).

Definition parseValueStatement (p : Parser) : PR (Node * Parser) :=
  match tok_Type (current p) with
  | TokenFor => parseForStatement p
  | TokenWith => parseWithStatement p
  | TokenIf => parseIfStatement p
  | TokenComment => Ok (NilNode, p)
  | TokenEOF | TokenEnd => Ok (NilNode, p)
  | _ => asNode (parseExpression p)
  end.

Definition parseSpread (p : Parser) : PR (Node * Parser) :=
  let pos := Parser_pos p in
  p ← nextToken p;
  '(operand, p) ← parseValueStatement p;
  Ok (SpreadStatement operand pos, p).

Definition parseAssignmentStatement (p : Parser) : PR (Node * Parser) :=
  let pos := Parser_pos p in
  _ ← expectCurrent p TokenIdent;
  let name := tok_Value (current p) in
  p ← nextToken p;
  _ ← expectCurrent p TokenAssign;
  p ← nextToken p;
  '(value, p) ← parseValueStatement p;
  Ok (AssignmentStatement name value pos, p).

Definition parseLetStatement (p : Parser) : PR (Node * Parser) :=
  let pos := Parser_pos p in
  p ← nextToken p;
  _ ← expectCurrent p TokenIdent;
  let name := tok_Value (current p) in
  p ← nextToken p;
  _ ← expectCurrent p TokenAssign;
  p ← nextToken p;
  '(value, p) ← parseValueStatement p;
  Ok (LetStatement name value pos, p).

Definition parseKeyValue (p : Parser) : PR (Node * Parser) :=
  let pos := Parser_pos p in
  let key := tok_Value (current p) in
  p ← nextToken p;
  _ ← expectCurrent p TokenColon;
  p ← nextToken p;
  '(value, p) ← parseValueStatement p;
  _ ← expectStatementEnd p;
  Ok (KeyValueStatement key value pos, p).

Definition parseStatement (p : Parser) : PR (Node * Parser) :=
  match tok_Type (current p) with
  | TokenFor => parseForStatement p
  | TokenWith => parseWithStatement p
  | TokenBreak => Ok (BreakStatement (Parser_pos p), p)
  | TokenContinue => Ok (ContinueStatement (Parser_pos p), p)
  | TokenLet => parseLetStatement p
  | TokenSpread => parseSpread p
  | TokenIf => parseIfStatement p
  | TokenComment => Ok (NilNode, p)
  | TokenString =>
      if peekIs p TokenColon then parseKeyValue p
      else asNode (parseExpression p)
  | TokenIdent =>
      if peekIs p TokenAssign then parseAssignmentStatement p
      else if peekIs p TokenColon then parseKeyValue p
      else asNode (parseExpression p)
  | TokenEOF | TokenEnd => Ok (NilNode, p)
  | _ => asNode (parseExpression p)
  end.

Definition parseDefinition (p : Parser) : PR (TemplateDefinition * Parser) :=
  let pos := Parser_pos p in
  p ← nextToken p;
  _ ← expectCurrent p TokenLParen;
  p ← nextToken p;
  _ ← expectCurrent p TokenString;
  let name := tok_Value (current p) in
  p ← nextToken p;
  _ ← expectCurrent p TokenRParen;
  p ← nextToken p;
  if currentIs p TokenDo then
    p ← nextToken p;
    p ← skipNewlines p;
    '(body, p) ← parseBody (isTok TokenEnd) p;
    _ ← expectCurrent p TokenEnd;
    p ← nextToken p;
    Ok (mkDefinition name body pos, p)
  else
    '(value, p) ← parseExpression p;
    p ← nextToken p;
    Ok (mkDefinition name [NExpr value] pos, p).

Fixpoint Parse_loop (fuel : nat) (p : Parser) (doc : Document) : PR Document :=
  match fuel with
  | O => OutOfFuel
  | S f =>
      if negb (currentIs p TokenEOF) then
        if currentIs p TokenNewline || currentIs p TokenComment then
          p ← nextToken p;
          Parse_loop f p doc
        else if currentIs p TokenDefine then
          '(d, p) ← parseDefinition p;
          let doc := mkDocument (doc_Body doc) (Definitions doc ++ [d]) in
          p ← skipNewlines p;
          Parse_loop f p doc
        else
          '(node, p) ← parseStatement p;
          let doc :=
            match node with
            | NilNode => doc
            | _ => mkDocument (doc_Body doc ++ [node]) (Definitions doc)
            end in
          p ← nextToken p;
          p ← skipNewlines p;
          Parse_loop f p doc
      else Ok doc
  end.

Definition Parse (p : Parser) : PR Document :=
  Parse_loop (tokensLeft p) p (mkDocument [] []).

End descent.

(** The cycle closed: [fuel] bounds how deep statements and expressions
    nest. *)
Fixpoint parseStatement_n `{GoStdlib} (fuel : nat) (p : Parser) : PR (Node * Parser) :=
  match fuel with
  | O => OutOfFuel
  | S f =>
      parseStatement (parseStatement_n f) (parseValueWithPrecedence_n f)
        (parseIfStatement_n f) p
  end
with parseValueWithPrecedence_n `{GoStdlib} (fuel : nat) (minPrecedence : Z) (p : Parser)
    : PR (Expression * Parser) :=
  match fuel with
  | O => OutOfFuel
  | S f =>
      parseValueWithPrecedence (parseStatement_n f) (parseValueWithPrecedence_n f)
        minPrecedence p
  end
with parseIfStatement_n `{GoStdlib} (fuel : nat) (p : Parser) : PR (Node * Parser) :=
  match fuel with
  | O => OutOfFuel
  | S f =>
      parseIfStatement (parseStatement_n f) (parseValueWithPrecedence_n f)
        (parseIfStatement_n f) p
  end.

Definition Parse_n `{GoStdlib} (fuel : nat) (p : Parser) : PR Document :=
  Parse (parseStatement_n fuel) (parseValueWithPrecedence_n fuel)
    (parseIfStatement_n fuel) p.

(** [New(source, filename).Parse()]. *)
Definition ParseSource `{GoStdlib} (fuel : nat) (source filename : string) : PR Document :=
  p ← New source filename;
  Parse_n fuel p.

End parser.

(** * Package runtime *)

Module runtime.

(** ** Values (value.go) *)

Abbreviation loc := positive.

Inductive ValueType :=
  | StringType | NumberType | BoolType | NullType | ArrayType | ObjectType.

#[global] Instance ValueType_eq_dec : EqDecision ValueType.
Proof. solve_decision. Defined.

Definition ValueType_String (vt : ValueType) : string :=
  match vt with
  | StringType => "string"
  | NumberType => "number"
  | BoolType => "bool"
  | NullType => "null"
  | ArrayType => "array"
  | ObjectType => "object"
  end.

(** A [Value] is a pointer to one of six structs.  The four scalar structs
    are never written after they are made and are compared by content, so
    they are kept by value; an [*ArrayValue] or [*ObjectValue] is the
    location of its struct in the heap. *)
Inductive Value :=
  | StringValue (Value : string)
  | NumberValue (Value : float)
  | BoolValue (Value : bool)
  | NullValue
  | ArrayValue (l : loc)
  | ObjectValue (l : loc).

Inductive HCell :=
  | HArray (Elements : list Value)
  | HObject (Fields : gmap string Value).

Abbreviation Heap := (gmap loc HCell).

(** [a.Elements] and [o.Fields]; a nil slice or map reads as an empty one. *)
Definition Elements (h : Heap) (l : loc) : list Value :=
  match h !! l with Some (HArray els) => els | _ => [] end.

Definition Fields (h : Heap) (l : loc) : gmap string Value :=
  match h !! l with Some (HObject fs) => fs | _ => ∅ end.

Definition Type_ (v : Value) : ValueType :=
  match v with
  | StringValue _ => StringType
  | NumberValue _ => NumberType
  | BoolValue _ => BoolType
  | NullValue => NullType
  | ArrayValue _ => ArrayType
  | ObjectValue _ => ObjectType
  end.

Definition IsTruthy (h : Heap) (v : Value) : bool :=
  match v with
  | StringValue s => negb (String.eqb s EmptyString)
  | NumberValue n => negb (gofloat.isZero n)
  | BoolValue b => b
  | NullValue => false
  | ArrayValue l => bool_decide (0 < length (Elements h l))%nat
  | ObjectValue l => bool_decide (0 < size (Fields h l))%nat
  end.

Definition BoolValue_String (b : bool) : string := if b then "true" else "false".

(** [o.Get(key)]. *)
Definition Get (h : Heap) (o : loc) (key : string) : option Value :=
  Fields h o !! key.

(** [o.Set(key, val)]. *)
Definition Set_ (o : loc) (key : string) (val : Value) (h : Heap) : Heap :=
  <[o := HObject (<[key := val]> (Fields h o))]> h.

Definition IsString (v : Value) : bool :=
  match v with StringValue _ => true | _ => false end.

Section conversions.
Context `{GoStdlib}.

Definition ToString (v : Value) : string + string :=
  match v with
  | StringValue s => inl s
  | NumberValue n => inl (strconv_FormatFloat n)
  | BoolValue b => inl (BoolValue_String b)
  | NullValue => inl "null"
  | _ => inr ("cannot convert " +:+ ValueType_String (Type_ v) +:+ " to string")
  end.

Definition ToNumber (v : Value) : float + string :=
  match v with
  | NumberValue n => inl n
  | StringValue s => strconv_ParseFloat s
  | BoolValue b => inl (if b then 1%float else 0%float)
  | NullValue => inl 0%float
  | _ => inr ("cannot convert " +:+ ValueType_String (Type_ v) +:+ " to number")
  end.

End conversions.

(** A fresh location for [&ArrayValue{...}] or [&ObjectValue{...}]. *)
Definition newLoc (h : Heap) : loc := fresh (dom h).

Definition NewArray (elements : list Value) (h : Heap) : Value * Heap :=
  let l := newLoc h in (ArrayValue l, <[l := HArray elements]> h).

Definition NewObject (h : Heap) : Value * Heap :=
  let l := newLoc h in (ObjectValue l, <[l := HObject ∅]> h).

(** ** Comparison (compare.go) *)

Definition Equal (left_ right_ : Value) : bool :=
  if negb (bool_decide (Type_ left_ = Type_ right_)) then false
  else
    match left_, right_ with
    | StringValue l, StringValue r => String.eqb l r
    | NumberValue l, NumberValue r => PrimFloat.eqb l r
    | BoolValue l, BoolValue r => Bool.eqb l r
    | NullValue, _ => true
    | ArrayValue l, ArrayValue r => bool_decide (l = r)
    | ObjectValue l, ObjectValue r => bool_decide (l = r)
    | _, _ => false
    end.

Definition NotEqual (left_ right_ : Value) : bool := negb (Equal left_ right_).

Section compare.
Context `{GoStdlib}.

Definition compareWith (op : float → float → bool) (left_ right_ : Value)
    : bool + string :=
  let msg :=
    "cannot compare " +:+ ValueType_String (Type_ left_) +:+ " and "
    +:+ ValueType_String (Type_ right_) in
  match ToNumber left_ with
  | inr _ => inr msg
  | inl leftNum =>
      match ToNumber right_ with
      | inr _ => inr msg
      | inl rightNum => inl (op leftNum rightNum)
      end
  end.

Definition Less := compareWith PrimFloat.ltb.
Definition LessEqual := compareWith PrimFloat.leb.
Definition Greater := compareWith (λ a b, PrimFloat.ltb b a).
Definition GreaterEqual := compareWith (λ a b, PrimFloat.leb b a).

End compare.

(** ** Scopes and templates (scope.go) *)

Record Template := mkTemplate {
  tmpl_Name : string;
  tmpl_Body : list parser.Node;
  tmpl_Filename : string;
}.

Definition NewTemplate (name : string) (body : list parser.Node) (filename : string)
    : Template := mkTemplate name body filename.

(** [type Func func(args ...Value) (Value, error)].  A function of the host
    sees the values it is given and, through them, the heap; of an error it
    returns only the text is ever used. *)
Definition Func : Type := list Value → Heap → Res string Value * Heap.

(** A [*Scope]: [vars] is the scope's own map; [globals], [funcs] and
    [templates] are references to maps that [Link] makes several scopes
    share. *)
Record Scope := mkScope {
  parent : option loc;
  vars : gmap string Value;
  globals : loc;
  funcs : loc;
  templates : loc;
}.

(** The cells of the second store: scopes, the maps they refer to, and the
    collectors of package eval. *)
Inductive Cell :=
  | CScope (s : Scope)
  | CGlobals (m : gmap string Value)
  | CFuncs (m : gmap string Func)
  | CTemplates (m : gmap string Template)
  | CDocuments (documents : list Value)
  | CSingle (val : option Value).

Abbreviation Env := (gmap loc Cell).

Record State := mkState {
  heap : Heap;
  env : Env;
}.

Definition getScope (s : loc) (env : Env) : option Scope :=
  match env !! s with Some (CScope sc) => Some sc | _ => None end.
Definition getGlobals (l : loc) (env : Env) : option (gmap string Value) :=
  match env !! l with Some (CGlobals m) => Some m | _ => None end.
Definition getFuncs (l : loc) (env : Env) : option (gmap string Func) :=
  match env !! l with Some (CFuncs m) => Some m | _ => None end.
Definition getTemplates (l : loc) (env : Env) : option (gmap string Template) :=
  match env !! l with Some (CTemplates m) => Some m | _ => None end.

(** [s.Link(other)]; [None] is a nil dereference. *)
Definition Link (s other : loc) (env : Env) : option Env :=
  sc ← getScope s env;
  oc ← getScope other env;
  Some (<[s := CScope (mkScope (parent sc) (vars sc) (globals oc) (funcs oc) (templates oc))]> env).

(** [NewScope(parent)]: the new scope and its three new maps, then the link
    to the parent. *)
Definition NewScope (parent : option loc) (env : Env) : option (loc * Env) :=
  let g := fresh (dom env) in
  let env := <[g := CGlobals ∅]> env in
  let f := fresh (dom env) in
  let env := <[f := CFuncs ∅]> env in
  let t := fresh (dom env) in
  let env := <[t := CTemplates ∅]> env in
  let s := fresh (dom env) in
  let env := <[s := CScope (mkScope parent ∅ g f t)]> env in
  match parent with
  | Some p => env ← Link s p env; Some (s, env)
  | None => Some (s, env)
  end.

Definition GetFunction (s : loc) (name : string) (env : Env) : option (option Func) :=
  sc ← getScope s env;
  m ← getFuncs (funcs sc) env;
  Some (m !! name).

Definition SetFunction (s : loc) (name : string) (f : Func) (env : Env) : option Env :=
  sc ← getScope s env;
  m ← getFuncs (funcs sc) env;
  Some (<[funcs sc := CFuncs (<[name := f]> m)]> env).

(** [s.Get(name)]: the scope's own variables, then the parent's [Get], and
    only in a scope without parent its globals. *)
Fixpoint Get_go (fuel : nat) (s : loc) (name : string) (env : Env)
    : option (Value + string) :=
  match fuel with
  | O => None
  | S f =>
      sc ← getScope s env;
      match vars sc !! name with
      | Some val => Some (inl val)
      | None =>
          match parent sc with
          | Some p => Get_go f p name env
          | None =>
              m ← getGlobals (globals sc) env;
              match m !! name with
              | Some val => Some (inl val)
              | None => Some (inr ("undefined variable: " +:+ name))
              end
          end
      end
  end.
Definition Scope_Get (s : loc) (name : string) (env : Env) : option (Value + string) :=
  Get_go (S (size env)) s name env.

Definition Scope_Set (s : loc) (name : string) (val : Value) (env : Env) : option Env :=
  sc ← getScope s env;
  Some (<[s := CScope (mkScope (parent sc) (<[name := val]> (vars sc))
                         (globals sc) (funcs sc) (templates sc))]> env).

Definition SetGlobal (s : loc) (name : string) (val : Value) (env : Env) : option Env :=
  sc ← getScope s env;
  m ← getGlobals (globals sc) env;
  Some (<[globals sc := CGlobals (<[name := val]> m)]> env).

Definition DefineTemplate (s : loc) (name : string) (tmpl : Template) (env : Env)
    : option Env :=
  sc ← getScope s env;
  m ← getTemplates (templates sc) env;
  Some (<[templates sc := CTemplates (<[name := tmpl]> m)]> env).

Fixpoint GetTemplate_go (fuel : nat) (s : loc) (name : string) (env : Env)
    : option (Template + string) :=
  match fuel with
  | O => None
  | S f =>
      sc ← getScope s env;
      m ← getTemplates (templates sc) env;
      match m !! name with
      | Some tmpl => Some (inl tmpl)
      | None =>
          match parent sc with
          | Some p => GetTemplate_go f p name env
          | None => Some (inr ("undefined template: " +:+ name))
          end
      end
  end.
Definition GetTemplate (s : loc) (name : string) (env : Env) : option (Template + string) :=
  GetTemplate_go (S (size env)) s name env.

End runtime.

(** * Package eval *)

Module eval.

Import parser runtime.

(** ** Errors (errors.go) *)

(** The values of type [error] met during evaluation: an [*EvalError], an
    error made by [fmt.Errorf], and the sentinel [breakSignal], which is
    recognised by identity. *)
Inductive error :=
  | EvalError (Message : string) (Filename : string) (Line : Z) (Col : Z)
  | errorString (msg : string)
  | breakSignal.

Section errors.
Context `{GoStdlib}.

Definition error_Error (e : error) : string :=
  match e with
  | EvalError Message Filename Line Col =>
      if negb (String.eqb Filename EmptyString) then
        if 0 <? Line then
          "[" +:+ filepath_Base Filename +:+ " " +:+ gostr.itoa Line +:+ ":"
          +:+ gostr.itoa Col +:+ "] " +:+ Message
        else "[" +:+ Filename +:+ "] " +:+ Message
      else Message
  | errorString msg => msg
  | breakSignal => "break"
  end.

(** [errorf(pos, format, args...)], given the formatted message. *)
Definition errorf (pos : Pos) (msg : string) : error :=
  if (0 <? Line pos) && negb (String.eqb (Filename pos) EmptyString) then
    EvalError msg (Filename pos) (Line pos) (Col pos)
  else if negb (String.eqb (Filename pos) EmptyString) then
    EvalError msg (Filename pos) 0 0
  else errorString msg.

(** Modelled from the spec: [wraperr] is called by [evalInterpolatedString]
    and its body is not among the sources; the specification says that an
    outer layer "wraps it with its own position". *)
Definition wraperr (pos : Pos) (err : error) : error :=
  errorf pos (error_Error err).

End errors.

(** ** The evaluator's state *)

Definition M (A : Type) : Type := State → Res error A * State.

#[global] Instance M_ret : MRet M := λ A a σ, (Ok a, σ).
#[global] Instance M_bind : MBind M := λ A B k m σ,
  match m σ with
  | (Ok a, σ') => k a σ'
  | (Err e, σ') => (Err e, σ')
  | (Panic, σ') => (Panic, σ')
  | (OutOfFuel, σ') => (OutOfFuel, σ')
  end.

Definition throw {A} (e : error) : M A := λ σ, (Err e, σ).
Definition panic {A} : M A := λ σ, (Panic, σ).
Definition outOfFuel {A} : M A := λ σ, (OutOfFuel, σ).

Definition getHeap : M Heap := λ σ, (Ok (heap σ), σ).
Definition getEnv : M Env := λ σ, (Ok (env σ), σ).
Definition modifyHeap (f : Heap → Heap) : M unit :=
  λ σ, (Ok (), mkState (f (heap σ)) (env σ)).

(** An operation on scopes; its [None] is a dereference of nil. *)
Definition readEnv {A} (f : Env → option A) : M A :=
  λ σ, match f (env σ) with Some a => (Ok a, σ) | None => (Panic, σ) end.
Definition updateEnv (f : Env → option Env) : M unit :=
  λ σ, match f (env σ) with
       | Some env' => (Ok (), mkState (heap σ) env')
       | None => (Panic, σ)
       end.
Definition allocEnv {A} (f : Env → option (A * Env)) : M A :=
  λ σ, match f (env σ) with
       | Some (a, env') => (Ok a, mkState (heap σ) env')
       | None => (Panic, σ)
       end.
Definition allocHeap {A} (f : Heap → A * Heap) : M A :=
  λ σ, let '(a, h) := f (heap σ) in (Ok a, mkState h (env σ)).

Definition ofOption {A} (o : option A) : M A :=
  match o with Some a => mret a | None => panic end.

Fixpoint forEach {A} (l : list A) (f : A → M unit) : M unit :=
  match l with
  | [] => mret ()
  | x :: l' => _ ← f x; forEach l' f
  end.

Fixpoint mapM {A B} (f : A → M B) (l : list A) : M (list B) :=
  match l with
  | [] => mret []
  | x :: l' => y ← f x; ys ← mapM f l'; mret (y :: ys)
  end.

(** ** Collectors *)

(** What [evaluator.coll] holds: a [*documentCollector], a
    [*singleValueCollector], a [*runtime.ArrayValue] or a
    [*runtime.ObjectValue]. *)
Inductive Coll :=
  | CollDocuments (c : loc)
  | CollSingle (c : loc)
  | CollArray (a : loc)
  | CollObject (o : loc).

Record evaluator := mkEvaluator {
  scope : loc;
  coll : Coll;
}.

Definition newCell (c : Cell) : M loc :=
  allocEnv (λ env, let l := fresh (dom env) in Some (l, <[l := c]> env)).

Definition documents (c : loc) : M (list Value) :=
  readEnv (λ env, match env !! c with Some (CDocuments ds) => Some ds | _ => None end).

Definition addDocument (c : loc) (val : Value) : M unit :=
  ds ← documents c;
  updateEnv (λ env, Some (<[c := CDocuments (ds ++ [val])]> env)).

Definition singleVal (c : loc) : M (option Value) :=
  readEnv (λ env, match env !! c with Some (CSingle v) => Some v | _ => None end).

Definition setVal (c : loc) (v : Value) : M unit :=
  old ← singleVal c;
  match old with
  | Some _ => throw (errorString "unexpected value, expected only a single value")
  | None => updateEnv (λ env, Some (<[c := CSingle (Some v)]> env))
  end.

Definition appendElements (a : loc) (vals : list Value) : M unit :=
  modifyHeap (λ h, <[a := HArray (Elements h a ++ vals)]> h).

Definition setField (o : loc) (key : string) (val : Value) : M unit :=
  modifyHeap (Set_ o key val).

(** [&runtime.ArrayValue{}] and [&runtime.ObjectValue{}]. *)
Definition newArray : M loc :=
  allocHeap (λ h, let l := newLoc h in (l, <[l := HArray []]> h)).
Definition newObject : M loc :=
  allocHeap (λ h, let l := newLoc h in (l, <[l := HObject ∅]> h)).

Section evaluation.
Context `{GoStdlib}.

(** ** Literals and operators (literals.go, operators.go) *)

Definition ofSum {A} (r : A + string) : M A :=
  match r with inl a => mret a | inr msg => throw (errorString msg) end.

Definition evalAdd (left_ right_ : Value) : M Value :=
  if IsString left_ || IsString right_ then
    leftStr ← ofSum (ToString left_);
    rightStr ← ofSum (ToString right_);
    mret (StringValue (leftStr +:+ rightStr))
  else
    let msg := "cannot add " +:+ ValueType_String (Type_ left_) +:+ " and "
               +:+ ValueType_String (Type_ right_) in
    match ToNumber left_, ToNumber right_ with
    | inl leftNum, inl rightNum => mret (NumberValue (leftNum + rightNum)%float)
    | _, _ => throw (errorString msg)
    end.

Definition arith (msg : string) (op : float → float → M Value)
    (left_ right_ : Value) : M Value :=
  match ToNumber left_, ToNumber right_ with
  | inl leftNum, inl rightNum => op leftNum rightNum
  | _, _ => throw (errorString msg)
  end.

Definition evalSub (left_ right_ : Value) : M Value :=
  arith ("cannot subtract " +:+ ValueType_String (Type_ right_) +:+ " from "
         +:+ ValueType_String (Type_ left_))
    (λ a b, mret (NumberValue (a - b)%float)) left_ right_.

Definition evalMul (left_ right_ : Value) : M Value :=
  arith ("cannot multiply " +:+ ValueType_String (Type_ left_) +:+ " and "
         +:+ ValueType_String (Type_ right_))
    (λ a b, mret (NumberValue (a * b)%float)) left_ right_.

Definition evalDiv (left_ right_ : Value) : M Value :=
  arith ("cannot divide " +:+ ValueType_String (Type_ left_) +:+ " by "
         +:+ ValueType_String (Type_ right_))
    (λ a b, if gofloat.isZero b then throw (errorString "division by zero")
            else mret (NumberValue (a / b)%float)) left_ right_.

Definition evalEqual (left_ right_ : Value) : M Value :=
  mret (BoolValue (Equal left_ right_)).
Definition evalNotEqual (left_ right_ : Value) : M Value :=
  mret (BoolValue (NotEqual left_ right_)).
Definition evalCompare (r : bool + string) : M Value :=
  result ← ofSum r; mret (BoolValue result).
Definition evalLess (left_ right_ : Value) := evalCompare (Less left_ right_).
Definition evalLessEqual (left_ right_ : Value) := evalCompare (LessEqual left_ right_).
Definition evalGreater (left_ right_ : Value) := evalCompare (Greater left_ right_).
Definition evalGreaterEqual (left_ right_ : Value) := evalCompare (GreaterEqual left_ right_).

(** ** The tree walk (eval.go) *)

(** [evalExpression] and [evalStatement] of the level below; the cycle is
    closed after the section, by recursion on fuel. *)
Variable evalExpression_rec : evaluator → Expression → M Value.
Variable evalStatement_rec : evaluator → Node → M unit.

Definition evalIdentifier (e : evaluator) (name : string) (pos : Pos) : M Value :=
  r ← readEnv (Scope_Get (scope e) name);
  match r with
  | inl val => mret val
  | inr err => throw (errorf pos err)
  end.

Definition copyIfBound (e : evaluator) (ctx : loc) (name : string) : M unit :=
  r ← readEnv (Scope_Get (scope e) name);
  match r with
  | inl val => setField ctx name val
  | inr _ => mret ()
  end.

Definition evalCurrentContext (e : evaluator) : M Value :=
  ctx ← newObject;
  _ ← copyIfBound e ctx "Release";
  _ ← copyIfBound e ctx "Chart";
  _ ← copyIfBound e ctx "Values";
  mret (ObjectValue ctx).

(** [res, err := fn(args...)], and the error wrapped at [pos]. *)
Definition callHost (fn : Func) (pos : Pos) (args : list Value) : M Value :=
  λ σ, match fn args (heap σ) with
       | (Ok res, h) => (Ok res, mkState h (env σ))
       | (Err err, h) => (Err (errorf pos err), mkState h (env σ))
       | (Panic, h) => (Panic, mkState h (env σ))
       | (OutOfFuel, h) => (OutOfFuel, mkState h (env σ))
       end.

Definition callFunction (e : evaluator) (pos : Pos) (name : string) (args : list Value)
    : M Value :=
  fn ← readEnv (GetFunction (scope e) name);
  match fn with
  | None => throw (errorf pos ("undefined function: " +:+ name))
  | Some fn => callHost fn pos args
  end.

Definition collectNode (e : evaluator) (node : Node) : M unit :=
  match node with
  | NExpr it =>
      val ← evalExpression_rec e it;
      match coll e with
      | CollArray a => appendElements a [val]
      | CollSingle c => setVal c val
      | CollDocuments c => addDocument c val
      | CollObject _ => throw (errorf (Expression_GetPos it) "unexpected value")
      end
  | NilNode => panic
  | _ => evalStatement_rec e node
  end.

Definition collectSingleValue (e : evaluator) (n : Node) (cb : evaluator → M unit)
    : M Value :=
  c ← newCell (CSingle None);
  let sub := mkEvaluator (scope e) (CollSingle c) in
  _ ← cb sub;
  val ← singleVal c;
  match val with
  | None => pos ← ofOption (GetPos n); throw (errorf pos "expected value")
  | Some val => mret val
  end.

(** [errorf(n.Pos, "include %q: %s", n.Name, err)] around a step. *)
Definition includeError (pos : Pos) (name : string) (m : M unit) : M unit :=
  λ σ, match m σ with
       | (Err err, σ') =>
           (Err (errorf pos ("include " +:+ fmt_q name +:+ ": " +:+ error_Error err)), σ')
       | r => r
       end.

(** [evalIncludeStatement] is written in two halves.  The first makes the
    scope of the template: a new scope without parent, linked to the scope
    of the caller, into which the fields of the context object, if one is
    given, are copied. *)
Definition includeScope (e : evaluator) (context : option Expression) : M loc :=
  tmplScope ← allocEnv (NewScope None);
  _ ← updateEnv (Link tmplScope (scope e));
  _ ← match context with
      | Some ctxExpr =>
          val ← evalExpression_rec e ctxExpr;
          match val with
          | ObjectValue obj =>
              h ← getHeap;
              forEach (rangeMap (Fields h obj))
                (λ kv, updateEnv (Scope_Set tmplScope kv.1 kv.2))
          | _ => throw (errorf (Expression_GetPos ctxExpr)
                          "template context must be an object")
          end
      | None => mret ()
      end;
  mret tmplScope.

(** The second half walks the body of the template with [tmplEval], whose
    scope is the new one and whose collector is the caller's. *)
Definition includeBody (tmplEval : evaluator) (tmpl : Template) (name : string)
    (pos : Pos) : M unit :=
  forEach (tmpl_Body tmpl)
    (λ node, includeError pos name (collectNode tmplEval node)).

Definition evalIncludeStatement (e : evaluator) (name : string)
    (context : option Expression) (pos : Pos) : M unit :=
  r ← readEnv (GetTemplate (scope e) name);
  match r with
  | inr err => throw (errorf pos err)
  | inl tmpl =>
      tmplScope ← includeScope e context;
      includeBody (mkEvaluator tmplScope (coll e)) tmpl name pos
  end.

Definition evalArray (e : evaluator) (body : list Node) : M Value :=
  arr ← newArray;
  let sub := mkEvaluator (scope e) (CollArray arr) in
  _ ← forEach body (collectNode sub);
  mret (ArrayValue arr).

Definition evalObject (e : evaluator) (body : list Node) : M Value :=
  obj ← newObject;
  let sub := mkEvaluator (scope e) (CollObject obj) in
  _ ← forEach body
        (λ item, match item with
                 | NilNode => panic
                 | it => evalStatement_rec sub it
                 end);
  mret (ObjectValue obj).

Definition evalMemberExpression (e : evaluator) (object : Expression)
    (member : string) (pos : Pos) : M Value :=
  objVal ← evalExpression_rec e object;
  match objVal with
  | NullValue => mret NullValue
  | ObjectValue obj =>
      h ← getHeap;
      match Get h obj member with
      | Some val => mret val
      | None => mret NullValue
      end
  | _ => throw (errorf pos ("cannot access member of " +:+ ValueType_String (Type_ objVal)))
  end.

Definition evalIndexExpression (e : evaluator) (object index : Expression)
    (pos : Pos) : M Value :=
  objVal ← evalExpression_rec e object;
  indexVal ← evalExpression_rec e index;
  match objVal with
  | ArrayValue obj =>
      match indexVal with
      | NumberValue num =>
          h ← getHeap;
          let idx := gofloat.to_int num in
          if (idx <? 0) || (Z.of_nat (length (Elements h obj)) <=? idx) then
            throw (errorf pos ("array index out of bounds: " +:+ gostr.itoa idx))
          else ofOption (Elements h obj !! Z.to_nat idx)
      | _ => throw (errorf pos ("array index must be a number, got "
                                +:+ ValueType_String (Type_ indexVal)))
      end
  | ObjectValue obj =>
      match ToString indexVal with
      | inr _ => throw (errorf pos "object index must be a string")
      | inl key =>
          h ← getHeap;
          match Get h obj key with
          | Some val => mret val
          | None => throw (errorf pos ("undefined field: " +:+ key))
          end
      end
  | _ => throw (errorf pos ("cannot index " +:+ ValueType_String (Type_ objVal)))
  end.

Definition evalPipe (e : evaluator) (left_ right_ : Expression) (pos : Pos) : M Value :=
  val ← evalExpression_rec e left_;
  match right_ with
  | Identifier name rpos => callFunction e rpos name [val]
  | CallExpression function args _ =>
      match function with
      | Identifier funcName fpos =>
          args ← mapM (evalExpression_rec e) args;
          callFunction e fpos funcName (args ++ [val])
      | _ => throw (errorf pos "pipe right side must be a function name")
      end
  | _ => throw (errorf pos ("invalid pipe right side: " +:+ Expression_typeName right_))
  end.

Definition evalBinaryOp (e : evaluator) (left_ : Expression) (operator : string)
    (right_ : Expression) (pos : Pos) : M Value :=
  if String.eqb operator "|" then evalPipe e left_ right_ pos
  else
    lhs ← evalExpression_rec e left_;
    rhs ← evalExpression_rec e right_;
    if String.eqb operator "+" then evalAdd lhs rhs
    else if String.eqb operator "-" then evalSub lhs rhs
    else if String.eqb operator "*" then evalMul lhs rhs
    else if String.eqb operator "/" then evalDiv lhs rhs
    else if String.eqb operator "==" then evalEqual lhs rhs
    else if String.eqb operator "!=" then evalNotEqual lhs rhs
    else if String.eqb operator "<" then evalLess lhs rhs
    else if String.eqb operator "<=" then evalLessEqual lhs rhs
    else if String.eqb operator ">" then evalGreater lhs rhs
    else if String.eqb operator ">=" then evalGreaterEqual lhs rhs
    else if String.eqb operator "&&" then
      h ← getHeap; mret (BoolValue (IsTruthy h lhs && IsTruthy h rhs))
    else if String.eqb operator "||" then
      h ← getHeap; mret (BoolValue (IsTruthy h lhs || IsTruthy h rhs))
    else throw (errorf pos ("unknown operator: " +:+ operator)).

Definition evalUnaryOp (e : evaluator) (operator : string) (operand : Expression)
    (pos : Pos) : M Value :=
  operand ← evalExpression_rec e operand;
  if String.eqb operator "!" then
    h ← getHeap; mret (BoolValue (negb (IsTruthy h operand)))
  else if String.eqb operator "-" then
    match ToNumber operand with
    | inl num => mret (NumberValue (- num)%float)
    | inr _ => throw (errorf pos ("cannot negate " +:+ ValueType_String (Type_ operand)))
    end
  else throw (errorf pos ("unknown unary operator: " +:+ operator)).

Definition evalCallExpression (e : evaluator) (function : Expression)
    (args : list Expression) (pos : Pos) : M Value :=
  match function with
  | Identifier funcName _ =>
      args ← mapM (evalExpression_rec e) args;
      callFunction e pos funcName args
  | _ => throw (errorf pos "function must be an identifier")
  end.

Fixpoint evalInterpolatedString_loop (e : evaluator) (pos : Pos)
    (parts : list Expression) (result : string) : M Value :=
  match parts with
  | [] => mret (StringValue result)
  | part :: parts =>
      val ← evalExpression_rec e part;
      match ToString val with
      | inl str => evalInterpolatedString_loop e pos parts (result +:+ str)
      | inr err => throw (wraperr pos (errorString err))
      end
  end.

Definition evalInterpolatedString (e : evaluator) (parts : list Expression) (pos : Pos)
    : M Value :=
  evalInterpolatedString_loop e pos parts EmptyString.

Definition evalExpression (e : evaluator) (node : Expression) : M Value :=
  match node with
  | StringLiteral v _ => mret (StringValue v)
  | NumberLiteral v _ => mret (NumberValue v)
  | BooleanLiteral v _ => mret (BoolValue v)
  | NullLiteral _ => mret NullValue
  | InterpolatedString parts pos => evalInterpolatedString e parts pos
  | Identifier name pos => evalIdentifier e name pos
  | BinaryOp l op r pos => evalBinaryOp e l op r pos
  | UnaryOp op operand pos => evalUnaryOp e op operand pos
  | CallExpression fn args pos => evalCallExpression e fn args pos
  | MemberExpression obj member pos => evalMemberExpression e obj member pos
  | IndexExpression obj index pos => evalIndexExpression e obj index pos
  | Array body _ => evalArray e body
  | Object body _ => evalObject e body
  | IncludeExpression name context pos =>
      collectSingleValue e (NExpr node)
        (λ sub, evalIncludeStatement sub name context pos)
  | CurrentContext _ => evalCurrentContext e
  end.

Definition evalIfStatement (e : evaluator) (condition : Expression)
    (body else_ : list Node) : M unit :=
  cond ← evalExpression e condition;
  h ← getHeap;
  let branch := if IsTruthy h cond then body else else_ in
  forEach branch (collectNode e).

Definition evalWithStatement (e : evaluator) (context : Expression)
    (varName : string) (body : list Node) : M unit :=
  context ← evalExpression e context;
  newScope ← allocEnv (NewScope (Some (scope e)));
  _ ← updateEnv (Scope_Set newScope varName context);
  let sub := mkEvaluator newScope (coll e) in
  forEach body (collectNode sub).

Definition evalValueStatement (e : evaluator) (node : Node) : M Value :=
  match node with
  | IfStatement condition body else_ _ =>
      collectSingleValue e node (λ sub, evalIfStatement sub condition body else_)
  | WithStatement context varName body _ =>
      collectSingleValue e node (λ sub, evalWithStatement sub context varName body)
  | NExpr it => evalExpression e it
  | NilNode => panic
  | _ =>
      pos ← ofOption (GetPos node);
      throw (errorf pos ("unexpected node " +:+ typeName node))
  end.

Definition evalKeyValue (e : evaluator) (key : string) (value : Node) (pos : Pos)
    : M unit :=
  match coll e with
  | CollDocuments docColl =>
      docs ← documents docColl;
      obj ← match last docs with
            | Some (ObjectValue lastObj) => mret lastObj
            | _ => obj ← newObject;
                   _ ← addDocument docColl (ObjectValue obj);
                   mret obj
            end;
      val ← evalValueStatement e value;
      setField obj key val
  | CollObject obj =>
      val ← evalValueStatement e value;
      setField obj key val
  | _ => throw (errorf pos "key:value pair in non-object context")
  end.

Definition evalSpreadStatement (e : evaluator) (operand : Node) (pos : Pos) : M unit :=
  val ← evalValueStatement e operand;
  match coll e with
  | CollArray coll =>
      match val with
      | ArrayValue arr => h ← getHeap; appendElements coll (Elements h arr)
      | _ => throw (errorf pos ("cannot spread " +:+ ValueType_String (Type_ val)
                                +:+ " into array"))
      end
  | CollObject coll =>
      match val with
      | ObjectValue obj =>
          h ← getHeap;
          forEach (rangeMap (Fields h obj)) (λ kv, setField coll kv.1 kv.2)
      | _ => throw (errorf pos ("cannot spread " +:+ ValueType_String (Type_ val)
                                +:+ " into object"))
      end
  | _ => throw (errorf pos "cannot spread into this context")
  end.

(** The body of one iteration.  In the source the [switch] on the type of
    the item returns [breakSignal] for a [*parser.BreakStatement]; for a
    [*parser.ContinueStatement] its [break] leaves the [switch] only, and
    the item goes to [collectNode] like any other. *)
Fixpoint evalForIteration_loop (sub : evaluator) (body : list Node) : M unit :=
  match body with
  | [] => mret ()
  | item :: body =>
      match item with
      | BreakStatement _ => throw breakSignal
      | ContinueStatement _ => _ ← collectNode sub item; evalForIteration_loop sub body
      | _ => _ ← collectNode sub item; evalForIteration_loop sub body
      end
  end.

Definition evalForIteration (e : evaluator) (keyVar valueVar : string)
    (body : list Node) (key value : Value) : M unit :=
  loopScope ← allocEnv (NewScope (Some (scope e)));
  let sub := mkEvaluator loopScope (coll e) in
  _ ← (if negb (String.eqb keyVar EmptyString)
       then updateEnv (Scope_Set loopScope keyVar key) else mret ());
  _ ← updateEnv (Scope_Set loopScope valueVar value);
  evalForIteration_loop sub body.

(** The loop of [evalForStatement] over the pairs of key and element: it
    stops without error at [breakSignal] and returns any other error. *)
Fixpoint evalForStatement_loop (iteration : Value → Value → M unit)
    (items : list (Value * Value)) (σ : State) : Res error unit * State :=
  match items with
  | [] => (Ok (), σ)
  | (key, elem) :: items =>
      match iteration key elem σ with
      | (Err breakSignal, σ') => (Ok (), σ')
      | (Ok _, σ') => evalForStatement_loop iteration items σ'
      | r => r
      end
  end.

Definition evalForStatement (e : evaluator) (keyVar valueVar : string)
    (iterable : Expression) (body : list Node) : M unit :=
  iterVal ← evalExpression e iterable;
  match iterVal with
  | ArrayValue iter =>
      h ← getHeap;
      evalForStatement_loop (evalForIteration e keyVar valueVar body)
        (imap (λ i elem, (NumberValue (gofloat.of_int (Z.of_nat i)), elem))
           (Elements h iter))
  | ObjectValue iter =>
      h ← getHeap;
      evalForStatement_loop (evalForIteration e keyVar valueVar body)
        ((λ kv, (StringValue kv.1, kv.2)) <$> rangeMap (Fields h iter))
  | _ => throw (errorf (Expression_GetPos iterable)
                  ("cannot iterate over " +:+ ValueType_String (Type_ iterVal)))
  end.

Definition evalAssignmentStatement (e : evaluator) (name : string) (value : Node)
    : M unit :=
  val ← evalValueStatement e value;
  updateEnv (Scope_Set (scope e) name val).

Definition evalLetStatement (e : evaluator) (name : string) (value : Node) : M unit :=
  val ← evalValueStatement e value;
  updateEnv (Scope_Set (scope e) name val).

Definition evalStatement (e : evaluator) (node : Node) : M unit :=
  match node with
  | LetStatement name value _ => evalLetStatement e name value
  | AssignmentStatement name value _ => evalAssignmentStatement e name value
  | WithStatement context varName body _ => evalWithStatement e context varName body
  | ForStatement keyVar valueVar iterable body _ =>
      evalForStatement e keyVar valueVar iterable body
  | KeyValueStatement key value pos => evalKeyValue e key value pos
  | SpreadStatement operand pos => evalSpreadStatement e operand pos
  | IfStatement condition body else_ _ => evalIfStatement e condition body else_
  | NExpr (IncludeExpression name context pos) =>
      evalIncludeStatement e name context pos
  | NExpr n =>
      val ← evalExpression e n;
      match coll e with
      | CollDocuments docColl => addDocument docColl val
      | _ => mret ()
      end
  | NilNode => panic
  | BreakStatement pos | ContinueStatement pos =>
      throw (errorf pos ("unsupported statement: " +:+ typeName node))
  end.

(** The loops of [EvalDocument]. *)
Definition registerDefinition (root : loc) (def : TemplateDefinition) : M unit :=
  filename ← match def_Body def with
             | first :: _ => pos ← ofOption (GetPos first); mret (Filename pos)
             | [] => mret EmptyString
             end;
  let tmpl := NewTemplate (def_Name def) (def_Body def) filename in
  updateEnv (DefineTemplate root (def_Name def) tmpl).

Definition EvalDocument (doc : Document) (root : loc) : M Value :=
  docColl ← newCell (CDocuments []);
  let e := mkEvaluator root (CollDocuments docColl) in
  _ ← forEach (Definitions doc) (registerDefinition root);
  _ ← forEach (doc_Body doc) (evalStatement e);
  docs ← documents docColl;
  arr ← allocHeap (NewArray docs);
  mret arr.

End evaluation.

(** The cycle closed: [fuel] bounds the depth of the walk, through nested
    nodes and through included templates. *)
Fixpoint evalExpression_n `{GoStdlib} (fuel : nat) (e : evaluator) (node : Expression)
    : M Value :=
  match fuel with
  | O => outOfFuel
  | S f => evalExpression (evalExpression_n f) (evalStatement_n f) e node
  end
with evalStatement_n `{GoStdlib} (fuel : nat) (e : evaluator) (node : Node) : M unit :=
  match fuel with
  | O => outOfFuel
  | S f => evalStatement (evalExpression_n f) (evalStatement_n f) e node
  end.

Definition EvalDocument_n `{GoStdlib} (fuel : nat) (doc : Document) (root : loc)
    : M Value :=
  EvalDocument (evalExpression_n fuel) (evalStatement_n fuel) doc root.

End eval.

(** * Package eval/internal/funcs *)

Module funcs.

Import runtime.

(** A function body: it reads and extends the heap and returns a value, an
    error text, or panics. *)
Definition F (A : Type) : Type := Heap → Res string A * Heap.

#[global] Instance F_ret : MRet F := λ A a h, (Ok a, h).
#[global] Instance F_bind : MBind F := λ A B k m h,
  match m h with
  | (Ok a, h') => k a h'
  | (Err e, h') => (Err e, h')
  | (Panic, h') => (Panic, h')
  | (OutOfFuel, h') => (OutOfFuel, h')
  end.

Definition fail {A} (msg : string) : F A := λ h, (Err msg, h).
Definition crash {A} : F A := λ h, (Panic, h).
Definition elements (a : loc) : F (list Value) := λ h, (Ok (Elements h a), h).
Definition fields (o : loc) : F (gmap string Value) := λ h, (Ok (Fields h o), h).
Definition truthy (v : Value) : F bool := λ h, (Ok (IsTruthy h v), h).
(** [&runtime.ArrayValue{Elements: elements}]. *)
Definition newArray (els : list Value) : F Value := λ h,
  let '(v, h') := NewArray els h in (Ok v, h').
(** [runtime.NewObject()]. *)
Definition newObject : F loc := λ h,
  let l := newLoc h in (Ok l, <[l := HObject ∅]> h).
(** [result.Set(key, val)]. *)
Definition set (o : loc) (key : string) (val : Value) : F unit := λ h,
  (Ok (), Set_ o key val h).

Fixpoint forEach {A} (l : list A) (f : A → F unit) : F unit :=
  match l with
  | [] => mret ()
  | x :: l' => _ ← f x; forEach l' f
  end.

Definition got (args : list Value) : string := gostr.itoa (Z.of_nat (length args)).
Definition typeOf (v : Value) : string := ValueType_String (Type_ v).

Section registry.
Context `{GoStdlib}.

Definition toString (v : Value) : F string :=
  match ToString v with inl s => mret s | inr err => fail err end.
Definition toNumber (v : Value) : F float :=
  match ToNumber v with inl n => mret n | inr err => fail err end.
(** [str, _ := runtime.ToString(v)]. *)
Definition toStringOrEmpty (v : Value) : string :=
  match ToString v with inl s => s | inr _ => EmptyString end.

(** [strings.Repeat(s, count)]: it panics on a negative count. *)
Definition Repeat (s : string) (count : Z) : F string :=
  if count <? 0 then crash
  else mret (gostr.str (concat (replicate (Z.to_nat count) (gostr.bytes s)))).

Definition Join (parts : list string) (sep : string) : string :=
  match parts with
  | [] => EmptyString
  | p :: ps => foldl (λ acc x, acc +:+ sep +:+ x) p ps
  end.

Definition HasPrefix (s prefix : string) : bool :=
  gostr.prefixb (gostr.bytes prefix) (gostr.bytes s).
Definition HasSuffix (s suffix : string) : bool :=
  gostr.prefixb (rev (gostr.bytes suffix)) (rev (gostr.bytes s)).
Definition TrimPrefix (s prefix : string) : string :=
  if HasPrefix s prefix then gostr.str (drop (String.length prefix) (gostr.bytes s)) else s.
Definition TrimSuffix (s suffix : string) : string :=
  if HasSuffix s suffix
  then gostr.str (take (String.length s - String.length suffix) (gostr.bytes s)) else s.

(** *** String functions *)

Definition upperFunc (args : list Value) : F Value :=
  match args with
  | [a] => str ← toString a; mret (StringValue (strings_ToUpper str))
  | _ => fail ("upper expects 1 argument, got " +:+ got args)
  end.

Definition lowerFunc (args : list Value) : F Value :=
  match args with
  | [a] => str ← toString a; mret (StringValue (strings_ToLower str))
  | _ => fail ("lower expects 1 argument, got " +:+ got args)
  end.

Definition trimFunc (args : list Value) : F Value :=
  match args with
  | [a] => str ← toString a; mret (StringValue (strings_TrimSpace str))
  | _ => fail ("trim expects 1 argument, got " +:+ got args)
  end.

Definition quoteFunc (args : list Value) : F Value :=
  match args with
  | [a] => str ← toString a; mret (StringValue (fmt_q str))
  | _ => fail ("quote expects 1 argument, got " +:+ got args)
  end.

Definition nindentFunc (args : list Value) : F Value :=
  match args with
  | [a; b] =>
      str ← toString a;
      n ← toNumber b;
      indent ← Repeat " " (gofloat.to_int n);
      let lines := strings_Split str (gostr.str [gostr.lf]) in
      let lines := (λ line, if negb (String.eqb line EmptyString)
                            then indent +:+ line else line) <$> lines in
      mret (StringValue (Join lines (gostr.str [gostr.lf])))
  | _ => fail ("nindent expects 2 arguments, got " +:+ got args)
  end.

Definition containsFunc (args : list Value) : F Value :=
  match args with
  | [a; b] =>
      str1 ← toString a;
      str2 ← toString b;
      mret (BoolValue (gostr.Contains (gostr.bytes str2) (gostr.bytes str1)))
  | _ => fail ("contains expects 2 arguments, got " +:+ got args)
  end.

Definition truncFunc (args : list Value) : F Value :=
  match args with
  | [a; b] =>
      str ← toString a;
      maxLen ← toNumber b;
      let n := gofloat.to_int maxLen in
      let n := if n <? 0 then 0 else n in
      if Z.of_nat (String.length str) <=? n then mret (StringValue str)
      else mret (StringValue (gostr.str (take (Z.to_nat n) (gostr.bytes str))))
  | _ => fail ("trunc expects 2 arguments, got " +:+ got args)
  end.

Definition trimSuffixFunc (args : list Value) : F Value :=
  match args with
  | [a; b] =>
      str ← toString a;
      suffix ← toString b;
      mret (StringValue (TrimSuffix str suffix))
  | _ => fail ("trimSuffix expects 2 arguments, got " +:+ got args)
  end.

Definition replaceFunc (args : list Value) : F Value :=
  match args with
  | [a; b; c] =>
      str ← toString a;
      old ← toString b;
      new ← toString c;
      mret (StringValue (strings_ReplaceAll str old new))
  | _ => fail ("replace expects 3 arguments, got " +:+ got args)
  end.

(** [runtimeToNative]; its recursion does not end on a value that contains
    itself, which is a crash here. *)
Fixpoint runtimeToNative (fuel : nat) (h : Heap) (val : Value) : option native :=
  match fuel with
  | O => None
  | S f =>
      match val with
      | StringValue v => Some (NString v)
      | NumberValue v => Some (NFloat v)
      | BoolValue v => Some (NBool v)
      | NullValue => Some NNil
      | ArrayValue a => NSlice <$> mapM (runtimeToNative f h) (Elements h a)
      | ObjectValue o =>
          NMap <$> mapM (λ kv, v ← runtimeToNative f h kv.2; Some (kv.1, v))
                     (rangeMap (Fields h o))
      end
  end.

Definition toNatives (vals : list Value) : F (list native) := λ h,
  match mapM (runtimeToNative (S (size h)) h) vals with
  | Some fmtArgs => (Ok fmtArgs, h)
  | None => (Panic, h)
  end.

Definition printfFunc (args : list Value) : F Value :=
  match args with
  | [] => fail ("printf expects at least 1 argument, got " +:+ got args)
  | a :: rest =>
      format ← toString a;
      fmtArgs ← toNatives rest;
      mret (StringValue (fmt_Sprintf format fmtArgs))
  end.

(** *** Conversion functions *)

Definition toJsonFunc (args : list Value) : F Value := fail "toJson not yet implemented".

Definition toStringFunc (args : list Value) : F Value :=
  match args with
  | [a] => str ← toString a; mret (StringValue str)
  | _ => fail ("toString expects 1 argument, got " +:+ got args)
  end.

(** *** Utility functions *)

Definition defaultFunc (args : list Value) : F Value :=
  match args with
  | [a; b] =>
      t ← truthy b;
      if bool_decide (Type_ b = NullType) || negb t then mret a else mret b
  | _ => fail ("default expects 2 arguments, got " +:+ got args)
  end.

Definition lenFunc (args : list Value) : F Value :=
  match args with
  | [a] =>
      match a with
      | StringValue v => mret (NumberValue (gofloat.of_int (Z.of_nat (String.length v))))
      | ArrayValue l =>
          els ← elements l; mret (NumberValue (gofloat.of_int (Z.of_nat (length els))))
      | ObjectValue l =>
          fs ← fields l; mret (NumberValue (gofloat.of_int (Z.of_nat (size fs))))
      | _ => fail ("len does not support " +:+ typeOf a)
      end
  | _ => fail ("len expects 1 argument, got " +:+ got args)
  end.

Definition hasFunc (args : list Value) : F Value :=
  match args with
  | [query; arrVal] =>
      match arrVal with
      | ArrayValue arr =>
          els ← elements arr;
          mret (BoolValue (existsb (Equal query) els))
      | _ => fail ("has expects first argument to be an array, got " +:+ typeOf arrVal)
      end
  | _ => fail ("has expects 2 arguments, got " +:+ got args)
  end.

Fixpoint coalesce_loop (args : list Value) (last_ : Value) : F Value :=
  match args with
  | [] => mret last_
  | arg :: rest =>
      t ← truthy arg;
      if negb (bool_decide (Type_ arg = NullType)) && t then mret arg
      else coalesce_loop rest arg
  end.

Definition coalesceFunc (args : list Value) : F Value :=
  match args with
  | [] => fail "coalesce expects at least 1 argument"
  | a :: _ => coalesce_loop args a
  end.

Definition emptyFunc (args : list Value) : F Value :=
  match args with
  | [val] =>
      match val with
      | NullValue => mret (BoolValue true)
      | StringValue v => mret (BoolValue (String.eqb v EmptyString))
      | ArrayValue l => els ← elements l; mret (BoolValue (bool_decide (length els = 0%nat)))
      | ObjectValue l => fs ← fields l; mret (BoolValue (bool_decide (size fs = 0%nat)))
      | _ => mret (BoolValue false)
      end
  | _ => fail ("empty expects 1 argument, got " +:+ got args)
  end.

(** *** Math functions *)

Definition roundFunc (args : list Value) : F Value :=
  match args with
  | [a] => num ← toNumber a; mret (NumberValue (math_Round num))
  | _ => fail ("round expects 1 argument, got " +:+ got args)
  end.

Definition floorFunc (args : list Value) : F Value :=
  match args with
  | [a] => num ← toNumber a; mret (NumberValue (math_Floor num))
  | _ => fail ("floor expects 1 argument, got " +:+ got args)
  end.

Definition ceilFunc (args : list Value) : F Value :=
  match args with
  | [a] => num ← toNumber a; mret (NumberValue (math_Ceil num))
  | _ => fail ("ceil expects 1 argument, got " +:+ got args)
  end.

(** *** List functions *)

Definition firstFunc (args : list Value) : F Value :=
  match args with
  | [a] =>
      match a with
      | ArrayValue arr =>
          els ← elements arr;
          match els with
          | [] => fail "first: array is empty"
          | x :: _ => mret x
          end
      | _ => fail ("first expects an array, got " +:+ typeOf a)
      end
  | _ => fail ("first expects 1 argument, got " +:+ got args)
  end.

Definition lastFunc (args : list Value) : F Value :=
  match args with
  | [a] =>
      match a with
      | ArrayValue arr =>
          els ← elements arr;
          match last els with
          | None => fail "last: array is empty"
          | Some x => mret x
          end
      | _ => fail ("last expects an array, got " +:+ typeOf a)
      end
  | _ => fail ("last expects 1 argument, got " +:+ got args)
  end.

(** The slice [arr.Elements[:len-1]] shares its memory with the argument;
    nothing writes to either afterwards, and the new [ArrayValue] is given
    the elements. *)
Definition initialFunc (args : list Value) : F Value :=
  match args with
  | [a] =>
      match a with
      | ArrayValue arr =>
          els ← elements arr;
          newArray (take (length els - 1) els)
      | _ => fail ("initial expects an array, got " +:+ typeOf a)
      end
  | _ => fail ("initial expects 1 argument, got " +:+ got args)
  end.

Definition restFunc (args : list Value) : F Value :=
  match args with
  | [a] =>
      match a with
      | ArrayValue arr =>
          els ← elements arr;
          newArray (drop 1 els)
      | _ => fail ("rest expects an array, got " +:+ typeOf a)
      end
  | _ => fail ("rest expects 1 argument, got " +:+ got args)
  end.

Definition appendFunc (args : list Value) : F Value :=
  match args with
  | a :: ((_ :: _) as rest) =>
      match a with
      | ArrayValue arr =>
          els ← elements arr;
          let result := els in
          let result := result ++ rest in
          newArray result
      | _ => fail ("append expects first argument to be an array, got " +:+ typeOf a)
      end
  | _ => fail ("append expects at least 2 arguments, got " +:+ got args)
  end.

Definition prependFunc (args : list Value) : F Value :=
  match args with
  | a :: ((_ :: _) as rest) =>
      match a with
      | ArrayValue arr =>
          els ← elements arr;
          newArray (rest ++ els)
      | _ => fail ("prepend expects first argument to be an array, got " +:+ typeOf a)
      end
  | _ => fail ("prepend expects at least 2 arguments, got " +:+ got args)
  end.

Fixpoint concat_loop (args : list Value) (result : list Value) : F (list Value) :=
  match args with
  | [] => mret result
  | arg :: rest =>
      match arg with
      | ArrayValue arr => els ← elements arr; concat_loop rest (result ++ els)
      | _ => fail ("concat expects all arguments to be arrays, got " +:+ typeOf arg)
      end
  end.

Definition concatFunc (args : list Value) : F Value :=
  match args with
  | [] => newArray []
  | _ => result ← concat_loop args []; newArray result
  end.

Definition reverseFunc (args : list Value) : F Value :=
  match args with
  | [a] =>
      match a with
      | ArrayValue arr => els ← elements arr; newArray (rev els)
      | _ => fail ("reverse expects an array, got " +:+ typeOf a)
      end
  | _ => fail ("reverse expects 1 argument, got " +:+ got args)
  end.

Fixpoint uniq_loop (els : list Value) (seen : list string) : list Value :=
  match els with
  | [] => []
  | v :: rest =>
      let str := toStringOrEmpty v in
      if bool_decide (str ∈ seen) then uniq_loop rest seen
      else v :: uniq_loop rest (str :: seen)
  end.

Definition uniqFunc (args : list Value) : F Value :=
  match args with
  | [a] =>
      match a with
      | ArrayValue arr => els ← elements arr; newArray (uniq_loop els [])
      | _ => fail ("uniq expects an array, got " +:+ typeOf a)
      end
  | _ => fail ("uniq expects 1 argument, got " +:+ got args)
  end.

(** *** String functions (additional) *)

Definition splitFunc (args : list Value) : F Value :=
  match args with
  | [a; b] =>
      sep ← toString a;
      str ← toString b;
      newArray (StringValue <$> strings_Split str sep)
  | _ => fail ("split expects 2 arguments, got " +:+ got args)
  end.

Definition joinFunc (args : list Value) : F Value :=
  match args with
  | [a; b] =>
      sep ← toString a;
      match b with
      | ArrayValue arr =>
          els ← elements arr;
          mret (StringValue (Join (toStringOrEmpty <$> els) sep))
      | _ => fail ("join expects second argument to be an array, got " +:+ typeOf b)
      end
  | _ => fail ("join expects 2 arguments, got " +:+ got args)
  end.

Definition trimPrefixFunc (args : list Value) : F Value :=
  match args with
  | [a; b] =>
      str ← toString a;
      prefix ← toString b;
      mret (StringValue (TrimPrefix str prefix))
  | _ => fail ("trimPrefix expects 2 arguments, got " +:+ got args)
  end.

Definition hasPrefixFunc (args : list Value) : F Value :=
  match args with
  | [a; b] =>
      str ← toString a;
      prefix ← toString b;
      mret (BoolValue (HasPrefix str prefix))
  | _ => fail ("hasPrefix expects 2 arguments, got " +:+ got args)
  end.

Definition hasSuffixFunc (args : list Value) : F Value :=
  match args with
  | [a; b] =>
      str ← toString a;
      suffix ← toString b;
      mret (BoolValue (HasSuffix str suffix))
  | _ => fail ("hasSuffix expects 2 arguments, got " +:+ got args)
  end.

Definition repeatFunc (args : list Value) : F Value :=
  match args with
  | [a; b] =>
      count ← toNumber a;
      str ← toString b;
      r ← Repeat str (gofloat.to_int count);
      mret (StringValue r)
  | _ => fail ("repeat expects 2 arguments, got " +:+ got args)
  end.

(** *** Object functions *)

Definition keysFunc (args : list Value) : F Value :=
  match args with
  | [a] =>
      match a with
      | ObjectValue obj =>
          fs ← fields obj;
          newArray ((λ kv, StringValue kv.1) <$> rangeMap fs)
      | _ => fail ("keys expects an object, got " +:+ typeOf a)
      end
  | _ => fail ("keys expects 1 argument, got " +:+ got args)
  end.

Definition valuesFunc (args : list Value) : F Value :=
  match args with
  | [a] =>
      match a with
      | ObjectValue obj =>
          fs ← fields obj;
          newArray ((λ kv, kv.2) <$> rangeMap fs)
      | _ => fail ("values expects an object, got " +:+ typeOf a)
      end
  | _ => fail ("values expects 1 argument, got " +:+ got args)
  end.

Definition pickFunc (args : list Value) : F Value :=
  match args with
  | a :: ((_ :: _) as rest) =>
      match a with
      | ObjectValue obj =>
          result ← newObject;
          _ ← forEach rest
                (λ arg, key ← toString arg;
                        fs ← fields obj;
                        match fs !! key with
                        | Some val => set result key val
                        | None => mret ()
                        end);
          mret (ObjectValue result)
      | _ => fail ("pick expects first argument to be an object, got " +:+ typeOf a)
      end
  | _ => fail ("pick expects at least 2 arguments, got " +:+ got args)
  end.

Fixpoint omitKeys_loop (args : list Value) (omitKeys : list string) : F (list string) :=
  match args with
  | [] => mret omitKeys
  | arg :: rest => key ← toString arg; omitKeys_loop rest (key :: omitKeys)
  end.

Definition omitFunc (args : list Value) : F Value :=
  match args with
  | a :: ((_ :: _) as rest) =>
      match a with
      | ObjectValue obj =>
          omitKeys ← omitKeys_loop rest [];
          result ← newObject;
          fs ← fields obj;
          _ ← forEach (rangeMap fs)
                (λ kv, if negb (bool_decide (kv.1 ∈ omitKeys))
                       then set result kv.1 kv.2 else mret ());
          mret (ObjectValue result)
      | _ => fail ("omit expects first argument to be an object, got " +:+ typeOf a)
      end
  | _ => fail ("omit expects at least 2 arguments, got " +:+ got args)
  end.

Definition mergeFunc (args : list Value) : F Value :=
  result ← newObject;
  _ ← forEach args
        (λ arg, match arg with
                | ObjectValue obj =>
                    fs ← fields obj;
                    forEach (rangeMap fs) (λ kv, set result kv.1 kv.2)
                | _ => fail ("merge expects all arguments to be objects, got "
                             +:+ typeOf arg)
                end);
  mret (ObjectValue result).

Definition getFunc (args : list Value) : F Value :=
  match args with
  | [a; b] =>
      match a with
      | ObjectValue obj =>
          key ← toString b;
          fs ← fields obj;
          match fs !! key with
          | Some val => mret val
          | None => mret NullValue
          end
      | _ => fail ("get expects first argument to be an object, got " +:+ typeOf a)
      end
  | _ => fail ("get expects 2 arguments, got " +:+ got args)
  end.

Definition setFunc (args : list Value) : F Value :=
  match args with
  | [a; b; c] =>
      match a with
      | ObjectValue obj =>
          key ← toString b;
          result ← newObject;
          fs ← fields obj;
          _ ← forEach (rangeMap fs) (λ kv, set result kv.1 kv.2);
          _ ← set result key c;
          mret (ObjectValue result)
      | _ => fail ("set expects first argument to be an object, got " +:+ typeOf a)
      end
  | _ => fail ("set expects 3 arguments, got " +:+ got args)
  end.

(** *** Encoding functions *)

Definition b64encFunc (args : list Value) : F Value :=
  match args with
  | [a] => str ← toString a; mret (StringValue (base64_EncodeToString str))
  | _ => fail ("b64enc expects 1 argument, got " +:+ got args)
  end.

Definition b64decFunc (args : list Value) : F Value :=
  match args with
  | [a] =>
      str ← toString a;
      match base64_DecodeString str with
      | inl decoded => mret (StringValue decoded)
      | inr err => fail ("b64dec: " +:+ err)
      end
  | _ => fail ("b64dec expects 1 argument, got " +:+ got args)
  end.

(** [Registry], as the list of its entries. *)
Definition Registry : list (string * Func) := [
  ("upper", upperFunc); ("lower", lowerFunc); ("trim", trimFunc);
  ("quote", quoteFunc); ("nindent", nindentFunc); ("contains", containsFunc);
  ("trunc", truncFunc); ("trimSuffix", trimSuffixFunc); ("replace", replaceFunc);
  ("printf", printfFunc);
  ("toJson", toJsonFunc); ("toString", toStringFunc);
  ("default", defaultFunc); ("len", lenFunc); ("has", hasFunc);
  ("coalesce", coalesceFunc); ("empty", emptyFunc);
  ("round", roundFunc); ("floor", floorFunc); ("ceil", ceilFunc);
  ("first", firstFunc); ("last", lastFunc); ("initial", initialFunc);
  ("rest", restFunc); ("append", appendFunc); ("prepend", prependFunc);
  ("concat", concatFunc); ("reverse", reverseFunc); ("uniq", uniqFunc);
  ("split", splitFunc); ("join", joinFunc); ("trimPrefix", trimPrefixFunc);
  ("hasPrefix", hasPrefixFunc); ("hasSuffix", hasSuffixFunc); ("repeat", repeatFunc);
  ("keys", keysFunc); ("values", valuesFunc); ("pick", pickFunc);
  ("omit", omitFunc); ("merge", mergeFunc); ("get", getFunc); ("set", setFunc);
  ("b64enc", b64encFunc); ("b64dec", b64decFunc)
].

End registry.

End funcs.

(** * An implementation of [GoStdlib] to run examples with

    It follows the Go functions on the inputs the examples use: decimal
    numerals of at most fifteen digits, numbers with an integral value
    below 2^53, ASCII text, slash-separated paths.  The theorems below are
    stated for every implementation; only closed examples use this one. *)

Module golib.

Definition digitVal (c : ascii) : Z := Z.of_N (gostr.code c) - 48.

Definition digitsVal (l : list ascii) : Z :=
  foldl (λ acc c, 10 * acc + digitVal c) 0 l.

Definition syntaxError (s : string) (q : string → string) : string :=
  "strconv.ParseFloat: parsing " +:+ q s +:+ ": invalid syntax".

(** Go's [%q] on ASCII text without control bytes. *)
Definition quote (s : string) : string :=
  let esc (c : ascii) : list ascii :=
    if Ascii.eqb c gostr.dquote then [gostr.backslash; gostr.dquote]
    else if Ascii.eqb c gostr.backslash then [gostr.backslash; gostr.backslash]
    else if Ascii.eqb c gostr.lf then [gostr.backslash; "n"%char]
    else if Ascii.eqb c gostr.tab then [gostr.backslash; "t"%char]
    else if Ascii.eqb c gostr.cr then [gostr.backslash; "r"%char]
    else [c] in
  gostr.str ([gostr.dquote] ++ concat (esc <$> gostr.bytes s) ++ [gostr.dquote]).

Definition ParseFloat (s : string) : float + string :=
  let l := gostr.bytes s in
  let '(neg, body) :=
    match l with
    | c :: r => if Ascii.eqb c "-" then (true, r)
                else if Ascii.eqb c "+" then (false, r) else (false, l)
    | [] => (false, l)
    end in
  let ip := gostr.takeWhile gostr.IsDigit body in
  let rest := gostr.dropWhile gostr.IsDigit body in
  let '(fp, rest) :=
    match rest with
    | c :: r => if Ascii.eqb c "." then (gostr.takeWhile gostr.IsDigit r, gostr.dropWhile gostr.IsDigit r)
                else ([], rest)
    | [] => ([], rest)
    end in
  if bool_decide (rest = []) && negb (bool_decide (ip ++ fp = []))
     && bool_decide (length (ip ++ fp) ≤ 15)%nat then
    let m := gofloat.of_int (digitsVal (ip ++ fp)) in
    let d := gofloat.of_int (10 ^ Z.of_nat (length fp)) in
    let v := PrimFloat.div m d in
    inl (if neg then PrimFloat.opp v else v)
  else inr (syntaxError s quote).

(** The integral value of a float, when it has one below 2^53. *)
Definition integral (f : float) : option Z :=
  match Prim2SF f with
  | S754_zero _ => Some 0
  | S754_finite s m e =>
      let v := if 0 <=? e then Z.pos m * 2 ^ e
               else Z.pos m / 2 ^ (- e) in
      if ((0 <=? e) || (Z.pos m mod 2 ^ (- e) =? 0)) && (v <? 2 ^ 53)
      then Some (if s then - v else v) else None
  | _ => None
  end.

Definition FormatFloat (f : float) : string :=
  match Prim2SF f with
  | S754_nan => "NaN"
  | S754_infinity s => if s then "-Inf" else "+Inf"
  | S754_zero s => if s then "-0" else "0"
  | S754_finite _ _ _ =>
      match integral f with
      | Some z => gostr.itoa z
      | None => "?"
      end
  end.

(** [filepath.Base] with [/] as the separator. *)
Definition Base (path : string) : string :=
  if String.eqb path EmptyString then "."
  else
    let l := rev (gostr.dropWhile (Ascii.eqb "/") (rev (gostr.bytes path))) in
    match l with
    | [] => "/"
    | _ => gostr.str (rev (gostr.takeWhile (λ c, negb (Ascii.eqb c "/")) (rev l)))
    end.

Definition mapBytes (f : ascii → ascii) (s : string) : string :=
  gostr.str (f <$> gostr.bytes s).

Definition upperByte (c : ascii) : ascii :=
  let n := gostr.code c in
  if ((97 <=? n) && (n <=? 122))%N then ascii_of_N (n - 32) else c.
Definition lowerByte (c : ascii) : ascii :=
  let n := gostr.code c in
  if ((65 <=? n) && (n <=? 90))%N then ascii_of_N (n + 32) else c.

Definition isSpace (c : ascii) : bool :=
  let n := gostr.code c in ((n =? 32) || ((9 <=? n) && (n <=? 13)))%N.

Definition TrimSpace (s : string) : string :=
  gostr.str (rev (gostr.dropWhile isSpace (rev (gostr.dropWhile isSpace (gostr.bytes s))))).

Fixpoint Split_go (fuel : nat) (l sep cur : list ascii) : list string :=
  match fuel with
  | O => [gostr.str (rev cur ++ l)]
  | S f =>
      match l with
      | [] => [gostr.str (rev cur)]
      | c :: l' =>
          if gostr.prefixb sep l
          then gostr.str (rev cur) :: Split_go f (drop (length sep) l) sep []
          else Split_go f l' sep (c :: cur)
      end
  end.
Definition Split (s sep : string) : list string :=
  match gostr.bytes sep with
  | [] => (λ c, String c EmptyString) <$> gostr.bytes s
  | sepb => Split_go (S (String.length s)) (gostr.bytes s) sepb []
  end.

Definition ReplaceAll (s old new : string) : string :=
  match gostr.bytes old with
  | [] => gostr.str (concat ((λ c, gostr.bytes new ++ [c]) <$> gostr.bytes s)
                     ++ gostr.bytes new)
  | oldb => gostr.str (gostr.ReplaceAll (gostr.bytes s) oldb (gostr.bytes new))
  end.

(** [Sprintf] for the verbs [%s] and [%v] on strings and booleans, and
    [%%]. *)
Definition showNative (a : native) : string :=
  match a with
  | NString s => s
  | NBool b => if b then "true" else "false"
  | NFloat f => FormatFloat f
  | NNil => "<nil>"
  | _ => "?"
  end.
Fixpoint Sprintf_go (fmt : list ascii) (args : list native) : list ascii :=
  match fmt with
  | [] => []
  | c :: rest =>
      if Ascii.eqb c "%" then
        match rest with
        | v :: rest' =>
            if Ascii.eqb v "%" then "%"%char :: Sprintf_go rest' args
            else match args with
                 | a :: args' => gostr.bytes (showNative a) ++ Sprintf_go rest' args'
                 | [] => gostr.bytes "%!" ++ [v] ++ gostr.bytes "(MISSING)"
                         ++ Sprintf_go rest' []
                 end
        | [] => gostr.bytes "%!(NOVERB)"
        end
      else c :: Sprintf_go rest args
  end.
Definition Sprintf (format : string) (args : list native) : string :=
  gostr.str (Sprintf_go (gostr.bytes format) args).

(** Rounding of the numbers below 2^52 in magnitude; the others have no
    fraction. *)
Definition small (f : float) : bool :=
  PrimFloat.ltb (PrimFloat.abs f) 4503599627370496%float.
Definition signedZero (f : float) : float :=
  if PrimFloat.ltb f 0%float then PrimFloat.opp 0%float else 0%float.
Definition ofTrunc (f : float) (z : Z) : float :=
  if z =? 0 then signedZero f else gofloat.of_int z.
Definition Floor (f : float) : float :=
  if small f then
    let z := gofloat.to_int f in
    if PrimFloat.eqb (gofloat.of_int z) f then f
    else if PrimFloat.ltb f 0%float then gofloat.of_int (z - 1) else ofTrunc f z
  else f.
Definition Ceil (f : float) : float :=
  if small f then
    let z := gofloat.to_int f in
    if PrimFloat.eqb (gofloat.of_int z) f then f
    else if PrimFloat.ltb f 0%float then ofTrunc f z else gofloat.of_int (z + 1)
  else f.
Definition Round (f : float) : float :=
  if small f then
    let z := gofloat.to_int f in
    if PrimFloat.eqb (gofloat.of_int z) f then f
    else
      let frac := PrimFloat.abs (PrimFloat.sub f (gofloat.of_int z)) in
      if PrimFloat.leb 0.5%float frac
      then gofloat.of_int (if PrimFloat.ltb f 0%float then z - 1 else z + 1)
      else ofTrunc f z
  else f.

Definition b64alphabet : list ascii :=
  gostr.bytes "ABCDEFGHIJKLMNOPQRSTUVWXYZabcdefghijklmnopqrstuvwxyz0123456789+/".
Definition b64char (n : N) : ascii := nth (N.to_nat n) b64alphabet "="%char.
Fixpoint b64enc_go (l : list ascii) : list ascii :=
  match l with
  | a :: b :: c :: rest =>
      let n := (gostr.code a * 65536 + gostr.code b * 256 + gostr.code c)%N in
      b64char (n / 262144) :: b64char (n / 4096 mod 64) :: b64char (n / 64 mod 64)
      :: b64char (n mod 64) :: b64enc_go rest
  | [a; b] =>
      let n := (gostr.code a * 65536 + gostr.code b * 256)%N in
      [b64char (n / 262144); b64char (n / 4096 mod 64); b64char (n / 64 mod 64); "="%char]
  | [a] =>
      let n := (gostr.code a * 65536)%N in
      [b64char (n / 262144); b64char (n / 4096 mod 64); "="%char; "="%char]
  | [] => []
  end.
Definition Encode (s : string) : string := gostr.str (b64enc_go (gostr.bytes s)).

Definition b64val (c : ascii) : option N :=
  N.of_nat <$> (list_find (λ a, a = c) b64alphabet ≫= λ p, Some p.1).
Fixpoint b64dec_go (fuel : nat) (at_ : nat) (l : list ascii) : option (list ascii) :=
  match fuel with
  | O => None
  | S f =>
      match l with
      | [] => Some []
      | [a; b; c; d] =>
          x ← b64val a; y ← b64val b;
          if Ascii.eqb c "=" then
            if Ascii.eqb d "=" then Some [ascii_of_N ((x * 4 + y / 16) mod 256)] else None
          else
            z ← b64val c;
            if Ascii.eqb d "=" then
              Some [ascii_of_N ((x * 4 + y / 16) mod 256);
                    ascii_of_N ((y * 16 + z / 4) mod 256)]
            else
              w ← b64val d;
              Some [ascii_of_N ((x * 4 + y / 16) mod 256);
                    ascii_of_N ((y * 16 + z / 4) mod 256);
                    ascii_of_N ((z * 64 + w) mod 256)]
      | a :: b :: c :: d :: rest =>
          x ← b64val a; y ← b64val b; z ← b64val c; w ← b64val d;
          r ← b64dec_go f (at_ + 4) rest;
          Some (ascii_of_N ((x * 4 + y / 16) mod 256)
                :: ascii_of_N ((y * 16 + z / 4) mod 256)
                :: ascii_of_N ((z * 64 + w) mod 256) :: r)
      | _ => None
      end
  end.
(** The position in the text of the error is not tracked here. *)
Definition Decode (s : string) : string + string :=
  match b64dec_go (S (String.length s)) 0 (gostr.bytes s) with
  | Some l => inl (gostr.str l)
  | None => inr "illegal base64 data"
  end.

#[global] Instance lib : GoStdlib := {|
  strconv_ParseFloat := ParseFloat;
  strconv_FormatFloat := FormatFloat;
  fmt_q := quote;
  filepath_Base := Base;
  strings_ToUpper := mapBytes upperByte;
  strings_ToLower := mapBytes lowerByte;
  strings_TrimSpace := TrimSpace;
  strings_Split := Split;
  strings_ReplaceAll := ReplaceAll;
  fmt_Sprintf := Sprintf;
  math_Round := Round;
  math_Floor := Floor;
  math_Ceil := Ceil;
  base64_EncodeToString := Encode;
  base64_DecodeString := Decode;
  rangeMap := λ A m, map_to_list m;
  rangeMap_perm := λ A m, reflexivity _;
|}.

End golib.

(** * Running a source text

    The helpers of eval_test.go: a source is parsed and evaluated in a new
    scope, here one that holds the functions of the registry, and a field of
    a resulting document is read. *)

Module example.

Import parser runtime eval.

Inductive Outcome :=
  | ParseFailed (e : parser.error)
  | Evaluated (r : Res eval.error Value) (σ : State)
  | Crashed.

Definition fuel : nat := 64.

Definition registerAll (s : loc) (env : Env) : option Env :=
  foldl (λ o nf, env ← o; SetFunction s nf.1 nf.2 env) (Some env) funcs.Registry.

(** A scope without parent in an empty store, with the registry. *)
Definition newRoot : option (loc * State) :=
  '(root, env) ← NewScope None ∅;
  env ← registerAll root env;
  Some (root, mkState ∅ env).

Definition evalWithScope (root : loc) (σ : State) (input : string) : Outcome :=
  match ParseSource fuel input "test.helmtk" with
  | Ok doc => let '(r, σ') := EvalDocument_n fuel doc root σ in Evaluated r σ'
  | Err e => ParseFailed e
  | _ => Crashed
  end.

Definition eval (input : string) : Outcome :=
  match newRoot with
  | Some (root, σ) => evalWithScope root σ input
  | None => Crashed
  end.

(** [getDocument] and [getPath] for a path of one field. *)
Definition getField (o : Outcome) (index : nat) (field : string) : option Value :=
  match o with
  | Evaluated (Ok (ArrayValue arr)) σ =>
      match Elements (heap σ) arr !! index with
      | Some (ObjectValue obj) => Get (heap σ) obj field
      | _ => None
      end
  | _ => None
  end.

Definition evalError (o : Outcome) : option eval.error :=
  match o with Evaluated (Err e) _ => Some e | _ => None end.

Definition parseError (o : Outcome) : option parser.error :=
  match o with ParseFailed e => Some e | _ => None end.

Definition quoted (s : string) : string :=
  gostr.str [gostr.dquote] +:+ s +:+ gostr.str [gostr.dquote].
Definition newline : string := gostr.str [gostr.lf].

End example.

(** * Notions used in the statements below *)

(** ** Of the lexer and the parser *)

Module lexing.

Import parser.

(** The lexer after [n] bytes that are not line feeds. *)
Definition skip (n : nat) (l : Lexer) : Lexer :=
  mkLexer (input l) (pos l + n) (line l) (col l + Z.of_nat n).

(** The text of the number that starts at the lexer's position: a minus
    sign if there is one, then every digit and dot that follows. *)
Definition numberLexeme (l : Lexer) : list ascii :=
  match drop (pos l) (input l) with
  | c :: rest =>
      if Ascii.eqb c "-" then c :: gostr.takeWhile isNumberByte rest
      else gostr.takeWhile isNumberByte (c :: rest)
  | [] => []
  end.

(** The bytes with which a token of the language starts, [nxt] being the
    byte after [ch]: a line feed, a comment, a string, a number or a minus
    sign, an identifier, punctuation or an operator.  (Blanks are skipped
    before a token is read.) *)
Definition startsToken (ch nxt : ascii) : bool :=
  Ascii.eqb ch gostr.lf || Ascii.eqb ch "#" || Ascii.eqb ch gostr.dquote
  || gostr.IsDigit ch || Ascii.eqb ch "-" || gostr.IsLetter ch || Ascii.eqb ch "_"
  || Ascii.eqb ch ":" || Ascii.eqb ch "," || Ascii.eqb ch "{" || Ascii.eqb ch "}"
  || Ascii.eqb ch "[" || Ascii.eqb ch "]" || Ascii.eqb ch "(" || Ascii.eqb ch ")"
  || Ascii.eqb ch "." || (Ascii.eqb ch "&" && Ascii.eqb nxt "&") || Ascii.eqb ch "|"
  || Ascii.eqb ch "=" || Ascii.eqb ch "!" || Ascii.eqb ch "<" || Ascii.eqb ch ">"
  || Ascii.eqb ch "+" || Ascii.eqb ch "*" || Ascii.eqb ch "/".

Definition mentions (msg sub : string) : bool :=
  gostr.Contains (gostr.bytes msg) (gostr.bytes sub).

End lexing.

(** ** Of string interpolation *)

Module interpolation.

Import parser.
Local Open Scope nat_scope.

(** Is there, at offset [i] of [str], a [${] that the marker byte does not
    precede? *)
Definition unescapedAt (str : list ascii) (i : nat) : bool :=
  bool_decide (i + 1 < length str)%nat
  && Ascii.eqb (gostr.at_ str i) "$" && Ascii.eqb (gostr.at_ str (i + 1)) "{"
  && negb (bool_decide (0 < i)%nat && Ascii.eqb (gostr.at_ str (i - 1)) gostr.nul).

(** [i] is the offset of the first such [${] at or after [from]. *)
Definition firstUnescaped (str : list ascii) (from i : nat) : bool :=
  bool_decide (from ≤ i)%nat && unescapedAt str i
  && forallb (λ j, negb (unescapedAt str j)) (seq from (i - from)).

(** Is there a [${], escaped or not, at offset [i]? *)
Definition dollarBraceAt (str : list ascii) (i : nat) : bool :=
  gostr.prefixb dollarBrace (drop i str).

(** The first offset at or after [from] of an unescaped [${], found by
    looking at every offset in turn. *)
Definition nextUnescaped (str : list ascii) (from : nat) : option nat :=
  find (unescapedAt str) (seq from (length str - from)).

(** The texts that are re-parsed: from behind each unescaped [${] up to the
    first [}] that follows, the search going on behind that [}]; [None]
    when a [${] is followed by no [}]. *)
Fixpoint interpolationTexts (fuel : nat) (str : list ascii) (from : nat)
    : option (list (list ascii)) :=
  match fuel with
  | O => Some []
  | S f =>
      match nextUnescaped str from with
      | None => Some []
      | Some i =>
          match gostr.Index (drop (i + 2) str) ["}"%char] with
          | None => None
          | Some end_ =>
              (take end_ (drop (i + 2) str) ::.)
                <$> interpolationTexts f str (i + 2 + (end_ + 1))
          end
      end
  end.

Section reparsing.
Context `{GoStdlib}.
Variable parseValueWithPrecedence_rec : Z → Parser → PR (Expression * Parser).

(** What one turn of the loop does with the text [exprStr] between a [${]
    and the first [}] after it: a fresh parser re-parses it, and the loop
    goes on behind the [}] with the expression as the next part. *)
Definition reparse (fuel : nat) (p : Parser) (stringPos : Pos) (str : list ascii)
    (next : nat) (parts : list Expression) (exprStr : list ascii)
    : PR (list Expression) :=
  exprParser ← newExprParser p exprStr;
  match parseValueWithPrecedence_rec PREC_LOWEST exprParser with
  | Ok (expr, _) =>
      parseInterpolation_loop parseValueWithPrecedence_rec fuel p stringPos str next
        (parts ++ [expr])
  | Err err =>
      Err (Errorf ("failed to parse interpolation expression "
                   +:+ fmt_q (gostr.str exprStr) +:+ ": " +:+ error_Error err)
             (Some err))
  | Panic => Panic
  | OutOfFuel => OutOfFuel
  end.

(** [parts] holds, in order, the expressions that the fresh parsers make of
    [texts], each after at most one literal part, and at most one literal
    part after the last of them. *)
Fixpoint reparsed (p : Parser) (stringPos : Pos) (texts : list (list ascii))
    (parts : list Expression) : Prop :=
  match texts with
  | [] => parts = [] ∨ ∃ s, parts = [StringLiteral s stringPos]
  | text :: texts =>
      ∃ literal expr exprParser p' rest,
        (literal = [] ∨ ∃ s, literal = [StringLiteral s stringPos])
        ∧ newExprParser p text = Ok exprParser
        ∧ parseValueWithPrecedence_rec PREC_LOWEST exprParser = Ok (expr, p')
        ∧ parts = literal ++ expr :: rest
        ∧ reparsed p stringPos texts rest
  end.

(** The fresh parser makes an expression of [text]. *)
Definition reparses (p : Parser) (text : list ascii) : Prop :=
  ∃ exprParser expr p',
    newExprParser p text = Ok exprParser
    ∧ parseValueWithPrecedence_rec PREC_LOWEST exprParser = Ok (expr, p').

End reparsing.

(** The offset, in [l], of the [}] that closes a brace opened before [l],
    [depth] braces having been opened since: every [{] on the way opens one
    more, every [}] closes one. *)
Fixpoint matchingBrace (depth : nat) (l : list ascii) : option nat :=
  match l with
  | [] => None
  | c :: rest =>
      if Ascii.eqb c "{" then S <$> matchingBrace (S depth) rest
      else if Ascii.eqb c "}" then
        match depth with
        | O => Some O
        | S d => S <$> matchingBrace d rest
        end
      else S <$> matchingBrace depth rest
  end.

(** The text between the [${] at offset [i] of [str] and its matching [}]. *)
Definition matchingText (str : list ascii) (i : nat) : option (list ascii) :=
  end_ ← matchingBrace 0 (drop (i + 2) str);
  Some (take end_ (drop (i + 2) str)).

End interpolation.

(** ** Of scopes *)

Module scoping.

Import parser runtime eval.

(** What an evaluation whose scopes are those of [own] leaves of the store
    [E]: a scope outside [own] is as it was; a scope of [own] keeps its
    parent and its three registries; the registries themselves are as they
    were; a collector is still allocated. *)
Definition envKept (own : gset loc) (E E' : Env) : Prop :=
  ∀ l c, E !! l = Some c →
    match c with
    | CScope sc =>
        if decide (l ∈ own)
        then ∃ vs, E' !! l
                   = Some (CScope (mkScope (parent sc) vs (globals sc) (funcs sc)
                                     (templates sc)))
        else E' !! l = Some c
    | CGlobals _ | CFuncs _ | CTemplates _ => E' !! l = Some c
    | CDocuments _ | CSingle _ => is_Some (E' !! l)
    end.

Definition frames {A} (own : gset loc) (m : M A) : Prop :=
  ∀ σ r σ', m σ = (r, σ') → envKept own (env σ) (env σ').

(** Does the parent of every scope of [E] refer to a scope of [E]? *)
Definition parentAllocated (E : Env) (c : Cell) : bool :=
  match c with
  | CScope sc =>
      match parent sc with
      | Some p => bool_decide (is_Some (getScope p E))
      | None => true
      end
  | _ => true
  end.

Definition parentsAllocated (E : Env) : bool :=
  forallb (λ lc, parentAllocated E lc.2) (map_to_list E).

End scoping.

(** ** Of the function library *)

Module library.

Import runtime funcs.

(** Every heap cell of [h] outside [own] is the same in [h']. *)
Definition heapKept (own : gset loc) (h h' : Heap) : Prop :=
  ∀ l c, h !! l = Some c → l ∉ own → h' !! l = Some c.

(** A function body writes only to the cells of [own] and to new cells. *)
Definition preserves {A} (own : gset loc) (m : F A) : Prop :=
  ∀ h r h', m h = (r, h') → heapKept own h h'.

(** The map that [for k, v := range fs { result.Set(k, v) }] leaves in
    [result], whose fields were [m0]. *)
Definition copied {A} (kvs : list (string * A)) (m0 : gmap string A) : gmap string A :=
  foldl (λ m kv, <[kv.1 := kv.2]> m) m0 kvs.

End library.

(** ** Inputs of the examples *)

Module cases.

Import parser runtime eval example.

(** The message of the error a parse ends with. *)
Definition errorMessage {A} (r : PR A) : option string :=
  match r with
  | Err (ParseErr e) => Some (Message e)
  | Err (Errorf msg _) => Some msg
  | _ => None
  end.

Definition parseMessage (o : Outcome) : option string :=
  match o with
  | ParseFailed e => errorMessage (Err (A := unit) e)
  | _ => None
  end.

Definition result (o : Outcome) : option (Res eval.error Value) :=
  match o with Evaluated r _ => Some r | _ => None end.

(** [parser.New(source, "test.helmtk")]. *)
Definition parserOf (source : string) : Parser :=
  match New source "test.helmtk" with
  | Ok p => p
  | _ => mkParser (NewLexer source) Token_zero Token_zero source "test.helmtk"
  end.

Definition at_ (line col : Z) : Pos := mkPos "test.helmtk" line col.

(** A loop whose body is [continue]. *)
Definition continueLoop : string :=
  "results: [for i, item in [1, 2, 3] do" +:+ newline +:+ "  continue" +:+ newline
  +:+ "end]".

(** A loop whose body leaves at its first [break]. *)
Definition breakLoop : string :=
  "for i, item in [1, 2, 3] do" +:+ newline +:+ "  a: item" +:+ newline
  +:+ "  break" +:+ newline +:+ "end".

(** An object indexed by a number and by a boolean. *)
Definition numberIndex : string :=
  "let o = {" +:+ quoted "1" +:+ ": 7}" +:+ newline +:+ "r: o[1]".
Definition boolIndex : string :=
  "let o = {" +:+ quoted "true" +:+ ": 7}" +:+ newline +:+ "r: o[true]".

(** A string whose interpolation holds an object literal. *)
Definition nestedBraces : string := "a${{k: 1}.k}".
Definition nestedBracesSource : string := "x: " +:+ quoted nestedBraces.


(** [TestWithStatementRequiresAs]. *)
Definition withoutAs : string :=
  "with Values.routes do" +:+ newline +:+ "  a: 1" +:+ newline +:+ "end".

(** A source with a byte no token starts with, and the source that ends
    before it. *)
Definition strayByte : string := "a: 1" +:+ newline +:+ "@ b: 2".
Definition beforeStrayByte : string := "a: 1" +:+ newline.

(** A template that binds [secret], included by a caller that reads
    [secret] afterwards. *)
Definition secretProgram : string :=
  "define(" +:+ quoted "t" +:+ ") do" +:+ newline +:+ "  let secret = 1" +:+ newline
  +:+ "  a: secret" +:+ newline +:+ "end" +:+ newline
  +:+ "include(" +:+ quoted "t" +:+ ")" +:+ newline +:+ "b: secret".

(** A store with one scope that has no parent, and an evaluator in it. *)
Definition store : State :=
  match NewScope None ∅ with
  | Some (_, env) => mkState ∅ env
  | None => mkState ∅ ∅
  end.
Definition root : loc :=
  match NewScope None ∅ with Some (s, _) => s | None => 1%positive end.
Definition caller : evaluator := mkEvaluator root (CollDocuments 1%positive).

(** A template that binds a variable. *)
Definition secretTemplate : Template :=
  NewTemplate "t" [LetStatement "secret" (NExpr (NumberLiteral 1 (at_ 2 16))) (at_ 2 3)]
    "test.helmtk".

Definition divisionByZero : Expression :=
  BinaryOp (NumberLiteral 1 (at_ 1 10)) "/" (NumberLiteral 0 (at_ 1 14)) (at_ 1 12).

End cases.

(** ** Further inputs of examples *)

Module samples.

Import parser runtime eval example cases.

(** A statement that binds a variable of the scope it is evaluated in. *)
Definition bindY : Node :=
  LetStatement "y" (NExpr (NumberLiteral 2 (at_ 1 9))) (at_ 1 1).

(** A loop whose body assigns to a variable of the enclosing scope. *)
Definition oneElement : Expression :=
  Array [NExpr (NumberLiteral 1 (at_ 2 11))] (at_ 2 10).
Definition assigningLoop : Node :=
  ForStatement "" "x" oneElement
    [AssignmentStatement "y" (NExpr (NumberLiteral 5 (at_ 3 7))) (at_ 3 3)] (at_ 2 1).

(** A [with] whose body assigns to a variable of the enclosing scope. *)
Definition assigningWith : Node :=
  WithStatement (NumberLiteral 1 (at_ 2 6)) "x"
    [AssignmentStatement "y" (NExpr (NumberLiteral 5 (at_ 3 7))) (at_ 3 3)] (at_ 2 1).

(** Two definitions of one name. *)
Definition firstT : TemplateDefinition :=
  mkDefinition "t" [NExpr (NumberLiteral 1 (at_ 1 13))] (at_ 1 1).
Definition secondT : TemplateDefinition :=
  mkDefinition "t" [NExpr (NumberLiteral 2 (at_ 2 13))] (at_ 2 1).

(** A heap with one object of one field, and one with two objects. *)
Definition oneField : Heap := {[ 1%positive := HObject {[ "a" := NumberValue 1 ]} ]}.
Definition twoObjects : Heap :=
  {[ 1%positive := HObject {[ "a" := NumberValue 1; "b" := NumberValue 2 ]};
     2%positive := HObject {[ "b" := NumberValue 3 ]} ]}.

(** A source that ends inside a string literal. *)
Definition unclosed : string := gostr.str [gostr.dquote] +:+ "bcd".

End samples.

(** ** Further notions of the lexer *)

Module scanning.

Import parser.

(** The lexer [l'] reads the input of [l], at or behind the position of
    [l] and not behind the end. *)
Definition forward (l l' : Lexer) : Prop :=
  input l' = input l ∧ (pos l ≤ pos l')%nat ∧ (pos l' ≤ length (input l))%nat.

(** A byte of a string literal that neither ends it nor escapes nor breaks
    the line. *)
Definition plain (c : ascii) : bool :=
  negb (Ascii.eqb c gostr.dquote) && negb (Ascii.eqb c gostr.backslash)
  && negb (Ascii.eqb c gostr.lf).

End scanning.

(** * Theorems *)

(** ** The lexer and the parser *)

Section lexer_facts.

Import parser lexing example cases.


Lemma takeWhile_take keep (l : list ascii) :
  take (length (gostr.takeWhile keep l)) l = gostr.takeWhile keep l.
Proof.
  induction l as [|c l IH]; simpl; [done|].
  destruct (keep c); simpl; [by rewrite IH | done].
Qed.

Lemma takeWhile_length keep (l : list ascii) :
  (length (gostr.takeWhile keep l) ≤ length l)%nat.
Proof. induction l as [|c l IH]; simpl; [lia|]. destruct (keep c); simpl; lia. Qed.

Lemma drop_at (l : list ascii) (i : nat) :
  (i < length l)%nat → drop i l = gostr.at_ l i :: drop (S i) l.
Proof.
  revert i. induction l as [|c l IH]; intros i Hi; simpl in *; [lia|].
  destruct i as [|i]; simpl; [done|]. rewrite IH by lia. done.
Qed.

Lemma advanceWhile_go_skip (keep : ascii → bool) (fuel : nat) (l : Lexer) :
  (∀ c, keep c = true → c ≠ gostr.lf) →
  (length (input l) - pos l ≤ fuel)%nat →
  advanceWhile_go fuel keep l
  = skip (length (gostr.takeWhile keep (drop (pos l) (input l)))) l.
Proof.
  intros Hlf. revert l. induction fuel as [|fuel IH]; intros l Hfuel.
  - simpl. rewrite drop_ge by lia. simpl. unfold skip. destruct l; simpl.
    f_equal; lia.
  - simpl. destruct (decide (pos l < length (input l))%nat) as [Hlt|Hge].
    + unfold Lexer_current. destruct (decide (length (input l) ≤ pos l)%nat); [lia|].
      rewrite (drop_at _ _ Hlt). simpl.
      destruct (keep (gostr.at_ (input l) (pos l))) eqn:Hk.
      * unfold advance. destruct (decide (pos l < length (input l))%nat); [|lia].
        pose proof (Hlf _ Hk) as Hne.
        destruct (Ascii.eqb_spec (gostr.at_ (input l) (pos l)) gostr.lf); [done|].
        rewrite IH by (simpl; lia). simpl. unfold skip; simpl. f_equal; lia.
      * simpl. unfold skip. destruct l; simpl. f_equal; lia.
    + rewrite drop_ge by lia. simpl. unfold skip. destruct l; simpl. f_equal; lia.
Qed.

Lemma advanceWhile_skip (keep : ascii → bool) (l : Lexer) :
  (∀ c, keep c = true → c ≠ gostr.lf) →
  advanceWhile keep l = skip (length (gostr.takeWhile keep (drop (pos l) (input l)))) l.
Proof. intros. unfold advanceWhile. by apply advanceWhile_go_skip. Qed.

Lemma slice_takeWhile keep (l : list ascii) (i : nat) :
  (i ≤ length l)%nat →
  gostr.slice l i (i + length (gostr.takeWhile keep (drop i l)))
  = Some (gostr.takeWhile keep (drop i l)).
Proof.
  intros Hi. unfold gostr.slice.
  pose proof (takeWhile_length keep (drop i l)) as Hle. rewrite length_drop in Hle.
  rewrite decide_True by lia. f_equal.
  replace (i + length (gostr.takeWhile keep (drop i l)) - i)%nat
    with (length (gostr.takeWhile keep (drop i l))) by lia.
  apply takeWhile_take.
Qed.

Lemma isNumberByte_not_lf c : isNumberByte c = true → c ≠ gostr.lf.
Proof. intros Hc ->. discriminate Hc. Qed.

Lemma isBlank_not_lf c : isBlank c = true → c ≠ gostr.lf.
Proof. intros Hc ->. discriminate Hc. Qed.

Lemma current_at (l : Lexer) :
  (pos l < length (input l))%nat → Lexer_current l = gostr.at_ (input l) (pos l).
Proof. intros. unfold Lexer_current. by rewrite decide_False by lia. Qed.

Lemma advance_skip (l : Lexer) :
  (pos l < length (input l))%nat → Lexer_current l ≠ gostr.lf → advance l = skip 1 l.
Proof.
  intros Hlt Hne. rewrite current_at in Hne by done. unfold advance.
  rewrite decide_True by done.
  destruct (Ascii.eqb_spec (gostr.at_ (input l) (pos l)) gostr.lf); [done|].
  unfold skip. f_equal; lia.
Qed.

Lemma readNumber_lexeme (l : Lexer) :
  (pos l < length (input l))%nat →
  readNumber l
  = Some (mkToken TokenNumber (gostr.str (numberLexeme l)) (line l) (col l),
          skip (length (numberLexeme l)) l).
Proof.
  intros Hlt. unfold readNumber, numberLexeme.
  rewrite (current_at l Hlt), (drop_at _ _ Hlt).
  destruct (Ascii.eqb_spec (gostr.at_ (input l) (pos l)) "-") as [Hm|Hm].
  - rewrite advance_skip; [|done|by rewrite current_at, Hm].
    rewrite (advanceWhile_skip _ _ isNumberByte_not_lf). simpl.
    replace (pos l + 1)%nat with (S (pos l)) by lia.
    set (n := length (gostr.takeWhile isNumberByte (drop (S (pos l)) (input l)))).
    pose proof (takeWhile_length isNumberByte (drop (S (pos l)) (input l))) as Hle.
    rewrite length_drop in Hle. fold n in Hle.
    unfold gostr.slice. rewrite decide_True by lia. simpl.
    replace (S (pos l) + n - pos l)%nat with (S n) by lia.
    rewrite (drop_at _ _ Hlt). simpl. rewrite Hm. unfold n.
    replace (S (pos l + length (gostr.takeWhile isNumberByte (drop (S (pos l)) (input l))))
             - pos l)%nat
      with (S (length (gostr.takeWhile isNumberByte (drop (S (pos l)) (input l))))) by lia.
    simpl. rewrite takeWhile_take.
    do 2 f_equal. unfold skip; simpl. f_equal; lia.
  - rewrite (advanceWhile_skip _ _ isNumberByte_not_lf). simpl.
    rewrite slice_takeWhile by lia. simpl. rewrite (drop_at _ _ Hlt). done.
Qed.

Lemma skipWhitespace_skip (l : Lexer) :
  skipWhitespace l = skip (length (gostr.takeWhile isBlank (drop (pos l) (input l)))) l.
Proof. apply advanceWhile_skip, isBlank_not_lf. Qed.

Lemma IsDigit_eqb c x : gostr.IsDigit c = true → gostr.IsDigit x = false → Ascii.eqb c x = false.
Proof. intros Hc Hx. destruct (Ascii.eqb_spec c x); [congruence|done]. Qed.

(** C6, as the lexer has it: after blanks, a digit, or a minus sign followed
    by a digit, starts a number token; the token takes the minus sign and
    then every digit and every dot that follows, however many dots there
    are, and its value is that text.  The text becomes a number only in the
    parser, where [parsePrimaryValue] hands it to [strconv.ParseFloat] and
    reports what that function refuses as an invalid number. *)
Theorem number_token_is_greedy `{GoStdlib} :
  (∀ l : Lexer,
     let l0 := skipWhitespace l in
     let ch := Lexer_current l0 in
     (pos l0 < length (input l0))%nat →
     gostr.IsDigit ch = true ∨ (ch = "-"%char ∧ gostr.IsDigit (Lexer_peek l0) = true) →
     NextToken l
     = Some (mkToken TokenNumber (gostr.str (numberLexeme l0)) (line l0) (col l0),
             skip (length (numberLexeme l0)) l0))
  ∧ (∀ parseStatement_rec parseValueWithPrecedence_rec (p : Parser),
       tok_Type (current p) = TokenNumber →
       parsePrimaryValue parseStatement_rec parseValueWithPrecedence_rec p
       = match strconv_ParseFloat (tok_Value (current p)) with
         | inl num => Ok (NumberLiteral num (Parser_pos p), p)
         | inr err =>
             Err (Errorf ("invalid number " +:+ fmt_q (tok_Value (current p)) +:+ ": " +:+ err)
                    (Some (Errorf err None)))
         end).
Proof.
  split.
  - intros l l0 ch Hlt Hch. unfold NextToken. fold l0.
    rewrite decide_False by lia. fold ch.
    assert (Ascii.eqb ch gostr.lf = false ∧ Ascii.eqb ch "#" = false
            ∧ Ascii.eqb ch gostr.dquote = false) as (-> & -> & ->).
    { destruct Hch as [Hd|[-> _]]; [|done].
      repeat split; by apply IsDigit_eqb. }
    assert (gostr.IsDigit ch
            || Ascii.eqb ch "-" && negb (Ascii.eqb (Lexer_peek l0) gostr.nul)
               && gostr.IsDigit (Lexer_peek l0) = true) as ->.
    { destruct Hch as [->|[-> Hd]]; [done|].
      rewrite Hd, (IsDigit_eqb _ gostr.nul Hd) by done. done. }
    by apply readNumber_lexeme.
  - intros ps pv p Hp. unfold parsePrimaryValue. rewrite Hp. done.
Qed.

(** The claim applied to [ -1.5.2x] and to the parser at [1.2.3]. *)
Lemma number_token_is_greedy_witness :
  NextToken (NewLexer " -1.5.2x")
  = Some (mkToken TokenNumber "-1.5.2" 1 2, mkLexer (gostr.bytes " -1.5.2x") 7 1 8)
  ∧ isOk (parsePrimaryValue (parseStatement_n 0) (parseValueWithPrecedence_n 0)
            (parserOf "1.2.3")) = false.
Proof.
  split.
  - refine (eq_trans (proj1 (number_token_is_greedy (H := golib.lib))
                        (NewLexer " -1.5.2x") _ _) _).
    + vm_compute. lia.
    + right. by vm_compute.
    + by vm_compute.
  - rewrite (proj2 (number_token_is_greedy (H := golib.lib)) _ _ (parserOf "1.2.3"))
      by (by vm_compute).
    by vm_compute.
Defined.

(** C6 as stated does not hold: the token read from [1.2.3] is the whole
    text, with both dots, and nothing but the end of the input follows. *)
Lemma number_token_takes_every_dot :
  lexAll "1.2.3" = Some [mkToken TokenNumber "1.2.3" 1 1; mkToken TokenEOF "" 1 6].
Proof. by vm_compute. Qed.

Lemma NextToken_unrecognized (l : Lexer) :
  let l0 := skipWhitespace l in
  let ch := Lexer_current l0 in
  (pos l0 < length (input l0))%nat →
  startsToken ch (Lexer_peek l0) = false →
  NextToken l
  = Some (mkToken TokenEOF (gostr.of_rune ch) (line l0) (col l0), advance l0).
Proof.
  intros l0 ch Hlt Hs. unfold NextToken. fold l0.
  rewrite decide_False by lia. fold ch.
  unfold startsToken in Hs.
  repeat (apply orb_false_elim in Hs as [Hs ?]).
  unfold operatorToken.
  destruct (Ascii.eqb ch "&") eqn:Hamp; simpl in *;
    repeat match goal with Hx : _ = false |- _ => rewrite Hx; clear Hx end; done.
Qed.




(** The same in a document: what stands behind the stray byte is not
    parsed, and the document is the one of the source that ends there. *)
Lemma unrecognized_byte_truncates_document :
  ParseSource 8 strayByte "test.helmtk" = ParseSource 8 beforeStrayByte "test.helmtk"
  ∧ isOk (ParseSource 8 strayByte "test.helmtk") = true.
Proof. split; by vm_compute. Qed.

(** ** [with] *)

(** C7, as the parser has it: when the token after the context expression
    of a [with] statement is not [as], [parseWithStatement] fails with the
    ParseError of [expectCurrent], at that token, whose message is
    [expected 'as', got] followed by the name of the token found; the
    message mentions ['as'].  When [as] is there and no identifier follows,
    the message is [expected identifier, got] and the token found. *)
Theorem with_requires_as `{GoStdlib} parseStatement_rec parseValueWithPrecedence_rec
    (p p0 p1 p2 : Parser) (context : Expression) :
  nextToken p = Ok p0 →
  parseExpression parseStatement_rec parseValueWithPrecedence_rec p0 = Ok (context, p1) →
  nextToken p1 = Ok p2 →
  (tok_Type (current p2) ≠ TokenAs →
   let message := "expected 'as', got " +:+ TokenType_String (tok_Type (current p2)) in
   parseWithStatement parseStatement_rec parseValueWithPrecedence_rec p
   = Err (ParseErr (Parser_error p2 message))
   ∧ mentions message "'as'" = true)
  ∧ (tok_Type (current p2) = TokenAs →
     ∀ p3, nextToken p2 = Ok p3 →
     tok_Type (current p3) ≠ TokenIdent →
     parseWithStatement parseStatement_rec parseValueWithPrecedence_rec p
     = Err (ParseErr (Parser_error p3
              ("expected identifier, got " +:+ TokenType_String (tok_Type (current p3)))))).
Proof.
  intros H0 H1 H2. split.
  - intros Hne message. split; [|done].
    unfold parseWithStatement. rewrite H0. simpl. rewrite H1. simpl. rewrite H2. simpl.
    unfold expectCurrent, currentIs. case_bool_decide; done.
  - intros Has p3 H3 Hne.
    unfold parseWithStatement. rewrite H0. simpl. rewrite H1. simpl. rewrite H2. simpl.
    unfold expectCurrent, currentIs. case_bool_decide; [|done]. simpl.
    rewrite H3. simpl. case_bool_decide; done.
Qed.

(** The claim applied to the source of [TestWithStatementRequiresAs]. *)
Lemma with_requires_as_witness :
  errorMessage (parseWithStatement (parseStatement_n 8) (parseValueWithPrecedence_n 8)
                  (parserOf withoutAs))
  = Some "expected 'as', got 'do'".
Proof.
  edestruct (with_requires_as (H := golib.lib) (parseStatement_n 8)
               (parseValueWithPrecedence_n 8) (parserOf withoutAs)) as [Hno _].
  - vm_compute. reflexivity.
  - vm_compute. reflexivity.
  - vm_compute. reflexivity.
  - destruct Hno as [Herr _]; [by vm_compute|]. rewrite Herr. by vm_compute.
Defined.

(** C7 as stated does not hold: the message of the error for a [with]
    without [as] is not the one the claim gives. *)
Lemma with_without_as_message :
  parseMessage (eval withoutAs) = Some "expected 'as', got 'do'"
  ∧ String.eqb "expected 'as', got 'do'" "with requires 'as <name>'" = false.
Proof. split; by vm_compute. Qed.

End lexer_facts.

(** ** String interpolation *)

Section interpolation_facts.

Import parser interpolation example cases.
Local Open Scope nat_scope.


Lemma prefixb_dollarBrace (l : list ascii) :
  gostr.prefixb dollarBrace l
  = Ascii.eqb (gostr.at_ l 0) "$" && Ascii.eqb (gostr.at_ l 1) "{"
    && bool_decide (1 < length l)%nat.
Proof.
  unfold dollarBrace. destruct l as [|a [|b l]].
  - reflexivity.
  - change (Ascii.eqb "$" a && false
            = Ascii.eqb a "$" && false && bool_decide (1 < 1)%nat).
    by rewrite !andb_false_r.
  - rewrite bool_decide_true by (simpl; lia).
    change (Ascii.eqb "$" a && (Ascii.eqb "{" b && true)
            = Ascii.eqb a "$" && Ascii.eqb b "{" && true).
    by rewrite (Ascii.eqb_sym "$"), (Ascii.eqb_sym "{"), !andb_true_r.
Qed.

Lemma at_drop (l : list ascii) (i j : nat) :
  gostr.at_ (drop i l) j = gostr.at_ l (i + j).
Proof.
  unfold gostr.at_. revert i. induction l as [|c l IH]; intros i.
  - rewrite drop_nil. by destruct (i + j)%nat, j.
  - destruct i as [|i]; simpl; [done|]. apply IH.
Qed.

Lemma dollarBraceAt_eq (str : list ascii) (i : nat) :
  dollarBraceAt str i
  = Ascii.eqb (gostr.at_ str i) "$" && Ascii.eqb (gostr.at_ str (i + 1)) "{"
    && bool_decide (i + 1 < length str)%nat.
Proof.
  unfold dollarBraceAt. rewrite prefixb_dollarBrace, !at_drop, length_drop.
  rewrite Nat.add_0_r. do 2 f_equal. apply bool_decide_ext. lia.
Qed.

Lemma unescapedAt_eq (str : list ascii) (i : nat) :
  unescapedAt str i
  = dollarBraceAt str i
    && negb (bool_decide (0 < i)%nat && Ascii.eqb (gostr.at_ str (i - 1)) gostr.nul).
Proof.
  unfold unescapedAt. rewrite dollarBraceAt_eq.
  destruct (bool_decide (i + 1 < length str)%nat), (Ascii.eqb (gostr.at_ str i) "$"),
    (Ascii.eqb (gostr.at_ str (i + 1)) "{"); done.
Qed.

Lemma Index_Some (l sep : list ascii) (k : nat) :
  gostr.Index l sep = Some k →
  gostr.prefixb sep (drop k l) = true
  ∧ ∀ j, (j < k)%nat → gostr.prefixb sep (drop j l) = false.
Proof.
  revert k. induction l as [|c l IH]; intros k; simpl.
  - destruct (gostr.prefixb sep []) eqn:E; [|done]. intros [= <-]. split; [done|lia].
  - destruct (gostr.prefixb sep (c :: l)) eqn:E.
    + intros [= <-]. split; [done|lia].
    + destruct (gostr.Index l sep) as [k'|] eqn:Ek; [|done]. simpl. intros [= <-].
      destruct (IH k' eq_refl) as [Hp Hmin]. split; [done|].
      intros [|j] Hj; simpl; [done|]. apply Hmin. lia.
Qed.

Lemma Index_None (l sep : list ascii) :
  gostr.Index l sep = None → ∀ j, gostr.prefixb sep (drop j l) = false.
Proof.
  induction l as [|c l IH]; simpl.
  - destruct (gostr.prefixb sep []) eqn:E; [done|]. intros _ j. by rewrite drop_nil.
  - destruct (gostr.prefixb sep (c :: l)) eqn:E; [done|].
    destruct (gostr.Index l sep) eqn:Ek; [done|]. intros _ [|j]; simpl; [done|]. by apply IH.
Qed.

Lemma firstUnescaped_spec (str : list ascii) (from i : nat) :
  firstUnescaped str from i = true ↔
  (from ≤ i)%nat ∧ unescapedAt str i = true
  ∧ ∀ j, (from ≤ j < i)%nat → unescapedAt str j = false.
Proof.
  unfold firstUnescaped. rewrite !andb_true_iff, bool_decide_eq_true, forallb_forall.
  split.
  - intros [[Hle Hu] Hall]. split_and!; [done..|].
    intros j Hj. apply negb_true_iff, Hall, in_seq. lia.
  - intros (Hle & Hu & Hall). split_and!; [done..|].
    intros j Hj%in_seq. apply negb_true_iff, Hall. lia.
Qed.

Lemma findInterpolation_first (fuel : nat) (str : list ascii) (searchPos i : nat) :
  (length str - searchPos < fuel)%nat →
  firstUnescaped str searchPos i = true →
  ∃ start pos, findInterpolation fuel str searchPos = Some (start, pos)
               ∧ (pos + start = i)%nat ∧ (searchPos ≤ pos)%nat.
Proof.
  revert searchPos. induction fuel as [|fuel IH]; intros searchPos Hfuel Hfirst; [lia|].
  apply firstUnescaped_spec in Hfirst as (Hle & Hu & Hmin).
  pose proof Hu as Hu'. rewrite unescapedAt_eq in Hu'.
  apply andb_true_iff in Hu' as [Hdb Hesc]. apply negb_true_iff in Hesc.
  assert (i + 1 < length str)%nat as Hi.
  { unfold unescapedAt in Hu. rewrite !andb_true_iff in Hu.
    destruct Hu as [[[Hu _] _] _]. by apply bool_decide_eq_true in Hu. }
  simpl. rewrite decide_True by lia.
  destruct (gostr.Index (drop searchPos str) dollarBrace) as [idx|] eqn:Eidx.
  - apply Index_Some in Eidx as [Hat Hbefore].
    rewrite drop_drop in Hat.
    assert (searchPos + idx ≤ i)%nat as Hidx.
    { destruct (decide (searchPos + idx ≤ i)%nat); [done|].
      specialize (Hbefore (i - searchPos)%nat ltac:(lia)).
      rewrite drop_drop in Hbefore.
      replace (searchPos + (i - searchPos))%nat with i in Hbefore by lia.
      unfold dollarBraceAt in Hdb. congruence. }
    destruct (bool_decide (0 < searchPos + idx)%nat
              && Ascii.eqb (gostr.at_ str (searchPos + idx - 1)) gostr.nul) eqn:Eesc.
    + assert (searchPos + idx ≠ i) as Hne by (intros Heq; rewrite Heq, Hesc in Eesc; done).
      assert (searchPos + idx + 1 ≠ i) as Hne'.
      { intros Heq. fold (dollarBraceAt str (searchPos + idx)) in Hat.
        rewrite dollarBraceAt_eq in Hat. rewrite dollarBraceAt_eq in Hdb.
        rewrite Heq in Hat. rewrite !andb_true_iff in Hat, Hdb.
        destruct Hat as [[_ Hat] _]. destruct Hdb as [[Hdb _] _].
        apply Ascii.eqb_eq in Hat, Hdb. congruence. }
      destruct (IH (searchPos + idx + 2)%nat) as (start & pos & Hf & Hsum & Hge).
      * lia.
      * apply firstUnescaped_spec. split_and!; [lia|done|].
        intros j Hj. apply Hmin. lia.
      * exists start, pos. split_and!; [done|done|lia].
    + exists idx, searchPos. split_and!; [done| |lia].
      destruct (decide (searchPos + idx = i)) as [|Hne]; [done|].
      assert (unescapedAt str (searchPos + idx) = false) as Hf by (apply Hmin; lia).
      rewrite unescapedAt_eq in Hf. unfold dollarBraceAt in Hf.
      rewrite Hat, Eesc in Hf. done.
  - pose proof (Index_None _ _ Eidx (i - searchPos)%nat) as Hn.
    rewrite drop_drop in Hn. replace (searchPos + (i - searchPos))%nat with i in Hn by lia.
    unfold dollarBraceAt in Hdb. congruence.
Qed.

Lemma hasInterpolation_unescaped (str : list ascii) (i : nat) :
  unescapedAt str i = true → hasInterpolation str = true.
Proof.
  intros Hu. unfold hasInterpolation. apply existsb_exists. exists i.
  unfold unescapedAt in Hu. rewrite !andb_true_iff in Hu.
  destruct Hu as [[[Hlen H1] H2] H3]. apply bool_decide_eq_true in Hlen.
  split; [apply in_seq; lia|]. by rewrite H1, H2, H3.
Qed.

Lemma find_seq_first (f : nat → bool) (a n i : nat) :
  find f (seq a n) = Some i →
  a ≤ i ∧ f i = true ∧ ∀ j, a ≤ j < i → f j = false.
Proof.
  revert a. induction n as [|n IH]; intros a; simpl; [done|].
  destruct (f a) eqn:Ea.
  - intros [= <-]. split_and!; [lia|done|lia].
  - intros Hf. destruct (IH _ Hf) as (Hle & Hi & Hmin). split_and!; [lia|done|].
    intros j Hj. destruct (decide (j = a)) as [->|]; [done|]. apply Hmin. lia.
Qed.

Lemma nextUnescaped_Some (str : list ascii) (from i : nat) :
  nextUnescaped str from = Some i → firstUnescaped str from i = true.
Proof.
  intros Hf. apply find_seq_first in Hf. by apply firstUnescaped_spec.
Qed.

Lemma nextUnescaped_None (str : list ascii) (from i : nat) :
  nextUnescaped str from = None → from ≤ i → unescapedAt str i = false.
Proof.
  intros Hf Hi. destruct (decide (i < length str)) as [Hlt|Hge].
  - apply (find_none _ _ Hf). apply in_seq. lia.
  - unfold unescapedAt. rewrite bool_decide_false by lia. done.
Qed.

Lemma findInterpolation_None (fuel : nat) (str : list ascii) (searchPos : nat) :
  (∀ i, searchPos ≤ i → unescapedAt str i = false) →
  findInterpolation fuel str searchPos = None.
Proof.
  revert searchPos. induction fuel as [|fuel IH]; intros searchPos Hnone; simpl; [done|].
  destruct (decide (searchPos < length str)); [|done].
  destruct (gostr.Index (drop searchPos str) dollarBrace) as [idx|] eqn:Eidx; [|done].
  apply Index_Some in Eidx as [Hat _]. rewrite drop_drop in Hat.
  pose proof (Hnone (searchPos + idx) ltac:(lia)) as Hu.
  rewrite unescapedAt_eq in Hu. unfold dollarBraceAt in Hu. rewrite Hat in Hu.
  simpl in Hu. apply negb_false_iff in Hu. rewrite Hu.
  apply IH. intros i Hi. apply Hnone. lia.
Qed.

Lemma drop_at_nat (l : list ascii) (i : nat) :
  i < length l → drop i l = gostr.at_ l i :: drop (S i) l.
Proof.
  revert i. induction l as [|c l IH]; intros i Hi; simpl in *; [lia|].
  destruct i as [|i]; simpl; [done|]. rewrite IH by lia. done.
Qed.

Lemma Index_brace_Some (l : list ascii) (a k : nat) :
  gostr.Index (drop a l) ["}"%char] = Some k →
  a + k < length l ∧ gostr.at_ l (a + k) = "}"%char.
Proof.
  intros [Hp _]%Index_Some. rewrite drop_drop in Hp.
  destruct (decide (a + k < length l)) as [Hlt|Hge].
  - split; [done|]. rewrite (drop_at_nat _ _ Hlt) in Hp. cbn [gostr.prefixb] in Hp.
    rewrite andb_true_r in Hp. apply Ascii.eqb_eq in Hp. done.
  - rewrite drop_ge in Hp by lia. done.
Qed.

Lemma Index_brace_None (l : list ascii) (a k : nat) :
  gostr.Index (drop a l) ["}"%char] = None →
  a ≤ k → k < length l → gostr.at_ l k ≠ "}"%char.
Proof.
  intros Hn Hle Hlt Heq. pose proof (Index_None _ _ Hn (k - a)) as Hp.
  rewrite drop_drop in Hp. replace (a + (k - a)) with k in Hp by lia.
  rewrite (drop_at_nat _ _ Hlt) in Hp. cbn [gostr.prefixb] in Hp.
  rewrite Heq in Hp. done.
Qed.

(** An unescaped [${] behind which the string has no [}] leaves no list of
    texts: the search comes to it, or to an unclosed one before it. *)
Lemma interpolationTexts_unclosed (fuel : nat) (str : list ascii) (pos i : nat) :
  unescapedAt str i = true → pos ≤ i →
  gostr.Index (drop (i + 2) str) ["}"%char] = None →
  length str - pos < fuel →
  interpolationTexts fuel str pos = None.
Proof.
  intros Hu Hle Hnone. revert pos Hle.
  assert (i + 1 < length str ∧ gostr.at_ str i = "$"%char
          ∧ gostr.at_ str (i + 1) = "{"%char) as (Hlen & Hd & Hb).
  { unfold unescapedAt in Hu. rewrite !andb_true_iff in Hu.
    destruct Hu as [[[Hl H1] H2] _]. apply bool_decide_eq_true in Hl.
    apply Ascii.eqb_eq in H1, H2. done. }
  induction fuel as [|fuel IH]; intros pos Hle Hfuel; [lia|].
  cbn [interpolationTexts].
  destruct (nextUnescaped str pos) as [j|] eqn:Enext.
  - pose proof Enext as Hj. apply find_seq_first in Hj as (Hpj & _ & Hmin).
    assert (j ≤ i) as Hji.
    { destruct (decide (j ≤ i)); [done|].
      rewrite Hmin in Hu by lia. done. }
    destruct (gostr.Index (drop (j + 2) str) ["}"%char]) as [end_|] eqn:Eend; [|done].
    apply Index_brace_Some in Eend as [Hk Hat].
    assert (j + 2 + end_ < i) as Hlt.
    { destruct (decide (j + 2 + end_ < i)); [done|].
      destruct (decide (j + 2 + end_ = i)) as [Heq|].
      { rewrite Heq, Hd in Hat. done. }
      destruct (decide (j + 2 + end_ = i + 1)) as [Heq|].
      { rewrite Heq, Hb in Hat. done. }
      exfalso. apply (Index_brace_None _ _ (j + 2 + end_) Hnone); [lia|done|done]. }
    rewrite IH; [done|lia|lia].
  - rewrite (nextUnescaped_None _ _ i Enext Hle) in Hu. done.
Qed.

Section interpolation.
Context `{GoStdlib}.
Variable parseValueWithPrecedence_rec : Z → Parser → PR (Expression * Parser).

Lemma interpolation_step (fuel : nat) (p : Parser) (stringPos : Pos)
    (str : list ascii) (pos i : nat) (parts : list Expression) :
  firstUnescaped str pos i = true →
  ∃ parts',
    (parts' = parts ∨ ∃ s, parts' = parts ++ [StringLiteral s stringPos])
    ∧ (gostr.Index (drop (i + 2) str) ["}"%char] = None →
       parseInterpolation_loop parseValueWithPrecedence_rec (S fuel) p stringPos str pos parts
       = Err (ParseErr (Parser_error p "unclosed interpolation in string")))
    ∧ (∀ end_, gostr.Index (drop (i + 2) str) ["}"%char] = Some end_ →
       parseInterpolation_loop parseValueWithPrecedence_rec (S fuel) p stringPos str pos parts
       = reparse parseValueWithPrecedence_rec fuel p stringPos str (i + 2 + (end_ + 1)) parts'
           (take end_ (drop (i + 2) str))).
Proof.
  intros Hfirst.
  destruct (findInterpolation_first (S (length str)) str pos i ltac:(lia) Hfirst)
    as (start & pos' & Hfind & Hsum & _).
  exists (if decide (0 < start)
          then parts ++ [StringLiteral (cleanStr (take start (drop pos' str))) stringPos]
          else parts).
  split; [destruct (decide (0 < start)); eauto|].
  assert (pos' + (start + 2) = i + 2) as Hpos by lia.
  split.
  - intros Hnone. cbn [parseInterpolation_loop]. rewrite Hfind. rewrite Hpos, Hnone. done.
  - intros end_ Hsome. cbn [parseInterpolation_loop]. rewrite Hfind. rewrite Hpos, Hsome. done.
Qed.

Lemma unclosed_interpolation (p : Parser) (i : nat) :
  let str := gostr.bytes (tok_Value (current p)) in
  firstUnescaped str 0 i = true →
  gostr.Index (drop (i + 2) str) ["}"%char] = None →
  parseStringLiteral parseValueWithPrecedence_rec p
  = Err (ParseErr (Parser_error p "unclosed interpolation in string")).
Proof.
  intros str Hfirst Hnone. unfold parseStringLiteral. fold str.
  pose proof Hfirst as Hf. apply firstUnescaped_spec in Hf as (_ & Hu & _).
  rewrite (hasInterpolation_unescaped _ _ Hu). cbn [negb].
  destruct (interpolation_step (length str) p (Parser_pos p) str 0 i [] Hfirst)
    as (parts' & _ & Hun & _).
  rewrite (Hun Hnone). done.
Qed.

Lemma loop_reparses (fuel : nat) (p : Parser) (stringPos : Pos) (str : list ascii)
    (pos : nat) (parts result : list Expression) :
  parseInterpolation_loop parseValueWithPrecedence_rec fuel p stringPos str pos parts
  = Ok result →
  ∃ texts more,
    interpolationTexts fuel str pos = Some texts
    ∧ result = parts ++ more
    ∧ reparsed parseValueWithPrecedence_rec p stringPos texts more.
Proof.
  revert pos parts. induction fuel as [|fuel IH]; intros pos parts Hloop; [done|].
  cbn [interpolationTexts].
  destruct (nextUnescaped str pos) as [i|] eqn:Enext.
  - apply nextUnescaped_Some in Enext.
    destruct (interpolation_step fuel p stringPos str pos i parts Enext)
      as (parts' & Hparts' & Hun & Hstep).
    destruct (gostr.Index (drop (i + 2) str) ["}"%char]) as [end_|] eqn:Eend.
    + rewrite (Hstep _ eq_refl) in Hloop. unfold reparse in Hloop.
      destruct (newExprParser p (take end_ (drop (i + 2) str)))
        as [exprParser| | |] eqn:Enew; try done.
      simpl in Hloop.
      destruct (parseValueWithPrecedence_rec PREC_LOWEST exprParser)
        as [[expr p']| | |] eqn:Esub; try done.
      destruct (IH _ _ Hloop) as (texts & more & Htexts & Hres & Hre).
      rewrite Htexts. simpl.
      destruct Hparts' as [->|[s ->]].
      * exists (take end_ (drop (i + 2) str) :: texts), (expr :: more).
        split_and!; [done|by rewrite Hres, <- app_assoc|].
        exists [], expr, exprParser, p', more. split_and!; eauto.
      * exists (take end_ (drop (i + 2) str) :: texts),
          (StringLiteral s stringPos :: expr :: more).
        split_and!; [done|by rewrite Hres, <- !app_assoc|].
        exists [StringLiteral s stringPos], expr, exprParser, p', more.
        split_and!; eauto.
    + by rewrite (Hun eq_refl) in Hloop.
  - cbn [parseInterpolation_loop] in Hloop.
    rewrite findInterpolation_None in Hloop
      by (intros i Hi; by apply (nextUnescaped_None _ pos)).
    injection Hloop as <-. exists []. destruct (decide (pos < length str)).
    + eexists. split_and!; [done..|]. simpl. eauto.
    + exists []. split_and!; [done|by rewrite app_nil_r|]. simpl. eauto.
Qed.

Lemma loop_unclosed (fuel : nat) (p : Parser) (stringPos : Pos) (str : list ascii)
    (pos : nat) (parts : list Expression) :
  interpolationTexts fuel str pos = None →
  isOk (parseInterpolation_loop parseValueWithPrecedence_rec fuel p stringPos str pos parts)
  = false.
Proof.
  intros Hnone. destruct (parseInterpolation_loop _ _ _ _ _ _ _) eqn:Hloop; try done.
  apply loop_reparses in Hloop as (texts & _ & Htexts & _). congruence.
Qed.

Lemma loop_builds (fuel : nat) (p : Parser) (stringPos : Pos) (str : list ascii)
    (pos : nat) (parts : list Expression) (texts : list (list ascii)) :
  interpolationTexts fuel str pos = Some texts →
  length str - pos < fuel →
  Forall (reparses parseValueWithPrecedence_rec p) texts →
  ∃ result,
    parseInterpolation_loop parseValueWithPrecedence_rec fuel p stringPos str pos parts
    = Ok result.
Proof.
  revert pos parts texts. induction fuel as [|fuel IH]; intros pos parts texts; [lia|].
  cbn [interpolationTexts].
  destruct (nextUnescaped str pos) as [i|] eqn:Enext.
  - apply nextUnescaped_Some in Enext.
    pose proof Enext as Hi. apply firstUnescaped_spec in Hi as (Hle & Hu & _).
    assert (i + 1 < length str) as Hlen.
    { unfold unescapedAt in Hu. rewrite !andb_true_iff in Hu.
      destruct Hu as [[[Hu _] _] _]. by apply bool_decide_eq_true in Hu. }
    destruct (interpolation_step fuel p stringPos str pos i parts Enext)
      as (parts' & _ & _ & Hstep).
    destruct (gostr.Index (drop (i + 2) str) ["}"%char]) as [end_|] eqn:Eend; [|done].
    destruct (interpolationTexts fuel str (i + 2 + (end_ + 1))) as [texts'|] eqn:Et;
      [|done].
    intros Ht' Hfuel Hall. simpl in Ht'. injection Ht' as <-.
    apply Forall_cons in Hall as [Hre Hall].
    destruct Hre as (exprParser & expr & p' & Hnew & Hsub).
    rewrite (Hstep _ eq_refl). unfold reparse. rewrite Hnew. simpl. rewrite Hsub.
    eapply IH; [exact Et|lia|done].
  - intros _ _ _. cbn [parseInterpolation_loop].
    rewrite findInterpolation_None
      by (intros i Hi; by apply (nextUnescaped_None _ pos)).
    eauto.
Qed.

End interpolation.

(** C3, as the parser has it.  For a string token whose text has an
    unescaped [${]: when [parseStringLiteral] returns an expression, it is
    an InterpolatedString at the position of the token, and its parts are,
    in order, the expressions that fresh parsers make of the texts of
    [interpolationTexts], literal parts between them: each text runs from
    behind an unescaped [${] to the first [}] that follows, so that no text
    holds a [}]; and when a fresh parser makes an expression of each of
    those texts, [parseStringLiteral] does return such an expression.  An
    unescaped [${] behind which the string has no [}] makes the parse fail,
    with the ParseError [unclosed interpolation in string] when it is the
    first one. *)
Theorem interpolation_reparses_up_to_first_brace `{GoStdlib}
    (parseValueWithPrecedence_rec : Z → Parser → PR (Expression * Parser))
    (p : Parser) (i : nat) :
  let str := gostr.bytes (tok_Value (current p)) in
  let stringPos := Parser_pos p in
  let texts := interpolationTexts (S (length str)) str 0 in
  let result := parseStringLiteral parseValueWithPrecedence_rec p in
  unescapedAt str i = true →
  (∀ expr p', result = Ok (expr, p') →
     ∃ ts parts,
       texts = Some ts ∧ expr = InterpolatedString parts stringPos ∧ p' = p
       ∧ reparsed parseValueWithPrecedence_rec p stringPos ts parts)
  ∧ (∀ ts, texts = Some ts → Forall (reparses parseValueWithPrecedence_rec p) ts →
       ∃ parts, result = Ok (InterpolatedString parts stringPos, p))
  ∧ (∀ j, unescapedAt str j = true →
       gostr.Index (drop (j + 2) str) ["}"%char] = None →
       texts = None ∧ isOk result = false)
  ∧ (∀ j, firstUnescaped str 0 j = true →
       gostr.Index (drop (j + 2) str) ["}"%char] = None →
       result = Err (ParseErr (Parser_error p "unclosed interpolation in string"))).
Proof.
  intros str stringPos texts result Hu.
  assert (result
          = (parts ← parseInterpolation_loop parseValueWithPrecedence_rec
                       (S (length str)) p stringPos str 0 [];
             Ok (InterpolatedString parts stringPos, p))) as Hres.
  { unfold result, parseStringLiteral. fold str.
    by rewrite (hasInterpolation_unescaped _ _ Hu). }
  split_and!.
  - intros expr p' Hok. rewrite Hres in Hok.
    destruct (parseInterpolation_loop _ _ _ _ _ _ _) as [parts| | |] eqn:Hloop; try done.
    injection Hok as <- <-.
    apply loop_reparses in Hloop as (ts & more & Hts & -> & Hre).
    exists ts, more. done.
  - intros ts Hts Hall.
    destruct (loop_builds parseValueWithPrecedence_rec (S (length str)) p stringPos str 0
                [] ts Hts ltac:(lia) Hall) as [parts Hloop].
    exists parts. rewrite Hres, Hloop. done.
  - intros j Hj Hnone.
    assert (texts = None) as Ht
      by (apply (interpolationTexts_unclosed _ _ _ j); [done|lia|done|lia]).
    split; [done|]. rewrite Hres.
    pose proof (loop_unclosed parseValueWithPrecedence_rec _ p stringPos _ _ [] Ht) as Hl.
    destruct (parseInterpolation_loop _ _ _ _ _ _ _); done.
  - intros j Hj Hnone. by apply (unclosed_interpolation _ _ j).
Qed.

(** The claim applied to the string [a${b}c]. *)
Lemma interpolation_reparses_up_to_first_brace_witness :
  unescapedAt (gostr.bytes "a${b}c") 1 = true
  ∧ ∃ ts parts,
      interpolationTexts 7 (gostr.bytes "a${b}c") 0 = Some ts
      ∧ parseStringLiteral (parseValueWithPrecedence_n 4) (parserOf (quoted "a${b}c"))
        = Ok (InterpolatedString parts (Parser_pos (parserOf (quoted "a${b}c"))),
              parserOf (quoted "a${b}c"))
      ∧ reparsed (parseValueWithPrecedence_n 4) (parserOf (quoted "a${b}c"))
          (Parser_pos (parserOf (quoted "a${b}c"))) ts parts.
Proof.
  split; [by vm_compute|].
  destruct (interpolation_reparses_up_to_first_brace (H := golib.lib)
              (parseValueWithPrecedence_n 4) (parserOf (quoted "a${b}c")) 1)
    as (Hok & _); [vm_compute; reflexivity|].
  destruct (parseStringLiteral (parseValueWithPrecedence_n 4) (parserOf (quoted "a${b}c")))
    as [[expr p']| | |] eqn:Hparse;
    [|vm_compute in Hparse; discriminate Hparse..].
  destruct (Hok expr p' eq_refl) as (ts & parts & Hts & -> & -> & Hre).
  exists ts, parts. split_and!; [exact Hts|reflexivity|exact Hre].
Defined.

(** C3 as stated does not hold: the text that is re-parsed ends at the
    first [}], not at the matching one.  In [a${{k: 1}.k}] the matching
    [}] closes the text [{k: 1}.k]; the parser re-parses [{k: 1], and the
    parse of the string fails. *)
Lemma interpolation_stops_at_first_brace :
  matchingText (gostr.bytes nestedBraces) 1 = Some (gostr.bytes "{k: 1}.k")
  ∧ interpolationTexts 13 (gostr.bytes nestedBraces) 0 = Some [gostr.bytes "{k: 1"]
  ∧ parseMessage (eval nestedBracesSource)
    = Some ("failed to parse interpolation expression " +:+ quoted "{k: 1"
            +:+ ": Parse error at line 1, column 6: expected '}', got EOF" +:+ newline).
Proof. split_and!; by vm_compute. Qed.

End interpolation_facts.

(** ** The evaluator *)

Section evaluator_facts.

Import parser runtime eval example cases.


Lemma bind_Ok {A B} (m : M A) (k : A → M B) σ a σ1 :
  m σ = (Ok a, σ1) → (m ≫= k) σ = k a σ1.
Proof. intros Hm. unfold mbind, M_bind. by rewrite Hm. Qed.

Lemma bind_Err {A B} (m : M A) (k : A → M B) σ err σ1 :
  m σ = (Err err, σ1) → (m ≫= k) σ = (Err err, σ1).
Proof. intros Hm. unfold mbind, M_bind. by rewrite Hm. Qed.

(** C4: [&&] and [||] evaluate both operands, the left one first.  Once
    the left operand has a value, whatever its truthiness, an error of the
    right operand is the error of the operation; and when the right operand
    has a value too, the result is the boolean that is the conjunction, or
    the disjunction, of the truthiness of the two values. *)
Theorem logical_operators_evaluate_both_operands `{GoStdlib} (fuel : nat) (e : evaluator)
    (l r : Expression) (pos : Pos) (σ σ1 : State) (vl : Value) :
  evalExpression_n fuel e l σ = (Ok vl, σ1) →
  (∀ err σ2, evalExpression_n fuel e r σ1 = (Err err, σ2) →
     evalExpression_n (S fuel) e (BinaryOp l "&&" r pos) σ = (Err err, σ2)
     ∧ evalExpression_n (S fuel) e (BinaryOp l "||" r pos) σ = (Err err, σ2))
  ∧ (∀ vr σ2, evalExpression_n fuel e r σ1 = (Ok vr, σ2) →
       evalExpression_n (S fuel) e (BinaryOp l "&&" r pos) σ
       = (Ok (BoolValue (IsTruthy (heap σ2) vl && IsTruthy (heap σ2) vr)), σ2)
       ∧ evalExpression_n (S fuel) e (BinaryOp l "||" r pos) σ
         = (Ok (BoolValue (IsTruthy (heap σ2) vl || IsTruthy (heap σ2) vr)), σ2)).
Proof.
  intros Hl. split.
  - intros err σ2 Hr. split; simpl; unfold evalBinaryOp; simpl;
      rewrite (bind_Ok _ _ _ _ _ Hl); by rewrite (bind_Err _ _ _ _ _ Hr).
  - intros vr σ2 Hr. split; simpl; unfold evalBinaryOp; simpl;
      rewrite (bind_Ok _ _ _ _ _ Hl); by rewrite (bind_Ok _ _ _ _ _ Hr).
Qed.


(** The claim applied to [false && 1/0] and [true || 1/0]. *)
Lemma logical_operators_evaluate_both_operands_witness :
  evalExpression_n 3 caller
    (BinaryOp (BooleanLiteral false (at_ 1 1)) "&&" divisionByZero (at_ 1 7)) store
  = (Err (errorString "division by zero"), store)
  ∧ evalExpression_n 3 caller
      (BinaryOp (BooleanLiteral true (at_ 1 1)) "||" divisionByZero (at_ 1 6)) store
    = (Err (errorString "division by zero"), store).
Proof.
  split.
  - refine (proj1 (proj1 (logical_operators_evaluate_both_operands (H := golib.lib) 2
                            caller (BooleanLiteral false (at_ 1 1)) divisionByZero
                            (at_ 1 7) store store (BoolValue false) _) _ _ _));
      by vm_compute.
  - refine (proj2 (proj1 (logical_operators_evaluate_both_operands (H := golib.lib) 2
                            caller (BooleanLiteral true (at_ 1 1)) divisionByZero
                            (at_ 1 6) store store (BoolValue true) _) _ _ _));
      by vm_compute.
Defined.




(** ** Indexing *)

(** What [evalIndexExpression] does with an object and an index that
    [runtime.ToString] converts. *)
Lemma object_index_is_coerced `{GoStdlib}
    (evalExpression_rec : evaluator → Expression → M Value)
    (e : evaluator) (object index : Expression) (pos : Pos) (σ σ1 σ2 : State)
    (o : loc) (indexVal val : Value) (key : string) :
  evalExpression_rec e object σ = (Ok (ObjectValue o), σ1) →
  evalExpression_rec e index σ1 = (Ok indexVal, σ2) →
  ToString indexVal = inl key →
  Get (heap σ2) o key = Some val →
  evalIndexExpression evalExpression_rec e object index pos σ = (Ok val, σ2).
Proof.
  intros Ho Hi Hk Hv. unfold evalIndexExpression.
  rewrite (bind_Ok _ _ _ _ _ Ho), (bind_Ok _ _ _ _ _ Hi). rewrite Hk.
  unfold mbind, M_bind, getHeap. by rewrite Hv.
Qed.

Lemma index_errors `{GoStdlib}
    (evalExpression_rec : evaluator → Expression → M Value)
    (e : evaluator) (object index : Expression) (pos : Pos) (σ σ1 σ2 : State)
    (objVal indexVal : Value) :
  evalExpression_rec e object σ = (Ok objVal, σ1) →
  evalExpression_rec e index σ1 = (Ok indexVal, σ2) →
  let result := evalIndexExpression evalExpression_rec e object index pos σ in
  (∀ a, objVal = ArrayValue a →
     (Type_ indexVal ≠ NumberType →
      result = (Err (errorf pos ("array index must be a number, got "
                                 +:+ ValueType_String (Type_ indexVal))), σ2))
     ∧ (∀ num, indexVal = NumberValue num →
          let idx := gofloat.to_int num in
          idx < 0 ∨ Z.of_nat (length (Elements (heap σ2) a)) ≤ idx →
          result = (Err (errorf pos ("array index out of bounds: " +:+ gostr.itoa idx)), σ2)))
  ∧ (∀ o, objVal = ObjectValue o →
       (Type_ indexVal = ArrayType ∨ Type_ indexVal = ObjectType →
        result = (Err (errorf pos "object index must be a string"), σ2))
       ∧ (∀ key, ToString indexVal = inl key → Get (heap σ2) o key = None →
            result = (Err (errorf pos ("undefined field: " +:+ key)), σ2)))
  ∧ (Type_ objVal ≠ ArrayType → Type_ objVal ≠ ObjectType →
     result = (Err (errorf pos ("cannot index " +:+ ValueType_String (Type_ objVal))), σ2)).
Proof.
  intros Ho Hi result. subst result. unfold evalIndexExpression.
  rewrite (bind_Ok _ _ _ _ _ Ho), (bind_Ok _ _ _ _ _ Hi).
  split; [|split]; [intros a ->; split|intros o ->; split|].
  - intros Hne. subst. destruct indexVal; try done.
  - intros num Hnum. subst indexVal. cbv zeta. intros Hidx. simpl.
    unfold mbind, M_bind, getHeap.
    destruct (gofloat.to_int num <? 0) eqn:E1; [done|].
    destruct (Z.of_nat (length (Elements (heap σ2) a)) <=? gofloat.to_int num) eqn:E2;
      [done|]. lia.
  - intros Hty. subst. destruct indexVal; simpl in *; try done; destruct Hty; done.
  - intros key Hk Hg. subst. rewrite Hk. unfold mbind, M_bind, getHeap. by rewrite Hg.
  - intros H1 H2. destruct objVal; done.
Qed.

(** C2, where the code departs from it: the index of an object need not be
    a string.  Whatever [runtime.ToString] converts (a string, a number, a
    boolean or null) is an index, the converted text being the key that is
    looked up: the value of the expression is the field of that name, and
    the error for a missing field names the converted key.  So [o[1]] is
    the field [1] of [o], and no eval error. *)
Theorem object_index_is_converted_to_string `{GoStdlib}
    (evalExpression_rec : evaluator → Expression → M Value)
    (e : evaluator) (object index : Expression) (pos : Pos) (σ σ1 σ2 : State)
    (o : loc) (indexVal : Value) :
  evalExpression_rec e object σ = (Ok (ObjectValue o), σ1) →
  evalExpression_rec e index σ1 = (Ok indexVal, σ2) →
  Type_ indexVal ≠ ArrayType → Type_ indexVal ≠ ObjectType →
  ∃ key,
    ToString indexVal = inl key
    ∧ (∀ num, indexVal = NumberValue num → key = strconv_FormatFloat num)
    ∧ (∀ b, indexVal = BoolValue b → key = BoolValue_String b)
    ∧ evalIndexExpression evalExpression_rec e object index pos σ
      = match Get (heap σ2) o key with
        | Some val => (Ok val, σ2)
        | None => (Err (errorf pos ("undefined field: " +:+ key)), σ2)
        end.
Proof.
  intros Ho Hi Ha Hobj.
  assert (∃ key, ToString indexVal = inl key) as [key Hkey]
    by (destruct indexVal; simpl; eauto; done).
  exists key. split_and!; [done| | |].
  - intros num ->. simpl in Hkey. congruence.
  - intros b ->. simpl in Hkey. congruence.
  - destruct (Get (heap σ2) o key) as [val|] eqn:Hget.
    + by eapply object_index_is_coerced.
    + destruct (index_errors evalExpression_rec e object index pos σ σ1 σ2
                  (ObjectValue o) indexVal Ho Hi) as (_ & Hobject & _).
      destruct (Hobject o eq_refl) as [_ Hmissing]. by apply Hmissing.
Qed.

(** The claim applied to an object literal with the field [1], indexed by
    the number 1. *)
Lemma object_index_is_converted_to_string_witness :
  (evalExpression_n 4 caller
     (IndexExpression
        (Object [KeyValueStatement "1" (NExpr (NumberLiteral 7 (at_ 1 7))) (at_ 1 2)]
           (at_ 1 1))
        (NumberLiteral 1 (at_ 1 10)) (at_ 1 9)) store).1
  = Ok (NumberValue 7).
Proof.
  edestruct (object_index_is_converted_to_string (H := golib.lib) (evalExpression_n 3)
               caller
               (Object [KeyValueStatement "1" (NExpr (NumberLiteral 7 (at_ 1 7))) (at_ 1 2)]
                  (at_ 1 1))
               (NumberLiteral 1 (at_ 1 10)) (at_ 1 9) store)
    as (key & Hkey & _ & _ & Heval).
  - vm_compute. reflexivity.
  - vm_compute. reflexivity.
  - done.
  - done.
  - change (evalExpression_n 4 caller (IndexExpression ?a ?b ?c))
      with (evalIndexExpression (evalExpression_n 3) caller a b c).
    rewrite Heval. injection Hkey as <-. by vm_compute.
Defined.

(** The same in two programs: [o[1]] and [o[true]] are the fields [1] and
    [true] of [o]. *)
Lemma object_index_examples :
  getField (eval numberIndex) 0 "r" = Some (NumberValue 7)
  ∧ getField (eval boolIndex) 0 "r" = Some (NumberValue 7).
Proof. split; by vm_compute. Qed.

(** ** Loops *)

Lemma break_leaves_iteration (evalExpression_rec : evaluator → Expression → M Value)
    (evalStatement_rec : evaluator → Node → M unit) (sub : evaluator) (pos : Pos)
    (body : list Node) (σ : State) :
  evalForIteration_loop evalExpression_rec evalStatement_rec sub
    (BreakStatement pos :: body) σ
  = (Err breakSignal, σ).
Proof. reflexivity. Qed.

Lemma break_ends_loop (iteration : Value → Value → M unit) (key elem : Value)
    (items : list (Value * Value)) (σ σ' : State) :
  iteration key elem σ = (Err breakSignal, σ') →
  evalForStatement_loop iteration ((key, elem) :: items) σ = (Ok (), σ').
Proof. intros Hit. simpl. by rewrite Hit. Qed.

(** C1, where the code departs from it: a [continue] that is an item of the
    body of a [for] is not skipped to the next iteration.  The [break] of
    its case leaves the [switch] only, the item goes to [collectNode] and
    from there to [evalStatement], which knows no such statement: the
    iteration, and with it the loop and the document, ends with the eval
    error [unsupported statement: *parser.ContinueStatement] at the
    position of the [continue], whatever follows it in the body. *)
Theorem continue_in_for_body_is_unsupported :
  (∀ `{GoStdlib} (fuel : nat) (sub : evaluator) (pos : Pos) (body : list Node)
     (σ : State),
     evalForIteration_loop (evalExpression_n (S fuel)) (evalStatement_n (S fuel)) sub
       (ContinueStatement pos :: body) σ
     = (Err (errorf pos "unsupported statement: *parser.ContinueStatement"), σ))
  ∧ evalError (eval continueLoop)
    = Some (EvalError "unsupported statement: *parser.ContinueStatement"
              "test.helmtk" 2 3).
Proof.
  split; [|by vm_compute].
  intros H fuel sub pos body σ. reflexivity.
Qed.

End evaluator_facts.

(** ** Scopes *)

Section scope_facts.

Import parser runtime eval scoping cases.


Lemma envKept_is_Some own E E' l :
  envKept own E E' → is_Some (E !! l) → is_Some (E' !! l).
Proof.
  intros HK [c Hc]. specialize (HK l c Hc).
  destruct c as [sc| | | | |]; eauto.
  destruct (decide (l ∈ own)); [destruct HK as [vs HK]|]; eauto.
Qed.

Lemma envKept_refl own E : envKept own E E.
Proof.
  intros l c Hl. destruct c as [sc| | | | |]; eauto.
  destruct (decide (l ∈ own)); [|done]. exists (vars sc). by destruct sc.
Qed.

Lemma envKept_fresh own (t : loc) E1 E2 E3 :
  envKept own E1 E2 → E1 !! t = None → envKept ({[t]} ∪ own) E2 E3 →
  envKept own E1 E3.
Proof.
  intros H12 Ht H23 l c Hl.
  assert (l ≠ t) as Hne by congruence.
  pose proof (H12 l c Hl) as H2.
  destruct c as [sc| | | | |];
    try (by apply (H23 l _ H2));
    try (destruct H2 as [c2 H2]; eapply envKept_is_Some; eauto).
  destruct (decide (l ∈ own)) as [Hown|Hown].
  - destruct H2 as [vs H2]. pose proof (H23 l _ H2) as H3. simpl in H3.
    destruct (decide (l ∈ {[t]} ∪ own)) as [_|Hout]; [done|].
    destruct Hout. apply elem_of_union. by right.
  - pose proof (H23 l _ H2) as H3. simpl in H3.
    destruct (decide (l ∈ {[t]} ∪ own)) as [Hin|_]; [|done].
    apply elem_of_union in Hin as [Hin%elem_of_singleton|Hin]; done.
Qed.

Lemma envKept_mono own own' E E' : own ⊆ own' → envKept own E E' → envKept own' E E'.
Proof.
  intros Hsub HK l c Hl. specialize (HK l c Hl).
  destruct c as [sc| | | | |]; try done.
  destruct (decide (l ∈ own)) as [Hin|Hout], (decide (l ∈ own')) as [Hin'|Hout'];
    try done.
  - destruct Hout'. by apply Hsub.
  - exists (vars sc). by destruct sc.
Qed.

Lemma envKept_trans own E1 E2 E3 :
  envKept own E1 E2 → envKept own E2 E3 → envKept own E1 E3.
Proof.
  intros H12 H23 l c Hl. pose proof (H12 l c Hl) as H2.
  destruct c as [sc| | | | |];
    try (by apply (H23 l _ H2));
    try (destruct H2 as [c2 H2]; eapply envKept_is_Some; eauto).
  destruct (decide (l ∈ own)) as [Hown|Hown].
  - destruct H2 as [vs H2]. pose proof (H23 l _ H2) as H3. simpl in H3.
    by rewrite decide_True in H3 by done.
  - pose proof (H23 l _ H2) as H3. simpl in H3.
    by rewrite decide_False in H3 by done.
Qed.

Lemma envKept_subseteq own (E E' : Env) : E ⊆ E' → envKept own E E'.
Proof.
  intros Hsub l c Hl.
  pose proof (lookup_weaken _ _ _ _ Hl Hsub) as Hl'.
  destruct c as [sc| | | | |]; eauto.
  destruct (decide (l ∈ own)); [|done]. exists (vars sc). by destruct sc.
Qed.

Lemma fresh_lookup (E : Env) : E !! fresh (dom E) = None.
Proof. apply not_elem_of_dom, is_fresh. Qed.

Lemma insert_fresh_subseteq (E : Env) (c : Cell) : E ⊆ <[fresh (dom E) := c]> E.
Proof. apply insert_subseteq, fresh_lookup. Qed.

(** What [NewScope] makes: a scope that was not in the store, with no
    variables and registries of its own or of its parent, in a store that
    is otherwise the same. *)
Lemma NewScope_spec (p : option loc) (E E' : Env) (s : loc) :
  NewScope p E = Some (s, E') →
  E !! s = None
  ∧ (∃ E1 g f t, E ⊆ E1 ∧ E1 !! s = None
       ∧ E' = <[s := CScope (mkScope p ∅ g f t)]> E1
       ∧ (p = None → E1 !! g = Some (CGlobals ∅) ∧ E1 !! f = Some (CFuncs ∅)
                     ∧ E1 !! t = Some (CTemplates ∅)))
  ∧ E ⊆ E'.
Proof.
  unfold NewScope.
  set (g := fresh (dom E)). set (E1 := <[g := CGlobals ∅]> E).
  set (f := fresh (dom E1)). set (E2 := <[f := CFuncs ∅]> E1).
  set (t := fresh (dom E2)). set (E3 := <[t := CTemplates ∅]> E2).
  set (s' := fresh (dom E3)). set (E4 := <[s' := CScope (mkScope p ∅ g f t)]> E3).
  assert (E ⊆ E1) as H1 by apply insert_fresh_subseteq.
  assert (E1 ⊆ E2) as H2 by apply insert_fresh_subseteq.
  assert (E2 ⊆ E3) as H3 by apply insert_fresh_subseteq.
  assert (E3 ⊆ E4) as H4 by apply insert_fresh_subseteq.
  assert (E3 !! s' = None) as Hs3 by apply fresh_lookup.
  assert (E ⊆ E3) as H03 by (etrans; [|exact H3]; etrans; done).
  assert (E !! s' = None) as Hs0.
  { destruct (E !! s') eqn:Es; [|done].
    by rewrite (lookup_weaken _ _ _ _ Es H03) in Hs3. }
  destruct p as [p|].
  - unfold Link. intros Hl.
    destruct (getScope s' E4) as [sc|] eqn:Esc; [|done]. simpl in Hl.
    destruct (getScope p E4) as [oc|] eqn:Eoc; [|done]. simpl in Hl.
    injection Hl as <- <-.
    unfold getScope, E4 in Esc. rewrite lookup_insert_eq in Esc.
    injection Esc as <-. simpl.
    split; [done|]. split.
    + exists E3, (globals oc), (funcs oc), (templates oc).
      split_and!; [done|done| |done]. unfold E4. by rewrite insert_insert_eq.
    + unfold E4. rewrite insert_insert_eq. etrans; [exact H03|].
      by apply insert_subseteq.
  - intros [= <- <-]. split; [done|]. split.
    + exists E3, g, f, t. split_and!; [done..|]. intros _. split_and!.
      * apply (lookup_weaken E1); [apply lookup_insert_eq|by etrans].
      * apply (lookup_weaken E2); [apply lookup_insert_eq|done].
      * apply lookup_insert_eq.
    + by etrans.
Qed.

Lemma bind_inv_Ok {A B} (m : M A) (k : A → M B) σ b σ' :
  (m ≫= k) σ = (Ok b, σ') → ∃ a σ1, m σ = (Ok a, σ1) ∧ k a σ1 = (Ok b, σ').
Proof.
  unfold mbind, M_bind. destruct (m σ) as [[a| | |] σ1]; try done. eauto.
Qed.

Lemma frames_ret {A} own (a : A) : frames own (mret a).
Proof. intros σ r σ' [= _ <-]. apply envKept_refl. Qed.

Lemma frames_throw {A} own err : frames own (@throw A err).
Proof. intros σ r σ' [= _ <-]. apply envKept_refl. Qed.

Lemma frames_panic {A} own : frames own (@panic A).
Proof. intros σ r σ' [= _ <-]. apply envKept_refl. Qed.

Lemma frames_outOfFuel {A} own : frames own (@outOfFuel A).
Proof. intros σ r σ' [= _ <-]. apply envKept_refl. Qed.

Lemma frames_getHeap own : frames own getHeap.
Proof. intros σ r σ' [= _ <-]. apply envKept_refl. Qed.

Lemma frames_modifyHeap own f : frames own (modifyHeap f).
Proof. intros σ r σ' [= _ <-]. apply envKept_refl. Qed.

Lemma frames_allocHeap {A} own (f : Heap → A * Heap) : frames own (allocHeap f).
Proof.
  intros σ r σ'. unfold allocHeap. destruct (f (heap σ)).
  intros [= _ <-]. apply envKept_refl.
Qed.

Lemma frames_readEnv {A} own (f : Env → option A) : frames own (readEnv f).
Proof.
  intros σ r σ'. unfold readEnv.
  destruct (f (env σ)); intros [= _ <-]; apply envKept_refl.
Qed.

Lemma frames_updateEnv own (f : Env → option Env) :
  (∀ E E', f E = Some E' → envKept own E E') → frames own (updateEnv f).
Proof.
  intros Hf σ r σ'. unfold updateEnv.
  destruct (f (env σ)) eqn:E; intros [= _ <-]; [by apply Hf|apply envKept_refl].
Qed.

Lemma frames_ofOption {A} own (o : option A) : frames own (ofOption o).
Proof. destruct o; [apply frames_ret|apply frames_panic]. Qed.

Lemma frames_ofSum {A} own (r : A + string) : frames own (ofSum r).
Proof. destruct r; [apply frames_ret|apply frames_throw]. Qed.

Lemma frames_callHost own fn pos args : frames own (callHost fn pos args).
Proof.
  intros σ r σ'. unfold callHost.
  destruct (fn args (heap σ)) as [[| | |] h]; intros [= _ <-]; apply envKept_refl.
Qed.

Lemma frames_bind {A B} own (m : M A) (k : A → M B) :
  frames own m → (∀ a, frames own (k a)) → frames own (m ≫= k).
Proof.
  intros Hm Hk σ r σ'. unfold mbind, M_bind.
  destruct (m σ) as [[a| | |] σ1] eqn:E; intros Hr;
    try (injection Hr as <- <-; by eapply Hm).
  eapply envKept_trans; [by eapply Hm|by eapply Hk].
Qed.

Lemma frames_forEach {A} own (l : list A) (f : A → M unit) :
  (∀ x, frames own (f x)) → frames own (forEach l f).
Proof.
  intros Hf. induction l as [|x l IH]; simpl.
  - apply frames_ret.
  - apply frames_bind; [apply Hf|by intros _].
Qed.

Lemma frames_mapM {A B} own (f : A → M B) (l : list A) :
  (∀ x, frames own (f x)) → frames own (mapM f l).
Proof.
  intros Hf. induction l as [|x l IH]; simpl.
  - apply frames_ret.
  - apply frames_bind; [apply Hf|intros y].
    apply frames_bind; [apply IH|intros ys]. apply frames_ret.
Qed.

Lemma frames_NewScope {B} own (p : option loc) (k : loc → M B) :
  (∀ s, frames ({[s]} ∪ own) (k s)) → frames own (allocEnv (NewScope p) ≫= k).
Proof.
  intros Hk σ r σ'. unfold mbind, M_bind, allocEnv.
  destruct (NewScope p (env σ)) as [[s E1]|] eqn:EN.
  - intros Hr. apply NewScope_spec in EN as (Hs & _ & Hsub).
    eapply envKept_fresh; [by apply envKept_subseteq|done|].
    apply (Hk s _ _ _ Hr).
  - intros [= _ <-]. apply envKept_refl.
Qed.

Lemma envKept_Scope_Set own s name val E E' :
  s ∈ own → Scope_Set s name val E = Some E' → envKept own E E'.
Proof.
  intros Hs. unfold Scope_Set, getScope.
  destruct (E !! s) as [[sc| | | | |]|] eqn:Es; try done. simpl. intros [= <-].
  intros l c Hl. destruct (decide (l = s)) as [->|Hne].
  - rewrite Es in Hl. injection Hl as <-. rewrite decide_True by done.
    rewrite lookup_insert_eq. eauto.
  - rewrite lookup_insert_ne by done.
    destruct c as [sc'| | | | |]; eauto.
    destruct (decide (l ∈ own)); [|done]. exists (vars sc'). by destruct sc'.
Qed.

Lemma frames_Scope_Set own s name val :
  s ∈ own → frames own (updateEnv (Scope_Set s name val)).
Proof. intros Hs. apply frames_updateEnv. intros E E'. by apply envKept_Scope_Set. Qed.

Lemma frames_newCell own c : frames own (newCell c).
Proof.
  intros σ r σ' [= _ <-]. simpl. apply envKept_subseteq, insert_fresh_subseteq.
Qed.

Lemma envKept_insert_collector own (E : Env) (c : loc) (old new : Cell) :
  E !! c = Some old →
  (match old with CDocuments _ | CSingle _ => True | _ => False end) →
  envKept own E (<[c := new]> E).
Proof.
  intros Hc Hold l c' Hl. destruct (decide (l = c)) as [->|Hne].
  - rewrite Hc in Hl. injection Hl as <-. rewrite lookup_insert_eq.
    destruct old; try done; eauto.
  - rewrite lookup_insert_ne by done.
    destruct c' as [sc'| | | | |]; eauto.
    destruct (decide (l ∈ own)); [|done]. exists (vars sc'). by destruct sc'.
Qed.

Lemma frames_documents own c : frames own (documents c).
Proof. apply frames_readEnv. Qed.

Lemma frames_singleVal own c : frames own (singleVal c).
Proof. apply frames_readEnv. Qed.

Lemma frames_addDocument own c val : frames own (addDocument c val).
Proof.
  intros σ r σ'. unfold addDocument, mbind, M_bind, documents, readEnv, updateEnv.
  destruct (env σ !! c) as [[| | | |ds|]|] eqn:Ec; intros [= _ <-];
    try apply envKept_refl.
  simpl. by eapply envKept_insert_collector.
Qed.

Lemma frames_setVal own c val : frames own (setVal c val).
Proof.
  intros σ r σ'. unfold setVal, mbind, M_bind, singleVal, readEnv, updateEnv, throw.
  destruct (env σ !! c) as [[| | | | |[old|]]|] eqn:Ec; intros [= _ <-];
    try apply envKept_refl.
  simpl. by eapply envKept_insert_collector.
Qed.

Lemma frames_appendElements own a vals : frames own (appendElements a vals).
Proof. apply frames_modifyHeap. Qed.

Lemma frames_setField own o key val : frames own (setField o key val).
Proof. apply frames_modifyHeap. Qed.

Lemma frames_newArray own : frames own newArray.
Proof. apply frames_allocHeap. Qed.

Lemma frames_newObject own : frames own newObject.
Proof. apply frames_allocHeap. Qed.

Lemma frames_includeError `{GoStdlib} own pos name m :
  frames own m → frames own (includeError pos name m).
Proof.
  intros Hm σ r σ'. unfold includeError.
  destruct (m σ) as [[| | |] σ1] eqn:E; intros [= _ <-]; by eapply Hm.
Qed.

Lemma frames_evalForStatement_loop own (iteration : Value → Value → M unit) items :
  (∀ key elem, frames own (iteration key elem)) →
  frames own (evalForStatement_loop iteration items).
Proof.
  intros Hit. induction items as [|[key elem] items IH]; intros σ r σ'; simpl.
  - intros [= _ <-]. apply envKept_refl.
  - destruct (iteration key elem σ) as [[[]|err| |] σ1] eqn:E.
    + intros Hr. eapply envKept_trans; [by eapply Hit|by eapply IH].
    + destruct err; intros [= _ <-]; by eapply Hit.
    + intros [= _ <-]; by eapply Hit.
    + intros [= _ <-]; by eapply Hit.
Qed.

Lemma frames_collectSingleValue own e n (cb : evaluator → M unit) :
  (∀ c, frames own (cb (mkEvaluator (scope e) (CollSingle c)))) →
  frames own (collectSingleValue e n cb).
Proof.
  intros Hcb. unfold collectSingleValue.
  apply frames_bind; [apply frames_newCell|intros c].
  apply frames_bind; [apply Hcb|intros _].
  apply frames_bind; [apply frames_singleVal|intros [v|]]; [apply frames_ret|].
  apply frames_bind; [apply frames_ofOption|intros ?]. apply frames_throw.
Qed.

Create HintDb frames discriminated.

#[local] Hint Resolve frames_ret frames_throw frames_panic frames_outOfFuel
  frames_getHeap frames_modifyHeap frames_allocHeap frames_readEnv frames_ofOption
  frames_ofSum frames_callHost frames_newCell frames_documents frames_singleVal
  frames_addDocument frames_setVal frames_appendElements frames_setField
  frames_newArray frames_newObject : frames.
#[local] Hint Extern 1 (_ ∈ _) => simpl; set_solver : frames.
#[local] Hint Resolve frames_Scope_Set : frames.

Ltac frames_step :=
  lazymatch goal with
  | |- frames _ (allocEnv (NewScope _) ≫= _) => apply frames_NewScope; intros ?
  | |- frames _ (_ ≫= _) => apply frames_bind; [|intros ?]
  | |- frames _ (forEach _ _) => apply frames_forEach; intros ?
  | |- frames _ (mapM _ _) => apply frames_mapM; intros ?
  | |- frames _ (includeError _ _ _) => apply frames_includeError
  | |- frames _ (evalForStatement_loop _ _) =>
      apply frames_evalForStatement_loop; intros ? ?
  | |- frames _ (collectSingleValue _ _ _) => apply frames_collectSingleValue; intros ?
  | |- frames _ (match ?x with _ => _ end) => destruct x
  | |- frames _ (let _ := _ in _) => cbv zeta
  end.

Ltac frames_tac := repeat frames_step; eauto with frames.

Ltac head_of t := lazymatch t with ?f _ => head_of f | _ => t end.
Ltac frames_unfold :=
  lazymatch goal with
  | |- frames _ ?t => let hd := head_of t in unfold hd
  end.

Section walk.
Context `{GoStdlib}.
Variable evalExpression_rec : evaluator → Expression → M Value.
Variable evalStatement_rec : evaluator → Node → M unit.
Hypothesis rec_expression :
  ∀ own e x, scope e ∈ own → frames own (evalExpression_rec e x).
Hypothesis rec_statement :
  ∀ own e n, scope e ∈ own → frames own (evalStatement_rec e n).

#[local] Hint Resolve rec_expression rec_statement : frames.

Lemma frames_evalAdd own a b : frames own (evalAdd a b).
Proof. unfold evalAdd. frames_tac. Qed.

Lemma frames_arith own msg op a b :
  (∀ x y, frames own (op x y)) → frames own (arith msg op a b).
Proof. intros Hop. unfold arith. frames_tac. Qed.

Lemma frames_evalSub own a b : frames own (evalSub a b).
Proof. apply frames_arith. intros. frames_tac. Qed.

Lemma frames_evalMul own a b : frames own (evalMul a b).
Proof. apply frames_arith. intros. frames_tac. Qed.

Lemma frames_evalDiv own a b : frames own (evalDiv a b).
Proof. apply frames_arith. intros. frames_tac. Qed.

Lemma frames_evalCompare own r : frames own (evalCompare r).
Proof. unfold evalCompare. frames_tac. Qed.

#[local] Hint Resolve frames_evalAdd frames_evalSub frames_evalMul frames_evalDiv
  frames_evalCompare : frames.

Lemma frames_evalIdentifier own e name pos : frames own (evalIdentifier e name pos).
Proof. unfold evalIdentifier. frames_tac. Qed.

Lemma frames_copyIfBound own e ctx name : frames own (copyIfBound e ctx name).
Proof. unfold copyIfBound. frames_tac. Qed.

#[local] Hint Resolve frames_evalIdentifier frames_copyIfBound : frames.

Lemma frames_evalCurrentContext own e : frames own (evalCurrentContext e).
Proof. unfold evalCurrentContext. frames_tac. Qed.

Lemma frames_callFunction own e pos name args :
  frames own (callFunction e pos name args).
Proof. unfold callFunction. frames_tac. Qed.

#[local] Hint Resolve frames_evalCurrentContext frames_callFunction : frames.

Lemma frames_collectNode own e node :
  scope e ∈ own → frames own (collectNode evalExpression_rec evalStatement_rec e node).
Proof. intros He. unfold collectNode. frames_tac. Qed.

#[local] Hint Resolve frames_collectNode : frames.

(** The new scope of an include and its link to the caller's scope only
    add cells to the store. *)
Lemma NewScope_Link (E E1 E2 : Env) (t s : loc) :
  NewScope None E = Some (t, E1) → Link t s E1 = Some E2 →
  E !! t = None ∧ E ⊆ E2
  ∧ ∃ sc, getScope s E1 = Some sc
          ∧ E2 !! t = Some (CScope (mkScope None ∅ (globals sc) (funcs sc) (templates sc))).
Proof.
  intros HN HL. apply NewScope_spec in HN as (Ht & (E0 & g & f & tm & H0 & Ht0 & -> & _) & Hsub).
  unfold Link in HL.
  destruct (getScope t _) as [sc|] eqn:Esc; [|done]. simpl in HL.
  destruct (getScope s _) as [oc|] eqn:Eoc; [|done]. simpl in HL.
  injection HL as <-.
  unfold getScope in Esc. rewrite lookup_insert_eq in Esc. injection Esc as <-. simpl.
  split; [done|]. split.
  - rewrite insert_insert_eq. etrans; [exact H0|]. by apply insert_subseteq.
  - exists oc. split; [done|]. by rewrite lookup_insert_eq.
Qed.

Lemma frames_includeScope own e context :
  scope e ∈ own → frames own (includeScope evalExpression_rec e context).
Proof.
  intros He σ r σ'. unfold includeScope.
  unfold mbind at 1, M_bind at 1, allocEnv at 1.
  destruct (NewScope None (env σ)) as [[t E1]|] eqn:EN;
    [|intros [= _ <-]; apply envKept_refl].
  unfold mbind at 1, M_bind at 1, updateEnv at 1. simpl.
  destruct (Link t (scope e) E1) as [E2|] eqn:EL.
  - destruct (NewScope_Link _ _ _ _ _ EN EL) as (Ht & Hsub & _).
    intros Hr. eapply envKept_fresh; [by apply envKept_subseteq|exact Ht|].
    revert Hr.
    match goal with
    | |- ?m ?s = _ → _ => assert (frames ({[t]} ∪ own) m) as Hm
    end.
    { frames_tac. }
    intros Hr. apply (Hm _ _ _ Hr).
  - intros [= _ <-]. simpl. apply NewScope_spec in EN as (_ & _ & Hsub).
    by apply envKept_subseteq.
Qed.

Lemma frames_includeBody own tmplEval tmpl name pos :
  scope tmplEval ∈ own →
  frames own (includeBody evalExpression_rec evalStatement_rec tmplEval tmpl name pos).
Proof. intros He. unfold includeBody. frames_tac. Qed.

Lemma frames_evalIncludeStatement own e name context pos :
  scope e ∈ own →
  frames own (evalIncludeStatement evalExpression_rec evalStatement_rec e name context pos).
Proof.
  intros He. unfold evalIncludeStatement.
  apply frames_bind; [frames_tac|intros [tmpl|err]]; [|frames_tac].
  intros σ r σ'. unfold mbind, M_bind.
  destruct (includeScope _ e context σ) as [[t| | |] σ1] eqn:Einc;
    try (intros [= _ <-]; by eapply frames_includeScope).
  intros Hr.
  (* the scope of the template is new *)
  pose proof (frames_includeScope own e context He _ _ _ Einc) as H01.
  assert (env σ !! t = None ∨ t ∈ own) as Hfresh.
  { revert Einc. unfold includeScope.
    unfold mbind at 1, M_bind at 1, allocEnv at 1.
    destruct (NewScope None (env σ)) as [[t' E1]|] eqn:EN; [|done].
    unfold mbind at 1, M_bind at 1, updateEnv at 1. simpl.
    destruct (Link t' (scope e) E1) as [E2|] eqn:EL; [|done].
    intros Hinc. apply bind_inv_Ok in Hinc as ([] & σ2 & _ & [= <- _]).
    left. by apply NewScope_spec in EN as (Ht & _). }
  destruct Hfresh as [Hfresh|Hown].
  - assert (envKept ({[t]} ∪ own) (env σ1) (env σ')) as H12.
    { eapply (frames_includeBody ({[t]} ∪ own)); [|exact Hr]. simpl. set_solver. }
    eapply envKept_fresh; [apply envKept_refl|exact Hfresh|].
    eapply envKept_trans; [|exact H12].
    eapply envKept_mono; [|exact H01]. set_solver.
  - eapply envKept_trans; [exact H01|].
    eapply (frames_includeBody own); [|exact Hr]. done.
Qed.

#[local] Hint Resolve frames_evalIncludeStatement : frames.

Lemma frames_evalArray own e body :
  scope e ∈ own → frames own (evalArray evalExpression_rec evalStatement_rec e body).
Proof. intros He. unfold evalArray. frames_tac. Qed.

Lemma frames_evalObject own e body :
  scope e ∈ own → frames own (evalObject evalStatement_rec e body).
Proof. intros He. unfold evalObject. frames_tac. Qed.

Lemma frames_evalMemberExpression own e object member pos :
  scope e ∈ own →
  frames own (evalMemberExpression evalExpression_rec e object member pos).
Proof. intros He. unfold evalMemberExpression. frames_tac. Qed.

Lemma frames_evalIndexExpression own e object index pos :
  scope e ∈ own →
  frames own (evalIndexExpression evalExpression_rec e object index pos).
Proof. intros He. unfold evalIndexExpression. frames_tac. Qed.

Lemma frames_evalPipe own e l r pos :
  scope e ∈ own → frames own (evalPipe evalExpression_rec e l r pos).
Proof. intros He. unfold evalPipe. frames_tac. Qed.

#[local] Hint Resolve frames_evalPipe : frames.

Lemma frames_evalBinaryOp own e l op r pos :
  scope e ∈ own → frames own (evalBinaryOp evalExpression_rec e l op r pos).
Proof.
  intros He. unfold evalBinaryOp, evalEqual, evalNotEqual, evalLess, evalLessEqual,
    evalGreater, evalGreaterEqual.
  frames_tac.
Qed.

Lemma frames_evalUnaryOp own e op operand pos :
  scope e ∈ own → frames own (evalUnaryOp evalExpression_rec e op operand pos).
Proof. intros He. unfold evalUnaryOp. frames_tac. Qed.

Lemma frames_evalCallExpression own e fn args pos :
  scope e ∈ own → frames own (evalCallExpression evalExpression_rec e fn args pos).
Proof. intros He. unfold evalCallExpression. frames_tac. Qed.

Lemma frames_evalInterpolatedString_loop own e pos parts result :
  scope e ∈ own →
  frames own (evalInterpolatedString_loop evalExpression_rec e pos parts result).
Proof.
  intros He. revert result. induction parts as [|part parts IH]; intros result; simpl;
    frames_tac.
Qed.

#[local] Hint Resolve frames_evalArray frames_evalObject frames_evalMemberExpression
  frames_evalIndexExpression frames_evalBinaryOp frames_evalUnaryOp
  frames_evalCallExpression frames_evalInterpolatedString_loop : frames.

Lemma frames_evalExpression own e node :
  scope e ∈ own →
  frames own (evalExpression evalExpression_rec evalStatement_rec e node).
Proof.
  intros He. unfold evalExpression, evalInterpolatedString. frames_tac.
Qed.

#[local] Hint Resolve frames_evalExpression : frames.

Lemma frames_evalIfStatement own e condition body else_ :
  scope e ∈ own →
  frames own (evalIfStatement evalExpression_rec evalStatement_rec e condition body else_).
Proof. intros He. unfold evalIfStatement. frames_tac. Qed.

Lemma frames_evalWithStatement own e context varName body :
  scope e ∈ own →
  frames own (evalWithStatement evalExpression_rec evalStatement_rec e context varName body).
Proof. intros He. unfold evalWithStatement. frames_tac. Qed.

#[local] Hint Resolve frames_evalIfStatement frames_evalWithStatement : frames.

Lemma frames_evalValueStatement own e node :
  scope e ∈ own →
  frames own (evalValueStatement evalExpression_rec evalStatement_rec e node).
Proof. intros He. unfold evalValueStatement. frames_tac. Qed.

#[local] Hint Resolve frames_evalValueStatement : frames.

Lemma frames_evalKeyValue own e key value pos :
  scope e ∈ own →
  frames own (evalKeyValue evalExpression_rec evalStatement_rec e key value pos).
Proof. intros He. unfold evalKeyValue. frames_tac. Qed.

Lemma frames_evalSpreadStatement own e operand pos :
  scope e ∈ own →
  frames own (evalSpreadStatement evalExpression_rec evalStatement_rec e operand pos).
Proof. intros He. unfold evalSpreadStatement. frames_tac. Qed.

Lemma frames_evalForIteration_loop own sub body :
  scope sub ∈ own →
  frames own (evalForIteration_loop evalExpression_rec evalStatement_rec sub body).
Proof.
  intros He. induction body as [|item body IH]; simpl; frames_tac.
Qed.

#[local] Hint Resolve frames_evalForIteration_loop : frames.

Lemma frames_evalForIteration own e keyVar valueVar body key value :
  scope e ∈ own →
  frames own (evalForIteration evalExpression_rec evalStatement_rec e keyVar valueVar
                body key value).
Proof. intros He. unfold evalForIteration. frames_tac. Qed.

#[local] Hint Resolve frames_evalForIteration : frames.

Lemma frames_evalForStatement own e keyVar valueVar iterable body :
  scope e ∈ own →
  frames own (evalForStatement evalExpression_rec evalStatement_rec e keyVar valueVar
                iterable body).
Proof. intros He. unfold evalForStatement. frames_tac. Qed.

Lemma frames_evalAssignmentStatement own e name value :
  scope e ∈ own →
  frames own (evalAssignmentStatement evalExpression_rec evalStatement_rec e name value).
Proof. intros He. unfold evalAssignmentStatement. frames_tac. Qed.

Lemma frames_evalLetStatement own e name value :
  scope e ∈ own →
  frames own (evalLetStatement evalExpression_rec evalStatement_rec e name value).
Proof. intros He. unfold evalLetStatement. frames_tac. Qed.

#[local] Hint Resolve frames_evalKeyValue frames_evalSpreadStatement
  frames_evalForStatement frames_evalAssignmentStatement frames_evalLetStatement : frames.

Lemma frames_evalStatement own e node :
  scope e ∈ own →
  frames own (evalStatement evalExpression_rec evalStatement_rec e node).
Proof. intros He. unfold evalStatement. frames_tac. Qed.

End walk.

(** Whatever the fuel, an evaluation writes to no scope but its own and the
    scopes it makes. *)
Lemma eval_frames `{GoStdlib} (fuel : nat) :
  (∀ own e x, scope e ∈ own → frames own (evalExpression_n fuel e x))
  ∧ (∀ own e n, scope e ∈ own → frames own (evalStatement_n fuel e n)).
Proof.
  induction fuel as [|fuel [IHe IHs]].
  - split; intros; apply frames_outOfFuel.
  - split; intros own e x He; simpl.
    + by apply frames_evalExpression.
    + by apply frames_evalStatement.
Qed.

Lemma parentsAllocated_spec (E : Env) (l : loc) (sc : Scope) (p : loc) :
  parentsAllocated E = true → E !! l = Some (CScope sc) → parent sc = Some p →
  is_Some (getScope p E).
Proof.
  unfold parentsAllocated. rewrite forallb_forall. intros Hall Hl Hp.
  specialize (Hall (l, CScope sc)). simpl in Hall. rewrite Hp in Hall.
  eapply bool_decide_eq_true_1, Hall, list_elem_of_In, elem_of_map_to_list, Hl.
Qed.

Lemma Get_go_mono (n m : nat) (s : loc) (name : string) (E : Env) r :
  Get_go n s name E = Some r → (n ≤ m)%nat → Get_go m s name E = Some r.
Proof.
  revert m s. induction n as [|n IH]; intros m s Hget Hle; [done|].
  destruct m as [|m]; [lia|]. simpl in *.
  destruct (getScope s E) as [sc|]; [|done]. simpl in *.
  destruct (vars sc !! name); [done|].
  destruct (parent sc) as [p|]; [|done]. apply IH; [done|lia].
Qed.

Lemma envKept_size own (E E' : Env) : envKept own E E' → (size E ≤ size E')%nat.
Proof.
  intros HK. rewrite <- !size_dom. apply subseteq_size.
  intros l Hl%elem_of_dom. apply elem_of_dom. by eapply envKept_is_Some.
Qed.

Lemma getScope_Some (l : loc) (E : Env) (sc : Scope) :
  getScope l E = Some sc ↔ E !! l = Some (CScope sc).
Proof.
  unfold getScope. destruct (E !! l) as [[| | | | |]|]; split; congruence.
Qed.

(** A lookup that starts in a scope of [E0] and follows parents that are
    scopes of [E0] does not meet the scope [t], which [E0] has not, and
    gives in [E'] what it gives in [E1]. *)
Lemma Get_go_kept (caller : loc) (t : loc) (E0 E1 E' : Env) (name : string) :
  parentsAllocated E0 = true → E0 !! t = None →
  envKept {[caller]} E0 E1 → envKept {[t]} E1 E' →
  ∀ fuel s r, is_Some (getScope s E0) →
    Get_go fuel s name E1 = Some r → Get_go fuel s name E' = Some r.
Proof.
  intros Hclosed Ht H01 H1' fuel. induction fuel as [|fuel IH]; intros s r Hs; [done|].
  destruct Hs as [sc0 Hs%getScope_Some]. simpl.
  assert (s ≠ t) as Hne by congruence.
  destruct (getScope s E1) as [sc1|] eqn:Es1; [|done]. simpl.
  apply getScope_Some in Es1.
  assert (parent sc1 = parent sc0) as Hpar.
  { pose proof (H01 s _ Hs) as H1. simpl in H1.
    destruct (decide (s ∈ ({[caller]} : gset loc))).
    - destruct H1 as [vs H1]. rewrite H1 in Es1. by injection Es1 as <-.
    - rewrite H1 in Es1. by injection Es1 as <-. }
  pose proof (H1' s _ Es1) as Hs'. simpl in Hs'.
  rewrite decide_False in Hs' by set_solver.
  apply getScope_Some in Hs'. rewrite Hs'. simpl.
  destruct (vars sc1 !! name); [done|].
  destruct (parent sc1) as [p|] eqn:Ep.
  - apply IH. eapply parentsAllocated_spec; [done|exact Hs|congruence].
  - destruct (getGlobals (globals sc1) E1) as [m|] eqn:Eg; [|done]. simpl.
    unfold getGlobals in *.
    destruct (E1 !! globals sc1) as [[| g | | | |]|] eqn:Eg1; try done.
    injection Eg as ->. pose proof (H1' _ _ Eg1) as Hg'. simpl in Hg'.
    by rewrite Hg'.
Qed.

(** [evalIncludeStatement] is its two halves in turn, once the template is
    found. *)
Lemma include_in_two_halves `{GoStdlib}
    (evalExpression_rec : evaluator → Expression → M Value)
    (evalStatement_rec : evaluator → Node → M unit)
    (e : evaluator) (name : string) (context : option Expression) (pos : Pos)
    (tmpl : Template) (σ : State) :
  GetTemplate (scope e) name (env σ) = Some (inl tmpl) →
  evalIncludeStatement evalExpression_rec evalStatement_rec e name context pos σ
  = (tmplScope ← includeScope evalExpression_rec e context;
     includeBody evalExpression_rec evalStatement_rec (mkEvaluator tmplScope (coll e))
       tmpl name pos) σ.
Proof.
  intros Hget. unfold evalIncludeStatement.
  unfold mbind at 1, M_bind at 1, readEnv. by rewrite Hget.
Qed.

(** C8: the scope in which an include evaluates the body of a template.
    [evalIncludeStatement] makes it in a first half, [includeScope], and
    walks the body in a second, [includeBody].  The scope is a new one; it
    has no parent, and its global, function and template registries are
    those of the caller's scope, when the body starts and when it ends.
    The body changes no other scope: what a [let] binds in the template
    stays in the new scope, and a variable has in the caller's scope after
    the body the value, or the absence, it had before.  The functions of
    the caller are the functions of the body, and the templates registered
    in the caller's registry are the templates the body can include. *)
Theorem include_scope_is_isolated `{GoStdlib} (fuel : nat) (e : evaluator)
    (context : option Expression) (tmpl : Template) (name : string) (pos : Pos)
    (σ σ1 σ' : State) (caller : Scope) (t : loc) (r : Res error unit) :
  getScope (scope e) (env σ) = Some caller →
  includeScope (evalExpression_n fuel) e context σ = (Ok t, σ1) →
  includeBody (evalExpression_n fuel) (evalStatement_n fuel)
    (mkEvaluator t (coll e)) tmpl name pos σ1 = (r, σ') →
  (** the scope of the template is a new one *)
  env σ !! t = None
  (** without parent and with the registries of the caller's scope, when
      the body starts and when it ends *)
  ∧ (∃ vs, getScope t (env σ1)
           = Some (mkScope None vs (globals caller) (funcs caller) (templates caller)))
  ∧ (∃ vs, getScope t (env σ')
           = Some (mkScope None vs (globals caller) (funcs caller) (templates caller)))
  (** the body leaves every other scope as it is *)
  ∧ (∀ l sc, l ≠ t → getScope l (env σ1) = Some sc → getScope l (env σ') = Some sc)
  (** so that a variable has in the caller's scope after the body the
      value, or the absence, it had before *)
  ∧ (parentsAllocated (env σ) = true →
     ∀ x v, Scope_Get (scope e) x (env σ1) = Some v →
            Scope_Get (scope e) x (env σ') = Some v)
  (** the functions and templates of the caller are those of the body *)
  ∧ (∀ fname fn, GetFunction (scope e) fname (env σ) = Some fn →
       GetFunction t fname (env σ1) = Some fn ∧ GetFunction t fname (env σ') = Some fn)
  ∧ (∀ m tname, getTemplates (templates caller) (env σ) = Some m →
       let found := match m !! tname with
                    | Some tm => inl tm
                    | None => inr ("undefined template: " +:+ tname)
                    end in
       GetTemplate t tname (env σ1) = Some found
       ∧ GetTemplate t tname (env σ') = Some found).
Proof.
  intros Hcaller Hinc Hbody. apply getScope_Some in Hcaller.
  (* the two steps that make the scope *)
  pose proof Hinc as Hinc'. unfold includeScope in Hinc'.
  apply bind_inv_Ok in Hinc' as (t0 & σa & Halloc & Hinc').
  apply bind_inv_Ok in Hinc' as ([] & σb & Hlink & Hinc').
  apply bind_inv_Ok in Hinc' as ([] & σc & Hctx & [= -> ->]).
  unfold allocEnv in Halloc.
  destruct (NewScope None (env σ)) as [[t' Ea]|] eqn:EN; [|done].
  injection Halloc as -> <-.
  unfold updateEnv in Hlink. simpl in Hlink.
  destruct (Link t (scope e) Ea) as [Eb|] eqn:EL; [|done].
  injection Hlink as <-.
  destruct (NewScope_Link _ _ _ _ _ EN EL) as (Hfresh & Hsub & oc & Hoc & Htb).
  assert (oc = caller) as ->.
  { apply NewScope_spec in EN as (_ & _ & Hsuba).
    apply getScope_Some in Hoc.
    rewrite (lookup_weaken _ _ _ _ Hcaller Hsuba) in Hoc. by injection Hoc as <-. }
  assert (t ≠ scope e) as Hne by congruence.
  (* the context is evaluated by the caller and copied into the new scope *)
  assert (envKept {[t; scope e]} Eb (env σ1)) as Hb1.
  { revert Hctx.
    match goal with
    | |- ?m ?s = _ → _ => assert (frames {[t; scope e]} m) as Hm
    end.
    { destruct context as [ctxExpr|]; [|apply frames_ret].
      apply frames_bind; [apply eval_frames; simpl; set_solver|intros val].
      destruct val; try apply frames_throw.
      apply frames_bind; [apply frames_getHeap|intros h].
      apply frames_forEach. intros kv. apply frames_Scope_Set. set_solver. }
    intros Hctx. apply (Hm _ _ _ Hctx). }
  assert (envKept {[scope e]} (env σ) (env σ1)) as H01.
  { eapply envKept_fresh; [by apply envKept_subseteq|exact Hfresh|].
    eapply envKept_mono; [|exact Hb1]. set_solver. }
  assert (envKept {[t]} (env σ1) (env σ')) as H1'.
  { eapply frames_includeBody; [apply eval_frames|apply eval_frames| |exact Hbody].
    simpl. set_solver. }
  assert (∃ vs, env σ1 !! t
                = Some (CScope (mkScope None vs (globals caller) (funcs caller)
                                  (templates caller)))) as [vs1 Ht1].
  { pose proof (Hb1 t _ Htb) as Hk. simpl in Hk.
    by rewrite decide_True in Hk by set_solver. }
  assert (∃ vs, env σ' !! t
                = Some (CScope (mkScope None vs (globals caller) (funcs caller)
                                  (templates caller)))) as [vs' Ht'].
  { pose proof (H1' t _ Ht1) as Hk. simpl in Hk.
    by rewrite decide_True in Hk by set_solver. }
  split_and!.
  - done.
  - exists vs1. by apply getScope_Some.
  - exists vs'. by apply getScope_Some.
  - intros l sc Hl Hsc%getScope_Some. apply getScope_Some.
    pose proof (H1' l _ Hsc) as Hk. simpl in Hk.
    by rewrite decide_False in Hk by set_solver.
  - intros Hclosed x v. unfold Scope_Get. intros Hget.
    eapply Get_go_mono.
    + eapply (Get_go_kept (scope e) t); eauto. exists caller. by apply getScope_Some.
    + pose proof (envKept_size _ _ _ H1'). lia.
  - intros fname fn. unfold GetFunction.
    rewrite (proj2 (getScope_Some _ _ _) Hcaller). simpl.
    rewrite (proj2 (getScope_Some _ _ _) Ht1), (proj2 (getScope_Some _ _ _) Ht'). simpl.
    unfold getFuncs.
    destruct (env σ !! funcs caller) as [[| |fm| | |]|] eqn:Ef; try done.
    simpl. intros [= <-].
    pose proof (H01 _ _ Ef) as Hf1. simpl in Hf1.
    pose proof (H1' _ _ Hf1) as Hf'. simpl in Hf'.
    by rewrite Hf1, Hf'.
  - intros m tname Hm found. unfold GetTemplate. simpl.
    rewrite (proj2 (getScope_Some _ _ _) Ht1), (proj2 (getScope_Some _ _ _) Ht'). simpl.
    unfold getTemplates in *.
    destruct (env σ !! templates caller) as [[| | |tm| |]|] eqn:Etm; try done.
    injection Hm as ->.
    pose proof (H01 _ _ Etm) as Hf1. simpl in Hf1.
    pose proof (H1' _ _ Hf1) as Hf'. simpl in Hf'.
    rewrite Hf1, Hf'. simpl. unfold found. by destruct (m !! tname).
Qed.

(** The claim applied to a template that binds [secret]: the caller does
    not see the variable once the body has been evaluated. *)
Lemma include_scope_is_isolated_witness :
  ∃ t σ1 σ',
    includeScope (evalExpression_n 4) caller None store = (Ok t, σ1)
    ∧ includeBody (evalExpression_n 4) (evalStatement_n 4)
        (mkEvaluator t (coll caller)) secretTemplate "t" (at_ 5 1) σ1 = (Ok (), σ')
    ∧ Scope_Get t "secret" (env σ') = Some (inl (NumberValue 1))
    ∧ Scope_Get (scope caller) "secret" (env σ')
      = Some (inr "undefined variable: secret").
Proof.
  destruct (includeScope (evalExpression_n 4) caller None store) as [[t| | |] σ1] eqn:H1;
    [|vm_compute in H1; discriminate H1..].
  destruct (includeBody (evalExpression_n 4) (evalStatement_n 4)
              (mkEvaluator t (coll caller)) secretTemplate "t" (at_ 5 1) σ1)
    as [[[]| | |] σ'] eqn:H2;
    [|vm_compute in H1; injection H1 as <- <-; vm_compute in H2; discriminate H2..].
  exists t, σ1, σ'. split_and!; [done|done| |].
  - vm_compute in H1. injection H1 as <- <-. vm_compute in H2. injection H2 as <-.
    by vm_compute.
  - edestruct (include_scope_is_isolated (H := golib.lib) 4 caller None secretTemplate
                 "t" (at_ 5 1) store σ1 σ') as (_ & _ & _ & _ & Hget & _).
    + vm_compute. reflexivity.
    + exact H1.
    + exact H2.
    + apply Hget; [by vm_compute|].
      vm_compute in H1. injection H1 as <- <-. by vm_compute.
Defined.

(** The same in a program: after the include the caller finds no
    [secret]. *)
Lemma include_keeps_let_in_template :
  example.evalError (example.eval secretProgram)
  = Some (EvalError "undefined variable: secret" "test.helmtk" 6 4).
Proof. by vm_compute. Qed.

End scope_facts.

(** ** The function library *)

Section library_facts.

Import runtime funcs library.


Lemma heapKept_refl own h : heapKept own h h.
Proof. by intros l c. Qed.

Lemma heapKept_trans own h1 h2 h3 :
  heapKept own h1 h2 → heapKept own h2 h3 → heapKept own h1 h3.
Proof. intros H12 H23 l c Hl Hown. eauto. Qed.

Lemma heapKept_alloc own (h : Heap) (c : HCell) :
  heapKept own h (<[newLoc h := c]> h).
Proof.
  intros l c' Hl _. rewrite lookup_insert_ne; [done|].
  intros <-. unfold newLoc in Hl.
  apply (is_fresh (dom h)), elem_of_dom. eauto.
Qed.

Lemma heapKept_fresh own (l : loc) h1 h2 h3 :
  heapKept own h1 h2 → h1 !! l = None → heapKept ({[l]} ∪ own) h2 h3 →
  heapKept own h1 h3.
Proof.
  intros H12 Hl H23 l' c Hl' Hown. apply H23; [by apply H12|].
  intros [->%elem_of_singleton|?]%elem_of_union; congruence.
Qed.

Lemma newLoc_fresh (h : Heap) : h !! newLoc h = None.
Proof. unfold newLoc. apply not_elem_of_dom, is_fresh. Qed.

Create HintDb preserves discriminated.

Lemma preserves_ret {A} own (a : A) : preserves own (mret a).
Proof. intros h r h' [= _ <-]. apply heapKept_refl. Qed.

Lemma preserves_fail {A} own msg : preserves own (@fail A msg).
Proof. intros h r h' [= _ <-]. apply heapKept_refl. Qed.

Lemma preserves_crash {A} own : preserves own (@crash A).
Proof. intros h r h' [= _ <-]. apply heapKept_refl. Qed.

Lemma preserves_elements own a : preserves own (elements a).
Proof. intros h r h' [= _ <-]. apply heapKept_refl. Qed.

Lemma preserves_fields own o : preserves own (fields o).
Proof. intros h r h' [= _ <-]. apply heapKept_refl. Qed.

Lemma preserves_truthy own v : preserves own (truthy v).
Proof. intros h r h' [= _ <-]. apply heapKept_refl. Qed.

Lemma preserves_newArray own els : preserves own (newArray els).
Proof. intros h r h' [= _ <-]. apply heapKept_alloc. Qed.

Lemma preserves_set own o key val : o ∈ own → preserves own (set o key val).
Proof.
  intros Ho h r h' [= _ <-] l c Hl Hown. unfold Set_.
  rewrite lookup_insert_ne; [done|]. by intros <-.
Qed.

Lemma preserves_bind {A B} own (m : F A) (k : A → F B) :
  preserves own m → (∀ a, preserves own (k a)) → preserves own (m ≫= k).
Proof.
  intros Hm Hk h r h'. unfold mbind, F_bind.
  destruct (m h) as [[a| | |] h1] eqn:E; intros Hr;
    try (injection Hr as <- <-; by eapply Hm).
  eapply heapKept_trans; [by eapply Hm|by eapply Hk].
Qed.

Lemma preserves_newObject {B} own (k : loc → F B) :
  (∀ l, preserves ({[l]} ∪ own) (k l)) → preserves own (newObject ≫= k).
Proof.
  intros Hk h r h'. unfold mbind, F_bind, newObject. intros Hr.
  eapply heapKept_fresh; [apply heapKept_alloc|apply newLoc_fresh|by eapply Hk].
Qed.

Lemma preserves_forEach {A} own (l : list A) (f : A → F unit) :
  (∀ x, preserves own (f x)) → preserves own (forEach l f).
Proof.
  intros Hf. induction l as [|x l IH]; simpl.
  - apply preserves_ret.
  - apply preserves_bind; [apply Hf|by intros _].
Qed.

#[local] Hint Resolve preserves_ret preserves_fail preserves_crash preserves_elements
  preserves_fields preserves_truthy preserves_newArray : preserves.
#[local] Hint Extern 1 (_ ∈ _) => set_solver : preserves.
#[local] Hint Resolve preserves_set : preserves.

(** One step through the body of a function. *)
Ltac preserves_step :=
  lazymatch goal with
  | |- preserves _ (newObject ≫= _) => apply preserves_newObject; intros ?
  | |- preserves _ (_ ≫= _) => apply preserves_bind; [|intros ?]
  | |- preserves _ (forEach _ _) => apply preserves_forEach; intros ?
  | |- preserves _ (match ?x with _ => _ end) => destruct x
  | |- preserves _ (let _ := _ in _) => cbv zeta
  end.

Ltac preserves_tac := repeat preserves_step; eauto with preserves.

Ltac head_of t := lazymatch t with ?f _ => head_of f | _ => t end.
Ltac unfold_body :=
  lazymatch goal with
  | |- preserves _ ?t => let hd := head_of t in unfold hd
  end.

Section library.
Context `{GoStdlib}.

Lemma preserves_toString own v : preserves own (toString v).
Proof. unfold toString. preserves_tac. Qed.

Lemma preserves_toNumber own v : preserves own (toNumber v).
Proof. unfold toNumber. preserves_tac. Qed.

Lemma preserves_Repeat own s count : preserves own (Repeat s count).
Proof. unfold Repeat. preserves_tac. Qed.

Lemma preserves_toNatives own vals : preserves own (toNatives vals).
Proof.
  intros h r h'. unfold toNatives.
  destruct (mapM _ vals); intros [= _ <-]; apply heapKept_refl.
Qed.

Lemma preserves_coalesce_loop own args last_ : preserves own (coalesce_loop args last_).
Proof.
  revert last_. induction args as [|arg rest IH]; intros last_; simpl; preserves_tac.
Qed.

Lemma preserves_concat_loop own args result : preserves own (concat_loop args result).
Proof.
  revert result. induction args as [|arg rest IH]; intros result; simpl; preserves_tac.
Qed.

Lemma preserves_omitKeys_loop own args omitKeys :
  preserves own (omitKeys_loop args omitKeys).
Proof.
  revert omitKeys. induction args as [|arg rest IH]; intros omitKeys; simpl.
  - preserves_tac.
  - apply preserves_bind; [apply preserves_toString|done].
Qed.

#[local] Hint Resolve preserves_toString preserves_toNumber preserves_Repeat
  preserves_toNatives preserves_coalesce_loop preserves_concat_loop
  preserves_omitKeys_loop : preserves.

(** No function of the library writes to a cell that exists when it is
    called. *)
Lemma Registry_preserves (name : string) (f : Func) (args : list Value) :
  (name, f) ∈ Registry → preserves ∅ (f args).
Proof.
  unfold Registry. rewrite !elem_of_cons, elem_of_nil.
  intros Hin.
  repeat (destruct Hin as [[= _ ->]|Hin];
          [unfold_body; preserves_tac|]).
  done.
Qed.

Lemma forEach_set (kvs : list (string * Value)) (result : loc) (m0 : gmap string Value)
    (h : Heap) :
  h !! result = Some (HObject m0) →
  forEach kvs (λ kv, set result kv.1 kv.2) h
  = (Ok (), <[result := HObject (copied kvs m0)]> h).
Proof.
  revert m0 h. induction kvs as [|[k v] kvs IH]; intros m0 h Hr; simpl.
  - unfold mret, F_ret. by rewrite insert_id.
  - unfold mbind, F_bind, set. simpl.
    rewrite (IH (<[k := v]> m0)).
    + unfold Set_, Fields. rewrite Hr. by rewrite insert_insert_eq.
    + unfold Set_, Fields. rewrite Hr. by rewrite lookup_insert_eq.
Qed.

Lemma copied_lookup {A} (kvs : list (string * A)) (m0 : gmap string A) (k : string) :
  NoDup kvs.*1 →
  copied kvs m0 !! k
  = match list_to_map (M := gmap string A) kvs !! k with
    | Some v => Some v
    | None => m0 !! k
    end.
Proof.
  revert m0. induction kvs as [|[k' v'] kvs IH]; intros m0 Hnd; simpl; [done|].
  apply NoDup_cons in Hnd as [Hnotin Hnd]. unfold copied in *. simpl.
  rewrite IH by done.
  destruct (decide (k = k')) as [->|Hne].
  - rewrite lookup_insert_eq.
    rewrite (not_elem_of_list_to_map_1 _ k') by done. by rewrite lookup_insert_eq.
  - rewrite !lookup_insert_ne by done. done.
Qed.

Lemma copied_rangeMap (m : gmap string Value) : copied (rangeMap m) ∅ = m.
Proof.
  apply map_eq. intros k.
  assert (NoDup (rangeMap m).*1) as Hnd.
  { rewrite (rangeMap_perm _ m). apply NoDup_fst_map_to_list. }
  rewrite copied_lookup by done.
  rewrite (list_to_map_proper _ (map_to_list m)) by (done || apply rangeMap_perm).
  rewrite list_to_map_to_list. rewrite lookup_empty. by destruct (m !! k).
Qed.

(** C9: the functions of the library write to no value they are given.
    [set(o, k, v)], for an object [o] and an index that converts to the key
    [key], returns a new object whose fields are those of [o] with [key]
    bound to [v], and leaves the fields of [o] as they are; [append(a, x,
    ...)] returns a new array whose elements are those of [a] followed by
    the other arguments, and leaves the elements of [a] as they are; and
    whatever function of [Registry] is called, with whatever arguments and
    whatever its result, every array and every object that exists when it
    is called has afterwards the elements and the fields it had. *)
Theorem builtins_do_not_mutate_their_inputs :
  (∀ (o : loc) (k v : Value) (key : string) (h : Heap),
     is_Some (h !! o) → ToString k = inl key →
     let result := newLoc h in
     let h' := <[result := HObject (<[key := v]> (Fields h o))]> h in
     setFunc [ObjectValue o; k; v] h = (Ok (ObjectValue result), h')
     ∧ result ≠ o
     ∧ Fields h' result = <[key := v]> (Fields h o)
     ∧ Fields h' o = Fields h o)
  ∧ (∀ (a : loc) (x : Value) (xs : list Value) (h : Heap),
       is_Some (h !! a) →
       let result := newLoc h in
       let h' := <[result := HArray (Elements h a ++ x :: xs)]> h in
       appendFunc (ArrayValue a :: x :: xs) h = (Ok (ArrayValue result), h')
       ∧ result ≠ a
       ∧ Elements h' result = Elements h a ++ x :: xs
       ∧ Elements h' a = Elements h a)
  ∧ (∀ (name : string) (f : Func) (args : list Value) (h h' : Heap) r,
       (name, f) ∈ Registry → f args h = (r, h') →
       h ⊆ h'
       ∧ (∀ l, is_Some (h !! l) → Fields h' l = Fields h l ∧ Elements h' l = Elements h l)).
Proof.
  split; [|split].
  - intros o k v key h Ho Hk result h'.
    assert (result ≠ o) as Hne.
    { intros Heq. pose proof (newLoc_fresh h) as Hf. fold result in Hf.
      rewrite Heq in Hf. rewrite Hf in Ho. by destruct Ho. }
    split_and!; [|done| |].
    + unfold setFunc, toString. rewrite Hk.
      unfold mbind at 1, F_bind at 1. unfold mret at 1, F_ret at 1.
      unfold mbind at 1, F_bind at 1. unfold newObject at 1. fold result.
      unfold mbind at 1, F_bind at 1. unfold fields at 1.
      unfold mbind at 1, F_bind at 1.
      rewrite (forEach_set _ result ∅) by apply lookup_insert_eq.
      unfold mbind, F_bind, set, mret, F_ret, Set_. f_equal.
      unfold Fields at 1. rewrite lookup_insert_eq.
      rewrite !insert_insert_eq. unfold h'. do 3 f_equal.
      unfold Fields at 1. rewrite lookup_insert_ne by done.
      fold (Fields h o). apply copied_rangeMap.
    + unfold Fields at 1, h'. by rewrite lookup_insert_eq.
    + unfold Fields at 1, h'. by rewrite lookup_insert_ne.
  - intros a x xs h Ha result h'.
    assert (result ≠ a) as Hne.
    { intros Heq. pose proof (newLoc_fresh h) as Hf. fold result in Hf.
      rewrite Heq in Hf. rewrite Hf in Ha. by destruct Ha. }
    split_and!; [done|done| |].
    + unfold Elements at 1, h'. by rewrite lookup_insert_eq.
    + unfold Elements at 1, h'. by rewrite lookup_insert_ne.
  - intros name f args h h' r Hin Hf.
    pose proof (Registry_preserves name f args Hin h r h' Hf) as Hk.
    assert (h ⊆ h') as Hsub.
    { apply map_subseteq_spec. intros l c Hl. apply Hk; [done|set_solver]. }
    split; [done|]. intros l [c Hl].
    pose proof (Hk l c Hl ltac:(set_solver)) as Hl'.
    unfold Fields, Elements. by rewrite Hl, Hl'.
Qed.

End library.

(** The claim applied to an object with one field and to an array with one
    element. *)
Lemma builtins_do_not_mutate_their_inputs_witness :
  let h : Heap := {[ 1%positive := HObject {[ "a" := NumberValue 1 ]};
                     2%positive := HArray [NumberValue 1] ]} in
  (∃ result h',
     @setFunc golib.lib [ObjectValue 1; StringValue "b"; NumberValue 2] h
     = (Ok (ObjectValue result), h')
     ∧ Fields h' result = <["b" := NumberValue 2]> (Fields h 1)
     ∧ Fields h' 1 = Fields h 1)
  ∧ (∃ result h',
       appendFunc [ArrayValue 2; NumberValue 2; NumberValue 3] h
       = (Ok (ArrayValue result), h')
       ∧ Elements h' result = [NumberValue 1; NumberValue 2; NumberValue 3]
       ∧ Elements h' 2 = Elements h 2).
Proof.
  intros h. split.
  - destruct (proj1 (builtins_do_not_mutate_their_inputs (H := golib.lib)) 1%positive
                (StringValue "b") (NumberValue 2) "b" h)
      as (Hset & _ & Hnew & Hold); [eexists; vm_compute; reflexivity|done|].
    eexists _, _. split_and!; [exact Hset|exact Hnew|exact Hold].
  - destruct (proj1 (proj2 (builtins_do_not_mutate_their_inputs (H := golib.lib)))
                2%positive (NumberValue 2) [NumberValue 3] h)
      as (Happ & _ & Hnew & Hold); [eexists; vm_compute; reflexivity|].
    eexists _, _. split_and!; [exact Happ|exact Hnew|exact Hold].
Defined.

End library_facts.

(** ** More of the lexer *)

Section lexer_more.

Import parser lexing scanning example cases samples.

Lemma forward_refl (l : Lexer) : (pos l ≤ length (input l))%nat → forward l l.
Proof. unfold forward. intros. split; [done|lia]. Qed.

Lemma forward_trans (l1 l2 l3 : Lexer) : forward l1 l2 → forward l2 l3 → forward l1 l3.
Proof. unfold forward. intros (Hi & ? & ?) (Hi' & ? & ?). rewrite Hi in *. split; [congruence|lia]. Qed.

Lemma advance_forward (l : Lexer) : (pos l ≤ length (input l))%nat → forward l (advance l).
Proof.
  intros Hle. unfold advance, forward.
  destruct (decide (pos l < length (input l))%nat); [|split; [done|lia]].
  destruct (Ascii.eqb _ _); simpl; (split; [done|lia]).
Qed.

Lemma advance_pos (l : Lexer) :
  (pos l < length (input l))%nat →
  pos (advance l) = S (pos l) ∧ input (advance l) = input l.
Proof.
  intros Hlt. unfold advance. rewrite decide_True by done.
  by destruct (Ascii.eqb _ _).
Qed.

Lemma advanceWhile_go_forward (keep : ascii → bool) (fuel : nat) (l : Lexer) :
  (pos l ≤ length (input l))%nat → forward l (advanceWhile_go fuel keep l).
Proof.
  revert l. induction fuel as [|fuel IH]; intros l Hle; simpl; [by apply forward_refl|].
  destruct (decide (pos l < length (input l))%nat) as [Hlt|]; [|by apply forward_refl].
  destruct (keep (Lexer_current l)); [|by apply forward_refl].
  pose proof (advance_forward l Hle) as Hadv.
  eapply forward_trans; [exact Hadv|]. apply IH.
  destruct Hadv as (Hi & _ & Hp). by rewrite Hi.
Qed.

Lemma advanceWhile_forward (keep : ascii → bool) (l : Lexer) :
  (pos l ≤ length (input l))%nat → forward l (advanceWhile keep l).
Proof. apply advanceWhile_go_forward. Qed.

Lemma forward_bound (l l' : Lexer) : forward l l' → (pos l' ≤ length (input l'))%nat.
Proof. intros (Hi & _ & Hp). by rewrite Hi. Qed.

Lemma readString_loop_forward (fuel : nat) (l : Lexer) :
  (pos l ≤ length (input l))%nat → forward l (readString_loop fuel l).
Proof.
  revert l. induction fuel as [|fuel IH]; intros l Hle; simpl; [by apply forward_refl|].
  destruct (decide (pos l < length (input l))%nat) as [Hlt|]; [|by apply forward_refl].
  destruct (negb _); [|by apply forward_refl].
  assert (forward l (if Ascii.eqb (Lexer_current l) gostr.backslash
                     then advance l else l)) as H1.
  { destruct (Ascii.eqb _ _); [by apply advance_forward|by apply forward_refl]. }
  eapply forward_trans; [exact H1|].
  eapply forward_trans; [apply advance_forward; by eapply forward_bound|].
  apply IH. eapply forward_bound. eapply forward_trans; [exact H1|].
  apply advance_forward. by eapply forward_bound.
Qed.

Lemma readMultilineString_loop_forward (fuel start : nat) (startLine startCol : Z)
    (l l' : Lexer) (t : Token) :
  (pos l ≤ length (input l))%nat →
  readMultilineString_loop fuel start startLine startCol l = Some (t, l') →
  forward l l' ∧ tok_Type t = TokenString.
Proof.
  revert l. induction fuel as [|fuel IH]; intros l Hle; simpl.
  - destruct (gostr.slice _ _ _); [|done]. simpl. intros [= <- <-].
    split; [by apply forward_refl|done].
  - destruct (decide (pos l < length (input l))%nat) as [Hlt|].
    + destruct (isTripleQuote l).
      * destruct (gostr.slice _ _ _); [|done]. simpl. intros [= <- <-].
        split; [|done].
        pose proof (advance_forward l Hle) as H1.
        pose proof (advance_forward _ (forward_bound _ _ H1)) as H2.
        pose proof (advance_forward _ (forward_bound _ _ H2)) as H3.
        eapply forward_trans; [exact H1|]. by eapply forward_trans.
      * intros Hr. pose proof (advance_forward l Hle) as H1.
        destruct (IH _ (forward_bound _ _ H1) Hr) as [Hf Ht].
        split; [by eapply forward_trans|done].
    + destruct (gostr.slice _ _ _); [|done]. simpl. intros [= <- <-].
      split; [by apply forward_refl|done].
Qed.


Lemma advanceWhile_first (keep : ascii → bool) (l : Lexer) :
  (pos l < length (input l))%nat → keep (Lexer_current l) = true →
  forward l (advanceWhile keep l) ∧ (pos l < pos (advanceWhile keep l))%nat.
Proof.
  intros Hlt Hkeep. split; [apply advanceWhile_forward; lia|].
  unfold advanceWhile.
  destruct (length (input l) - pos l)%nat as [|fuel] eqn:Hfuel; [lia|]. simpl.
  rewrite decide_True, Hkeep by done.
  destruct (advance_pos l Hlt) as [Hp Hi].
  pose proof (advanceWhile_go_forward keep fuel (advance l)) as (_ & Hle & _).
  { rewrite Hp, Hi. lia. }
  lia.
Qed.

Lemma operatorToken_advances (l : Lexer) (ch : ascii) :
  (operatorToken l ch).2 = advance l ∨ (operatorToken l ch).2 = advance (advance l).
Proof.
  unfold operatorToken. cbv zeta.
  repeat lazymatch goal with
         | |- (if ?b then _ else _).2 = _ ∨ _ => destruct b
         end; simpl; auto.
Qed.

Lemma operatorToken_type (l : Lexer) (ch : ascii) :
  tok_Type (operatorToken l ch).1 = TokenEOF →
  Ascii.eqb ch ":" = false ∧ Ascii.eqb ch "," = false ∧ Ascii.eqb ch "{" = false
  ∧ Ascii.eqb ch "}" = false ∧ Ascii.eqb ch "[" = false ∧ Ascii.eqb ch "]" = false
  ∧ Ascii.eqb ch "(" = false ∧ Ascii.eqb ch ")" = false ∧ Ascii.eqb ch "." = false
  ∧ (Ascii.eqb ch "&" && Ascii.eqb (Lexer_peek l) "&") = false
  ∧ Ascii.eqb ch "|" = false ∧ Ascii.eqb ch "=" = false ∧ Ascii.eqb ch "!" = false
  ∧ Ascii.eqb ch "<" = false ∧ Ascii.eqb ch ">" = false ∧ Ascii.eqb ch "+" = false
  ∧ Ascii.eqb ch "-" = false ∧ Ascii.eqb ch "*" = false ∧ Ascii.eqb ch "/" = false.
Proof.
  unfold operatorToken. cbv zeta.
  repeat lazymatch goal with
         | |- tok_Type (if ?b then _ else _).1 = _ → _ =>
             let E := fresh "E" in destruct b eqn:E; [try discriminate|]
         end.
  all: simpl; try (intros Heof; discriminate Heof); intros _.
  all: try match goal with
           | Eq : Ascii.eqb ?c _ = true |- _ => apply Ascii.eqb_eq in Eq; subst c
           end.
  all: repeat match goal with Eq : _ = false |- _ => rewrite ?Eq; clear Eq end.
  all: by split_and!.
Qed.


Lemma keyword_not_EOF (value : string) : keyword value ≠ TokenEOF.
Proof.
  unfold keyword.
  repeat lazymatch goal with
         | |- (if ?b then _ else _) ≠ _ => destruct b; [done|]
         end.
  done.
Qed.

Lemma readString_forward (l l' : Lexer) (t : Token) :
  (pos l < length (input l))%nat → readString l = Some (t, l') →
  forward l l' ∧ (pos l < pos l')%nat ∧ tok_Type t = TokenString.
Proof.
  intros Hlt. unfold readString.
  destruct (advance_pos l Hlt) as [Hp Hi].
  pose proof (readString_loop_forward (length (input (advance l)) - pos (advance l))
                (advance l)) as H2.
  set (l2 := readString_loop _ (advance l)) in *.
  assert (forward (advance l) l2) as (Hi2 & Hp2 & Hb2) by (apply H2; rewrite Hp, Hi; lia).
  set (l3 := if decide (pos l2 < length (input l2))%nat then advance l2 else l2).
  assert (forward l2 l3) as (Hi3 & Hp3 & Hb3).
  { unfold l3. destruct (decide _); [apply advance_forward|apply forward_refl];
      rewrite Hi2; lia. }
  destruct (gostr.slice _ _ _); [|done]. simpl. intros [= <- <-].
  unfold forward. rewrite Hi3, Hi2, Hi in *. split_and!; [done|lia|lia|lia|done].
Qed.

Lemma readMultilineString_forward (l l' : Lexer) (t : Token) :
  (pos l < length (input l))%nat → readMultilineString l = Some (t, l') →
  forward l l' ∧ (pos l < pos l')%nat ∧ tok_Type t = TokenString.
Proof.
  intros Hlt. unfold readMultilineString.
  destruct (advance_pos l Hlt) as [Hp Hi].
  pose proof (advance_forward (advance l)) as H2.
  assert (forward (advance l) (advance (advance l))) as (Hi2 & Hp2 & Hb2)
    by (apply H2; rewrite Hp, Hi; lia).
  assert (forward (advance (advance l)) (advance (advance (advance l))))
    as (Hi3 & Hp3 & Hb3) by (apply advance_forward; rewrite Hi2; lia).
  intros Hr. apply readMultilineString_loop_forward in Hr as [(Hi4 & Hp4 & Hb4) Ht];
    [|rewrite Hi3; lia].
  unfold forward. rewrite Hi4, Hi3, Hi2, Hi in *. split_and!; [done|lia|lia|lia|done].
Qed.

Lemma readComment_forward (l l' : Lexer) (t : Token) :
  (pos l < length (input l))%nat → readComment l = Some (t, l') →
  forward l l' ∧ (pos l < pos l')%nat ∧ tok_Type t = TokenComment.
Proof.
  intros Hlt. unfold readComment.
  destruct (advance_pos l Hlt) as [Hp Hi].
  pose proof (advanceWhile_forward (λ ch, negb (Ascii.eqb ch gostr.lf)) (advance l))
    as H2.
  set (l2 := advanceWhile _ (advance l)) in *.
  assert (forward (advance l) l2) as (Hi2 & Hp2 & Hb2) by (apply H2; rewrite Hp, Hi; lia).
  destruct (gostr.slice _ _ _); [|done]. simpl. intros [= <- <-].
  unfold forward. rewrite Hi2, Hi in *. split_and!; [done|lia|lia|lia|done].
Qed.

Lemma readNumber_forward (l l' : Lexer) (t : Token) :
  (pos l < length (input l))%nat →
  gostr.IsDigit (Lexer_current l) = true ∨ Ascii.eqb (Lexer_current l) "-" = true →
  readNumber l = Some (t, l') →
  forward l l' ∧ (pos l < pos l')%nat ∧ tok_Type t = TokenNumber.
Proof.
  intros Hlt Hch. unfold readNumber.
  set (l1 := if Ascii.eqb (Lexer_current l) "-" then advance l else l).
  set (l2 := advanceWhile isNumberByte l1).
  assert (forward l l2 ∧ (pos l < pos l2)%nat) as [(Hi2 & Hp2 & Hb2) Hlt2].
  { unfold l2, l1. destruct (Ascii.eqb (Lexer_current l) "-") eqn:Hm.
    - destruct (advance_pos l Hlt) as [Hp Hi].
      pose proof (advanceWhile_forward isNumberByte (advance l)) as (Hi' & Hp' & Hb').
      { rewrite Hp, Hi. lia. }
      unfold forward. rewrite Hi', Hi in *. split_and!; [done|lia..].
    - destruct Hch as [Hd|?]; [|done]. apply advanceWhile_first; [done|].
      unfold isNumberByte. by rewrite Hd. }
  destruct (gostr.slice _ _ _); [|done]. simpl. intros [= <- <-].
  by split_and!.
Qed.

Lemma readIdentifier_forward (l l' : Lexer) (t : Token) :
  (pos l < length (input l))%nat →
  gostr.IsLetter (Lexer_current l) || Ascii.eqb (Lexer_current l) "_" = true →
  readIdentifier l = Some (t, l') →
  forward l l' ∧ (pos l < pos l')%nat ∧ tok_Type t ≠ TokenEOF.
Proof.
  intros Hlt Hch. unfold readIdentifier.
  destruct (advanceWhile_first isIdentByte l Hlt) as [Hf Hlt2].
  { unfold isIdentByte. apply orb_true_iff in Hch as [->| ->]; [done|].
    by rewrite orb_true_r. }
  destruct (gostr.slice _ _ _); [|done]. simpl. intros [= <- <-].
  split_and!; [done..|]. apply keyword_not_EOF.
Qed.

Lemma operatorToken_forward (l : Lexer) (ch : ascii) :
  (pos l < length (input l))%nat →
  forward l (operatorToken l ch).2 ∧ (pos l < pos (operatorToken l ch).2)%nat.
Proof.
  intros Hlt. destruct (advance_pos l Hlt) as [Hp Hi].
  destruct (operatorToken_advances l ch) as [-> | ->].
  - unfold forward. rewrite Hi, Hp. split_and!; [done|lia..].
  - pose proof (advance_forward (advance l)) as (Hi2 & Hp2 & Hb2).
    { rewrite Hp, Hi. lia. }
    unfold forward. rewrite Hi2, Hi in *. split_and!; [done|lia..].
Qed.


(** What [NextToken] returns, by the byte the lexer stands at once the
    blanks are skipped. *)
Lemma NextToken_reads (l l' : Lexer) (t : Token) :
  NextToken l = Some (t, l') → (pos l ≤ length (input l))%nat →
  let l0 := skipWhitespace l in
  forward l l0
  ∧ ((length (input l0) ≤ pos l0)%nat ∧ l' = l0 ∧ tok_Type t = TokenEOF
     ∨ (pos l0 < length (input l0))%nat ∧ forward l0 l' ∧ (pos l0 < pos l')%nat
       ∧ (tok_Type t = TokenEOF →
          startsToken (Lexer_current l0) (Lexer_peek l0) = false)).
Proof.
  intros HN Hle l0.
  assert (forward l l0) as H0 by (by apply advanceWhile_forward).
  split; [done|]. unfold NextToken in HN. fold l0 in HN.
  destruct (decide (length (input l0) ≤ pos l0)%nat) as [Hend|Hlt].
  { injection HN as <- <-. by left. }
  right. assert (pos l0 < length (input l0))%nat as Hlt' by lia.
  split; [done|]. unfold startsToken.
  destruct (Ascii.eqb (Lexer_current l0) gostr.lf) eqn:Elf.
  { injection HN as <- <-. destruct (advance_pos l0 Hlt') as [Hp Hi].
    split_and!; [|lia|done]. unfold forward. rewrite Hi, Hp. split; [done|lia]. }
  destruct (Ascii.eqb (Lexer_current l0) "#") eqn:Ehash.
  { apply readComment_forward in HN as (? & ? & Ht); [|done].
    split_and!; [done..|]. by rewrite Ht. }
  destruct (Ascii.eqb (Lexer_current l0) gostr.dquote) eqn:Equote.
  { destruct (_ && _).
    - apply readMultilineString_forward in HN as (? & ? & Ht); [|done].
      split_and!; [done..|]. by rewrite Ht.
    - apply readString_forward in HN as (? & ? & Ht); [|done].
      split_and!; [done..|]. by rewrite Ht. }
  destruct (gostr.IsDigit (Lexer_current l0)) eqn:Edigit.
  { apply readNumber_forward in HN as (? & ? & Ht); [|done|by left].
    split_and!; [done..|]. by rewrite Ht. }
  destruct (Ascii.eqb (Lexer_current l0) "-") eqn:Eminus.
  { rewrite orb_false_l, andb_true_l in HN. destruct (negb _ && _).
    - apply readNumber_forward in HN as (? & ? & Ht); [|done|by right].
      split_and!; [done..|]. by rewrite Ht.
    - destruct (gostr.IsLetter (Lexer_current l0) || Ascii.eqb (Lexer_current l0) "_")
        eqn:Eident.
      + apply readIdentifier_forward in HN as (? & ? & Ht); done.
      + injection HN as Hop.
        destruct (operatorToken_forward l0 (Lexer_current l0) Hlt') as [Hf Hs].
        rewrite (surjective_pairing (operatorToken _ _)) in Hop.
        injection Hop as <- <-. split_and!; [done..|].
        intros HT%operatorToken_type. decompose [and] HT. congruence. }
  rewrite orb_false_l, andb_false_l in HN.
  destruct (gostr.IsLetter (Lexer_current l0) || Ascii.eqb (Lexer_current l0) "_")
    eqn:Eident.
  { apply readIdentifier_forward in HN as (? & ? & Ht); done. }
  injection HN as Hop.
  destruct (operatorToken_forward l0 (Lexer_current l0) Hlt') as [Hf Hs].
  rewrite (surjective_pairing (operatorToken _ _)) in Hop.
  injection Hop as <- <-. split_and!; [done..|].
  apply orb_false_elim in Eident as [Eletter Eunder].
  intros (E1 & E2 & E3 & E4 & E5 & E6 & E7 & E8 & E9 & E10 & E11 & E12 & E13 & E14
          & E15 & E16 & E17 & E18 & E19)%operatorToken_type.
  by rewrite Eletter, Eunder, E1, E2, E3, E4, E5, E6, E7, E8, E9, E10, E11, E12, E13,
    E14, E15, E16, E18, E19.
Qed.

(** X1: the lexer goes forward.  [NextToken] never changes the input nor
    moves the position back or past the end, and every token it returns
    that is not of type EOF has taken at least one byte: a caller that asks
    for tokens until it gets EOF ends. *)
Theorem tokens_consume_input (l l' : Lexer) (t : Token) :
  NextToken l = Some (t, l') → (pos l ≤ length (input l))%nat →
  input l' = input l
  ∧ (pos l ≤ pos l')%nat ∧ (pos l' ≤ length (input l'))%nat
  ∧ (tok_Type t ≠ TokenEOF → (pos l < pos l')%nat).
Proof.
  intros HN Hle.
  destruct (NextToken_reads l l' t HN Hle) as [(Hi0 & Hp0 & Hb0) Hcase].
  destruct Hcase as [(Hend & -> & Ht)|(Hlt & (Hi & Hp & Hb) & Hs & _)].
  - rewrite Hi0. split_and!; [done|lia|lia|done].
  - rewrite Hi0 in *. rewrite Hi. split_and!; [done|lia|lia|lia].
Qed.

(** X2: where the token of type EOF comes from.  A token that [NextToken]
    returns is of type EOF in two cases and no other: the input has ended
    behind the blanks, or the byte there starts no token of the
    language. *)
Theorem eof_token_at_end_or_stray_byte_only (l l' : Lexer) (t : Token) :
  NextToken l = Some (t, l') → (pos l ≤ length (input l))%nat →
  let l0 := skipWhitespace l in
  tok_Type t = TokenEOF
  ↔ (length (input l0) ≤ pos l0)%nat
    ∨ startsToken (Lexer_current l0) (Lexer_peek l0) = false.
Proof.
  intros HN Hle l0. split.
  - intros Ht. destruct (NextToken_reads l l' t HN Hle) as [_ Hcase]. fold l0 in Hcase.
    destruct Hcase as [(Hend & _ & _)|(_ & _ & _ & Hstray)]; [by left|right; auto].
  - intros [Hend|Hstray].
    + unfold NextToken in HN. fold l0 in HN. rewrite decide_True in HN by done.
      by injection HN as <- _.
    + destruct (decide (length (input l0) ≤ pos l0)%nat) as [Hend|Hlt].
      * unfold NextToken in HN. fold l0 in HN. rewrite decide_True in HN by done.
        by injection HN as <- _.
      * rewrite (NextToken_unrecognized l) in HN; [|fold l0; lia|done].
        by injection HN as <- _.
Qed.


Lemma tokens_consume_input_witness :
  ∃ t l', NextToken (NewLexer "a: 1") = Some (t, l')
          ∧ (pos (NewLexer "a: 1") < pos l')%nat.
Proof.
  destruct (NextToken (NewLexer "a: 1")) as [[t l']|] eqn:HN;
    [|vm_compute in HN; discriminate HN].
  exists t, l'. split; [done|].
  destruct (tokens_consume_input _ _ _ HN) as (_ & _ & _ & Hs); [simpl; lia|].
  apply Hs. vm_compute in HN. injection HN as <- <-. discriminate.
Defined.

Lemma eof_token_at_end_or_stray_byte_only_witness :
  ∃ t l', NextToken (NewLexer "  @") = Some (t, l') ∧ tok_Type t = TokenEOF.
Proof.
  destruct (NextToken (NewLexer "  @")) as [[t l']|] eqn:HN;
    [|vm_compute in HN; discriminate HN].
  exists t, l'. split; [done|].
  apply (eof_token_at_end_or_stray_byte_only _ _ _ HN); [simpl; lia|].
  right. vm_compute. reflexivity.
Defined.


Lemma plain_spec (c : ascii) :
  plain c = true → c ≠ gostr.dquote ∧ c ≠ gostr.backslash ∧ c ≠ gostr.lf.
Proof.
  unfold plain. intros [[H1 H2]%andb_true_iff H3]%andb_true_iff.
  apply negb_true_iff in H1, H2, H3.
  split_and!; intros ->; discriminate.
Qed.

Lemma plain_unescaped (v : list ascii) : forallb plain v = true → unescapeString v = v.
Proof.
  intros Hv. unfold unescapeString.
  assert (gostr.Index v [gostr.backslash] = None) as HI.
  { induction v as [|c v IH]; [done|]. simpl in Hv.
    apply andb_true_iff in Hv as [Hc Hv]. apply plain_spec in Hc as (_ & Hb & _).
    cbn [gostr.Index gostr.prefixb].
    destruct (Ascii.eqb_spec gostr.backslash c) as [Heq|_]; [by destruct Hb|].
    simpl. by rewrite (IH Hv). }
  unfold gostr.Contains. rewrite HI. by rewrite bool_decide_eq_false_2 by by intros [].
Qed.

Lemma skip_skip (n m : nat) (l : Lexer) : skip n (skip m l) = skip (m + n) l.
Proof. unfold skip. simpl. f_equal; lia. Qed.

Lemma readString_loop_plain (fuel : nat) (l : Lexer) :
  forallb plain (drop (pos l) (input l)) = true →
  (length (input l) - pos l ≤ fuel)%nat →
  readString_loop fuel l = skip (length (input l) - pos l) l.
Proof.
  revert l. induction fuel as [|fuel IH]; intros l Hplain Hfuel.
  - simpl. replace (length (input l) - pos l)%nat with 0%nat by lia.
    unfold skip. destruct l; simpl. f_equal; lia.
  - simpl. destruct (decide (pos l < length (input l))%nat) as [Hlt|Hge].
    + rewrite (drop_at _ _ Hlt) in Hplain. simpl in Hplain.
      apply andb_true_iff in Hplain as [Hc Hrest].
      apply plain_spec in Hc as (Hq & Hb & Hlf).
      rewrite (current_at l Hlt).
      destruct (Ascii.eqb_spec (gostr.at_ (input l) (pos l)) gostr.dquote); [done|].
      destruct (Ascii.eqb_spec (gostr.at_ (input l) (pos l)) gostr.backslash); [done|].
      cbn [negb]. rewrite (advance_skip l Hlt) by (by rewrite current_at).
      rewrite IH.
      * rewrite skip_skip. simpl. f_equal. lia.
      * simpl. by replace (pos l + 1)%nat with (S (pos l)) by lia.
      * simpl. lia.
    + replace (length (input l) - pos l)%nat with 0%nat by lia.
      unfold skip. destruct l; simpl. f_equal; lia.
Qed.

(** X3: a string that is not closed.  Where the input ends inside a string
    literal (here one without escapes and line feeds), the lexer reports
    nothing: the token is a string whose text is the rest of the input
    without its last byte, which is taken for the closing quote.  A quote
    that is the last byte of the input makes the slice of [readString]
    invalid, which is a panic. *)
Theorem unclosed_string_loses_last_byte (l : Lexer) (body : list ascii) :
  let l0 := skipWhitespace l in
  drop (pos l0) (input l0) = gostr.dquote :: body →
  forallb plain body = true →
  NextToken l
  = match body with
    | [] => None
    | _ :: _ =>
        Some (mkToken TokenString (gostr.str (removelast body)) (line l0) (col l0),
              skip (S (length body)) l0)
    end.
Proof.
  intros l0 Hdrop Hplain.
  assert (pos l0 < length (input l0))%nat as Hlt.
  { destruct (decide (pos l0 < length (input l0))%nat); [done|].
    rewrite drop_ge in Hdrop by lia. done. }
  rewrite (drop_at _ _ Hlt) in Hdrop. injection Hdrop as Hq Hbody.
  assert (length (input l0) = (S (pos l0) + length body)%nat) as Hlen.
  { rewrite <- Hbody, length_drop. lia. }
  assert (Lexer_current l0 = gostr.dquote) as Hcur by (by rewrite current_at).
  assert (Ascii.eqb (Lexer_peek l0) gostr.dquote = false) as Hpeek.
  { unfold Lexer_peek, peekN. destruct (decide _); [done|].
    replace (pos l0 + 1)%nat with (S (pos l0)) by lia.
    assert (S (pos l0) < length (input l0))%nat as Hlt1 by lia.
    rewrite (drop_at _ _ Hlt1) in Hbody. rewrite <- Hbody in Hplain. simpl in Hplain.
    apply andb_true_iff in Hplain as [Hc _]. apply plain_spec in Hc as (Hc & _).
    by destruct (Ascii.eqb_spec (gostr.at_ (input l0) (S (pos l0))) gostr.dquote). }
  unfold NextToken. fold l0. rewrite decide_False by lia. rewrite Hcur, Hpeek.
  change (Ascii.eqb gostr.dquote gostr.lf) with false.
  change (Ascii.eqb gostr.dquote "#") with false.
  change (Ascii.eqb gostr.dquote gostr.dquote) with true.
  cbn [andb]. cbv iota.
  unfold readString.
  rewrite (advance_skip l0 Hlt) by (by rewrite Hcur).
  rewrite readString_loop_plain;
    [|simpl; replace (pos l0 + 1)%nat with (S (pos l0)) by lia; by rewrite Hbody
     |simpl; lia].
  rewrite skip_skip. cbn [input skip pos].
  replace (1 + (length (input l0) - (pos l0 + 1)))%nat with (S (length body)) by lia.
  rewrite decide_False by (simpl; lia). cbn [pos input line].
  unfold gostr.slice.
  destruct body as [|c body'].
  - rewrite decide_False by (simpl; lia). done.
  - rewrite decide_True by (simpl in *; lia).
    change (input (skip (S (length (c :: body'))) l0)) with (input l0).
    change (pos (skip (S (length (c :: body'))) l0))
      with (pos l0 + S (length (c :: body')))%nat.
    change (line (skip (S (length (c :: body'))) l0)) with (line l0).
    replace (pos l0 + 1)%nat with (S (pos l0)) by lia. rewrite Hbody.
    replace (pos l0 + S (length (c :: body')) - 1 - S (pos l0))%nat
      with (length (c :: body') - 1)%nat by (simpl; lia).
    cbn [mbind option_bind].
    assert (take (length (c :: body') - 1) (c :: body') = removelast (c :: body')) as ->.
    { generalize (c :: body'). intros v. induction v as [|x v IH]; [done|].
      destruct v as [|y v]; [done|]. simpl in *. f_equal.
      rewrite <- IH. f_equal. lia. }
    rewrite plain_unescaped; [done|].
    assert (∀ v, forallb plain v = true → forallb plain (removelast v) = true) as Hrl.
    { intros v. induction v as [|x v IH]; [done|]. destruct v as [|y v]; [done|].
      intros [Hx Hv]%andb_true_iff. change (removelast (x :: y :: v))
        with (x :: removelast (y :: v)). simpl forallb at 1.
      cbn [forallb]. rewrite Hx. by apply IH. }
    by apply Hrl.
Qed.

Lemma unclosed_string_loses_last_byte_witness :
  NextToken (NewLexer unclosed)
  = Some (mkToken TokenString "bc" 1 1, skip 4 (NewLexer unclosed)).
Proof.
  apply (unclosed_string_loses_last_byte (NewLexer unclosed) (gostr.bytes "bcd"));
    by vm_compute.
Defined.

End lexer_more.

(** ** Scopes and comparison of package runtime *)

Section runtime_facts.

Import parser runtime eval scoping cases.

Lemma Get_go_weaken (fuel : nat) (s : loc) (name : string) (E E' : Env) r :
  E ⊆ E' → Get_go fuel s name E = Some r → Get_go fuel s name E' = Some r.
Proof.
  intros Hsub. revert s. induction fuel as [|fuel IH]; intros s; [done|]. simpl.
  destruct (getScope s E) as [sc|] eqn:Es; [|done]. simpl.
  apply getScope_Some in Es. pose proof (lookup_weaken _ _ _ _ Es Hsub) as Es'.
  apply getScope_Some in Es'. rewrite Es'. simpl.
  destruct (vars sc !! name); [done|].
  destruct (parent sc) as [p|]; [apply IH|].
  unfold getGlobals.
  destruct (E !! globals sc) as [c|] eqn:Eg; [|done].
  by rewrite (lookup_weaken _ _ _ _ Eg Hsub).
Qed.

Lemma GetTemplate_go_mono (n m : nat) (s : loc) (name : string) (E : Env) r :
  GetTemplate_go n s name E = Some r → (n ≤ m)%nat → GetTemplate_go m s name E = Some r.
Proof.
  revert m s. induction n as [|n IH]; intros m s Hget Hle; [done|].
  destruct m as [|m]; [lia|]. simpl in *.
  destruct (getScope s E) as [sc|]; [|done]. simpl in *.
  destruct (getTemplates (templates sc) E) as [tm|]; [|done]. simpl in *.
  destruct (tm !! name); [done|].
  destruct (parent sc) as [p|]; [|done]. apply IH; [done|lia].
Qed.

Lemma Scope_Set_spec (s : loc) (name : string) (val : Value) (E E' : Env) :
  Scope_Set s name val E = Some E' →
  ∃ sc, E !! s = Some (CScope sc)
        ∧ E' = <[s := CScope (mkScope (parent sc) (<[name := val]> (vars sc))
                                (globals sc) (funcs sc) (templates sc))]> E.
Proof.
  unfold Scope_Set. destruct (getScope s E) as [sc|] eqn:Es; [|done]. simpl.
  intros [= <-]. exists sc. split; [by apply getScope_Some|done].
Qed.

Lemma size_insert_Some {A} (E : gmap loc A) (l : loc) (c c' : A) :
  E !! l = Some c → size (<[l := c']> E) = size E.
Proof.
  intros Hl. by apply map_size_insert_Some.
Qed.

(** What [NewScope(parent)] makes for a parent that is in the store: a
    scope that was not there, without variables, whose registries are the
    parent's. *)
Lemma NewScope_child (p : loc) (pc : Scope) (E E' : Env) (c : loc) :
  NewScope (Some p) E = Some (c, E') → getScope p E = Some pc →
  E !! c = None
  ∧ ∃ E1, E ⊆ E1 ∧ E1 !! c = None
      ∧ E' = <[c := CScope (mkScope (Some p) ∅ (globals pc) (funcs pc) (templates pc))]> E1.
Proof.
  unfold NewScope.
  set (g := fresh (dom E)). set (E1 := <[g := CGlobals ∅]> E).
  set (f := fresh (dom E1)). set (E2 := <[f := CFuncs ∅]> E1).
  set (t := fresh (dom E2)). set (E3 := <[t := CTemplates ∅]> E2).
  set (s' := fresh (dom E3)). set (E4 := <[s' := CScope (mkScope (Some p) ∅ g f t)]> E3).
  assert (E ⊆ E1) as H1 by apply insert_fresh_subseteq.
  assert (E1 ⊆ E2) as H2 by apply insert_fresh_subseteq.
  assert (E2 ⊆ E3) as H3 by apply insert_fresh_subseteq.
  assert (E3 ⊆ E4) as H4 by apply insert_fresh_subseteq.
  assert (E3 !! s' = None) as Hs3 by apply fresh_lookup.
  assert (E ⊆ E3) as H03 by (etrans; [|exact H3]; etrans; done).
  assert (E !! s' = None) as Hs0.
  { destruct (E !! s') eqn:Es; [|done].
    by rewrite (lookup_weaken _ _ _ _ Es H03) in Hs3. }
  intros HL Hp. unfold Link in HL.
  destruct (getScope s' E4) as [sc|] eqn:Esc; [|done]. simpl in HL.
  assert (getScope p E4 = Some pc) as Hp4.
  { apply getScope_Some. apply getScope_Some in Hp.
    eapply lookup_weaken; [exact Hp|]. by etrans. }
  rewrite Hp4 in HL. simpl in HL. injection HL as <- <-.
  unfold getScope, E4 in Esc. rewrite lookup_insert_eq in Esc. injection Esc as <-.
  simpl. split; [done|]. exists E3. split_and!; [done..|].
  unfold E4. by rewrite insert_insert_eq.
Qed.


Lemma Get_go_Set_other (s : loc) (name other : string) (val : Value) (E E' : Env) :
  Scope_Set s name val E = Some E' → other ≠ name →
  ∀ fuel s0, Get_go fuel s0 other E' = Get_go fuel s0 other E.
Proof.
  intros (sc & Hs & ->)%Scope_Set_spec Hne fuel.
  induction fuel as [|fuel IH]; intros s0; [done|]. simpl.
  assert (∀ g, getGlobals g (<[s := CScope (mkScope (parent sc) (<[name := val]> (vars sc))
                 (globals sc) (funcs sc) (templates sc))]> E) = getGlobals g E) as Hg.
  { intros g. unfold getGlobals. destruct (decide (g = s)) as [->|Hgs].
    - by rewrite lookup_insert_eq, Hs.
    - by rewrite lookup_insert_ne. }
  destruct (decide (s0 = s)) as [->|Hs0].
  - assert (getScope s (<[s := CScope (mkScope (parent sc) (<[name := val]> (vars sc))
              (globals sc) (funcs sc) (templates sc))]> E)
            = Some (mkScope (parent sc) (<[name := val]> (vars sc))
                      (globals sc) (funcs sc) (templates sc))) as ->.
    { unfold getScope. by rewrite lookup_insert_eq. }
    assert (getScope s E = Some sc) as -> by (by apply getScope_Some).
    simpl. rewrite lookup_insert_ne by done.
    destruct (vars sc !! other); [done|].
    destruct (parent sc); [apply IH|]. by rewrite Hg.
  - assert (getScope s0 (<[s := CScope (mkScope (parent sc) (<[name := val]> (vars sc))
              (globals sc) (funcs sc) (templates sc))]> E) = getScope s0 E) as ->.
    { unfold getScope. by rewrite lookup_insert_ne. }
    destruct (getScope s0 E) as [sc0|]; [|done]. simpl.
    destruct (vars sc0 !! other); [done|].
    destruct (parent sc0); [apply IH|]. by rewrite Hg.
Qed.

Lemma Get_go_Set_eq (s : loc) (name : string) (val : Value) (E E' : Env) :
  Scope_Set s name val E = Some E' → Scope_Get s name E' = Some (inl val).
Proof.
  intros (sc & Hs & ->)%Scope_Set_spec.
  unfold Scope_Get. simpl. unfold getScope. rewrite lookup_insert_eq. simpl.
  by rewrite lookup_insert_eq.
Qed.

(** X4: [Set] then [Get].  A variable that [s.Set(name, val)] binds is what
    [s.Get(name)] returns afterwards, whatever was bound to it before in
    the scope, its parents or the globals; and in no scope does the value
    of a variable of another name change. *)
Theorem scope_set_then_get (s : loc) (name : string) (val : Value) (E E' : Env) :
  Scope_Set s name val E = Some E' →
  Scope_Get s name E' = Some (inl val)
  ∧ ∀ s0 other, other ≠ name → Scope_Get s0 other E' = Scope_Get s0 other E.
Proof.
  intros HS. split; [by eapply Get_go_Set_eq|].
  intros s0 other Hne. unfold Scope_Get.
  rewrite (Get_go_Set_other _ _ _ _ _ _ HS Hne).
  apply Scope_Set_spec in HS as (sc & Hs & ->).
  by rewrite (size_insert_Some _ _ _ _ Hs).
Qed.

Lemma scope_set_then_get_witness :
  ∃ E', Scope_Set root "x" (NumberValue 42) (env store) = Some E'
        ∧ Scope_Get root "x" E' = Some (inl (NumberValue 42))
        ∧ Scope_Get root "y" E' = Some (inr "undefined variable: y").
Proof.
  destruct (Scope_Set root "x" (NumberValue 42) (env store)) as [E'|] eqn:HS;
    [|vm_compute in HS; discriminate HS].
  exists E'. split; [done|].
  destruct (scope_set_then_get root "x" (NumberValue 42) (env store) E' HS) as [Hx Hy].
  split; [exact Hx|]. rewrite Hy by done. vm_compute. reflexivity.
Defined.

(** X5: a child scope.  The scope that [NewScope(parent)] makes reads every
    variable as its parent does; a variable bound in the child afterwards
    hides the parent's for the child only, the parent still reads its
    own. *)
Theorem child_scope_reads_and_shadows (p c : loc) (E E' : Env) (name : string)
    (r : Value + string) :
  NewScope (Some p) E = Some (c, E') →
  Scope_Get p name E = Some r →
  Scope_Get c name E' = Some r
  ∧ ∀ val E'', Scope_Set c name val E' = Some E'' →
      Scope_Get c name E'' = Some (inl val) ∧ Scope_Get p name E'' = Some r.
Proof.
  intros HN Hget.
  assert (∃ pc, getScope p E = Some pc) as [pc Hp].
  { unfold Scope_Get in Hget. simpl in Hget.
    destruct (getScope p E) as [pc|]; [eauto|done]. }
  destruct (NewScope_child _ _ _ _ _ HN Hp) as (Hc & E1 & H01 & Hc1 & ->).
  set (child := mkScope (Some p) ∅ (globals pc) (funcs pc) (templates pc)).
  assert (E ⊆ <[c := CScope child]> E1) as Hsub.
  { etrans; [exact H01|]. by apply insert_subseteq. }
  assert (size E < size (<[c := CScope child]> E1))%nat as Hsize.
  { rewrite map_size_insert_None by done.
    apply Nat.lt_succ_r, map_subseteq_size, H01. }
  assert (∀ fuel E2, (size E < fuel)%nat → E ⊆ E2 → Get_go fuel p name E2 = Some r)
    as Hparent.
  { intros fuel E2 Hfuel HE2. eapply Get_go_weaken; [exact HE2|].
    eapply Get_go_mono; [exact Hget|lia]. }
  split.
  - unfold Scope_Get. simpl. unfold getScope. rewrite lookup_insert_eq. simpl.
    rewrite lookup_empty. by apply Hparent.
  - intros val E'' HS. split; [by eapply Get_go_Set_eq|].
    apply Scope_Set_spec in HS as (sc & Hsc & ->).
    unfold Scope_Get. rewrite (size_insert_Some _ _ _ _ Hsc).
    apply Hparent; [lia|]. rewrite insert_insert_eq.
    etrans; [exact H01|]. by apply insert_subseteq.
Qed.


Lemma child_scope_reads_and_shadows_witness :
  ∃ E c E' E'',
    Scope_Set root "x" (NumberValue 10) (env store) = Some E
    ∧ NewScope (Some root) E = Some (c, E')
    ∧ Scope_Get c "x" E' = Some (inl (NumberValue 10))
    ∧ Scope_Set c "x" (StringValue "child") E' = Some E''
    ∧ Scope_Get c "x" E'' = Some (inl (StringValue "child"))
    ∧ Scope_Get root "x" E'' = Some (inl (NumberValue 10)).
Proof.
  destruct (Scope_Set root "x" (NumberValue 10) (env store)) as [E|] eqn:HS;
    [|vm_compute in HS; discriminate HS].
  destruct (NewScope (Some root) E) as [[c E']|] eqn:HN;
    [|vm_compute in HS; injection HS as <-; vm_compute in HN; discriminate HN].
  destruct (Scope_Set c "x" (StringValue "child") E') as [E''|] eqn:HS';
    [|vm_compute in HS; injection HS as <-; vm_compute in HN; injection HN as <- <-;
      vm_compute in HS'; discriminate HS'].
  exists E, c, E', E''.
  destruct (child_scope_reads_and_shadows root c E E' "x" (inl (NumberValue 10)) HN)
    as [Hread Hshadow].
  { by eapply Get_go_Set_eq. }
  destruct (Hshadow _ _ HS') as [Hc Hp]. by split_and!.
Defined.

(** X6: the registries of a child.  [NewScope(parent)] links the new scope
    to its parent, so that both hold the same template and function maps:
    a template or a function defined through the child is found through
    the parent. *)
Theorem child_definitions_reach_parent (p c : loc) (E E' : Env) :
  NewScope (Some p) E = Some (c, E') → is_Some (getScope p E) →
  (∀ name tmpl E'', DefineTemplate c name tmpl E' = Some E'' →
     GetTemplate p name E'' = Some (inl tmpl))
  ∧ (∀ name f E'', SetFunction c name f E' = Some E'' →
       GetFunction p name E'' = Some (Some f)).
Proof.
  intros HN [pc Hp].
  destruct (NewScope_child _ _ _ _ _ HN Hp) as (Hc & E1 & H01 & Hc1 & ->).
  set (child := mkScope (Some p) ∅ (globals pc) (funcs pc) (templates pc)).
  assert (p ≠ c) as Hpc by (apply getScope_Some in Hp; congruence).
  assert (getScope c (<[c := CScope child]> E1) = Some child) as Hchild.
  { unfold getScope. by rewrite lookup_insert_eq. }
  assert (<[c := CScope child]> E1 !! p = Some (CScope pc)) as Hp'.
  { rewrite lookup_insert_ne by done. apply getScope_Some in Hp.
    by eapply lookup_weaken. }
  split.
  - intros name tmpl E''. unfold DefineTemplate. rewrite Hchild. simpl.
    unfold getTemplates at 1.
    destruct (<[c := CScope child]> E1 !! templates pc) as [[| | |m| |]|] eqn:Et;
      try done.
    simpl. intros [= <-].
    assert (p ≠ templates pc) as Hne by congruence.
    unfold GetTemplate. simpl. unfold getScope.
    rewrite lookup_insert_ne, Hp' by done. simpl.
    unfold getTemplates. rewrite lookup_insert_eq. simpl. by rewrite lookup_insert_eq.
  - intros name f E''. unfold SetFunction. rewrite Hchild. simpl.
    unfold getFuncs at 1.
    destruct (<[c := CScope child]> E1 !! funcs pc) as [[| |m| | |]|] eqn:Ef;
      try done.
    simpl. intros [= <-].
    assert (p ≠ funcs pc) as Hne by congruence.
    unfold GetFunction, getScope.
    rewrite lookup_insert_ne, Hp' by done. simpl.
    unfold getFuncs. rewrite lookup_insert_eq. simpl. by rewrite lookup_insert_eq.
Qed.

Lemma child_definitions_reach_parent_witness :
  ∃ c E' E'',
    NewScope (Some root) (env store) = Some (c, E')
    ∧ DefineTemplate c "t" secretTemplate E' = Some E''
    ∧ GetTemplate root "t" E'' = Some (inl secretTemplate).
Proof.
  destruct (NewScope (Some root) (env store)) as [[c E']|] eqn:HN;
    [|vm_compute in HN; discriminate HN].
  destruct (DefineTemplate c "t" secretTemplate E') as [E''|] eqn:HD;
    [|vm_compute in HN; injection HN as <- <-; vm_compute in HD; discriminate HD].
  exists c, E', E''. split_and!; [done..|].
  destruct (child_definitions_reach_parent root c (env store) E' HN) as [Ht _].
  { eexists. vm_compute. reflexivity. }
  by apply Ht.
Defined.

(** X7: globals.  A scope without parent that is linked to another scope, as
    the scope of an included template is to its caller's, reads under a
    name the global of that name of the other scope, and an undefined
    variable where there is none: nothing of the other's variables. *)
Theorem linked_scope_reads_globals_only (s t : loc) (sc : Scope)
    (m : gmap string Value) (E E1 E2 : Env) (name : string) :
  getScope s E = Some sc → getGlobals (globals sc) E = Some m →
  NewScope None E = Some (t, E1) → Link t s E1 = Some E2 →
  Scope_Get t name E2
  = Some (match m !! name with
          | Some val => inl val
          | None => inr ("undefined variable: " +:+ name)
          end).
Proof.
  intros Hs Hg HN HL.
  destruct (NewScope_Link _ _ _ _ _ HN HL) as (Ht & Hsub & sc1 & Hs1 & Ht2).
  apply NewScope_spec in HN as (_ & _ & Hsub1).
  assert (sc1 = sc) as ->.
  { apply getScope_Some in Hs. apply (lookup_weaken _ _ _ _ Hs) in Hsub1.
    apply getScope_Some in Hsub1. congruence. }
  unfold Scope_Get. simpl. apply getScope_Some in Ht2. rewrite Ht2. simpl.
  rewrite lookup_empty.
  assert (getGlobals (globals sc) E2 = Some m) as ->;
    [|simpl; by destruct (m !! name)].
  unfold getGlobals in *.
  destruct (E !! globals sc) as [cg|] eqn:Eg; [|done].
  by rewrite (lookup_weaken _ _ _ _ Eg Hsub).
Qed.

Lemma linked_scope_reads_globals_only_witness :
  ∃ E0 E t E1 E2,
    SetGlobal root "g" (NumberValue 1) (env store) = Some E0
    ∧ Scope_Set root "x" (NumberValue 2) E0 = Some E
    ∧ NewScope None E = Some (t, E1) ∧ Link t root E1 = Some E2
    ∧ Scope_Get t "g" E2 = Some (inl (NumberValue 1))
    ∧ Scope_Get t "x" E2 = Some (inr "undefined variable: x").
Proof.
  destruct (SetGlobal root "g" (NumberValue 1) (env store)) as [E0|] eqn:HG;
    [|vm_compute in HG; discriminate HG].
  destruct (Scope_Set root "x" (NumberValue 2) E0) as [E|] eqn:HS;
    [|vm_compute in HG; injection HG as <-; vm_compute in HS; discriminate HS].
  destruct (NewScope None E) as [[t E1]|] eqn:HN;
    [|vm_compute in HG; injection HG as <-; vm_compute in HS; injection HS as <-;
      vm_compute in HN; discriminate HN].
  destruct (Link t root E1) as [E2|] eqn:HL;
    [|vm_compute in HG; injection HG as <-; vm_compute in HS; injection HS as <-;
      vm_compute in HN; injection HN as <- <-; vm_compute in HL; discriminate HL].
  destruct (getScope root E) as [sc|] eqn:Hsc;
    [|vm_compute in HG; injection HG as <-; vm_compute in HS; injection HS as <-;
      vm_compute in Hsc; discriminate Hsc].
  destruct (getGlobals (globals sc) E) as [m|] eqn:Hm;
    [|vm_compute in HG; injection HG as <-; vm_compute in HS; injection HS as <-;
      vm_compute in Hsc; injection Hsc as <-; vm_compute in Hm; discriminate Hm].
  exists E0, E, t, E1, E2. split_and!; [done..| |].
  - rewrite (linked_scope_reads_globals_only root t sc m E E1 E2 "g" Hsc Hm HN HL).
    vm_compute in HG. injection HG as <-. vm_compute in HS. injection HS as <-.
    vm_compute in Hsc. injection Hsc as <-. vm_compute in Hm. injection Hm as <-.
    vm_compute. reflexivity.
  - rewrite (linked_scope_reads_globals_only root t sc m E E1 E2 "x" Hsc Hm HN HL).
    vm_compute in HG. injection HG as <-. vm_compute in HS. injection HS as <-.
    vm_compute in Hsc. injection Hsc as <-. vm_compute in Hm. injection Hm as <-.
    vm_compute. reflexivity.
Defined.


Lemma float_leb_refl (n : float) : PrimFloat.eqb n n = true → PrimFloat.leb n n = true.
Proof.
  rewrite FloatAxioms.eqb_spec, FloatAxioms.leb_spec. unfold SFeqb, SFleb.
  by destruct (SFcompare (Prim2SF n) (Prim2SF n)) as [[| |]|].
Qed.

Lemma float_ltb_irrefl (n : float) : PrimFloat.eqb n n = true → PrimFloat.ltb n n = false.
Proof.
  rewrite FloatAxioms.eqb_spec, FloatAxioms.ltb_spec. unfold SFeqb, SFltb.
  by destruct (SFcompare (Prim2SF n) (Prim2SF n)) as [[| |]|].
Qed.

(** X8: [==] against the ordering operators.  [Equal] compares without
    conversion and is false for values of different types, while [Less]
    and the like convert both sides to numbers first.  So a string that
    reads as a number is not equal to that number, and yet is both [<=] and
    [>=] it, and neither [<] nor [>] it. *)
Theorem ordering_converts_where_equality_does_not `{GoStdlib} (s : string) (n : float) :
  strconv_ParseFloat s = inl n → PrimFloat.eqb n n = true →
  Equal (StringValue s) (NumberValue n) = false
  ∧ NotEqual (StringValue s) (NumberValue n) = true
  ∧ LessEqual (StringValue s) (NumberValue n) = inl true
  ∧ GreaterEqual (StringValue s) (NumberValue n) = inl true
  ∧ Less (StringValue s) (NumberValue n) = inl false
  ∧ Greater (StringValue s) (NumberValue n) = inl false.
Proof.
  intros Hparse Hnum.
  unfold LessEqual, GreaterEqual, Less, Greater, compareWith. simpl. rewrite Hparse.
  rewrite (float_leb_refl _ Hnum), (float_ltb_irrefl _ Hnum). by split_and!.
Qed.

Lemma ordering_converts_where_equality_does_not_witness :
  Equal (StringValue "1") (NumberValue 1) = false
  ∧ LessEqual (H := golib.lib) (StringValue "1") (NumberValue 1) = inl true
  ∧ GreaterEqual (H := golib.lib) (StringValue "1") (NumberValue 1) = inl true.
Proof.
  destruct (ordering_converts_where_equality_does_not (H := golib.lib) "1" 1)
    as (He & _ & Hle & Hge & _).
  - vm_compute. reflexivity.
  - vm_compute. reflexivity.
  - by split_and!.
Defined.

End runtime_facts.

(** ** More of the evaluator *)

Section evaluator_more.

Import parser runtime eval scoping example cases samples.

Lemma envKept_registries own (E E' : Env) :
  envKept own E E' →
  (∀ l m, getFuncs l E = Some m → getFuncs l E' = Some m)
  ∧ (∀ l m, getTemplates l E = Some m → getTemplates l E' = Some m)
  ∧ (∀ l m, getGlobals l E = Some m → getGlobals l E' = Some m)
  ∧ (∀ l sc, l ∉ own → getScope l E = Some sc → getScope l E' = Some sc).
Proof.
  intros HK. split_and!.
  - intros l m. unfold getFuncs.
    destruct (E !! l) as [[| |m'| | |]|] eqn:El; try done.
    intros [= ->]. by rewrite (HK _ _ El).
  - intros l m. unfold getTemplates.
    destruct (E !! l) as [[| | |m'| |]|] eqn:El; try done.
    intros [= ->]. by rewrite (HK _ _ El).
  - intros l m. unfold getGlobals.
    destruct (E !! l) as [[|m'| | | |]|] eqn:El; try done.
    intros [= ->]. by rewrite (HK _ _ El).
  - intros l sc Hl Hsc. apply getScope_Some in Hsc. apply getScope_Some.
    pose proof (HK _ _ Hsc) as H'. simpl in H'.
    by destruct (decide (l ∈ own)).
Qed.

(** X9: what an evaluation leaves alone.  Whatever statement is evaluated,
    with whatever result, the maps of functions, of templates and of
    globals that the store holds are afterwards what they were, and so is
    every scope but the one the statement is evaluated in: a template
    defines no function, template or global, and binds no variable of
    another scope. *)
Theorem evaluation_keeps_registries `{GoStdlib} (fuel : nat) (e : evaluator) (n : Node)
    (σ σ' : State) (r : Res error unit) :
  evalStatement_n fuel e n σ = (r, σ') →
  (∀ l m, getFuncs l (env σ) = Some m → getFuncs l (env σ') = Some m)
  ∧ (∀ l m, getTemplates l (env σ) = Some m → getTemplates l (env σ') = Some m)
  ∧ (∀ l m, getGlobals l (env σ) = Some m → getGlobals l (env σ') = Some m)
  ∧ (∀ l sc, l ≠ scope e → getScope l (env σ) = Some sc → getScope l (env σ') = Some sc).
Proof.
  intros Hev.
  destruct (eval_frames fuel) as [_ Hs].
  pose proof (Hs {[scope e]} e n ltac:(by apply elem_of_singleton) _ _ _ Hev) as HK.
  destruct (envKept_registries _ _ _ HK) as (Hf & Ht & Hg & Hsc).
  split_and!; [done..|]. intros l sc Hne. apply Hsc.
  by intros ->%elem_of_singleton.
Qed.


Lemma evaluation_keeps_registries_witness :
  ∃ σ', evalStatement_n 3 caller bindY store = (Ok (), σ')
        ∧ getFuncs 2%positive (env σ') = Some ∅
        ∧ getTemplates 3%positive (env σ') = Some ∅.
Proof.
  destruct (evalStatement_n 3 caller bindY store) as [[[]| | |] σ'] eqn:Hev;
    [|vm_compute in Hev; discriminate Hev..].
  exists σ'. split; [done|].
  destruct (evaluation_keeps_registries (H := golib.lib) 3 caller bindY store σ' _ Hev)
    as (Hf & Ht & _).
  split; [apply Hf|apply Ht]; vm_compute; reflexivity.
Defined.

Lemma frames_iteration `{GoStdlib} (fuel : nat) (e : evaluator)
    (keyVar valueVar : string) (body : list Node) (key value : Value) :
  frames ∅ (evalForIteration (evalExpression_n fuel) (evalStatement_n fuel) e keyVar
              valueVar body key value).
Proof.
  destruct (eval_frames fuel) as [He Hs].
  unfold evalForIteration. apply frames_NewScope. intros s. cbv zeta.
  assert (s ∈ ({[s]} ∪ ∅ : gset loc)) as Hin by (apply elem_of_union; left; by apply elem_of_singleton).
  apply frames_bind; [|intros _].
  { destruct (negb _); [by apply frames_Scope_Set|apply frames_ret]. }
  apply frames_bind; [by apply frames_Scope_Set|intros _].
  by apply frames_evalForIteration_loop.
Qed.

Lemma envKept_empty_scopes (E E' : Env) (l : loc) (sc : Scope) :
  envKept ∅ E E' → getScope l E = Some sc → getScope l E' = Some sc.
Proof.
  intros HK. apply (envKept_registries _ _ _ HK). apply not_elem_of_empty.
Qed.

(** X10: the body of a [for].  Every iteration evaluates the body in a scope
    of its own, made for it.  So once the iterable is evaluated, the loop,
    however it ends, leaves every scope that existed as it was: what the
    body binds with [let] or assigns, also to a variable of an enclosing
    scope, is gone when the iteration ends. *)
Theorem for_body_binds_locally `{GoStdlib} (fuel : nat) (e : evaluator)
    (keyVar valueVar : string) (iterable : Expression) (body : list Node) (pos : Pos)
    (σ σ1 σ' : State) (iterVal : Value) (r : Res error unit) :
  evalExpression_n (S fuel) e iterable σ = (Ok iterVal, σ1) →
  evalStatement_n (S fuel) e (ForStatement keyVar valueVar iterable body pos) σ = (r, σ') →
  ∀ l sc, getScope l (env σ1) = Some sc → getScope l (env σ') = Some sc.
Proof.
  intros Hit Hev l sc. simpl in Hev. unfold evalForStatement in Hev.
  change (evalExpression (evalExpression_n fuel) (evalStatement_n fuel) e iterable)
    with (evalExpression_n (S fuel) e iterable) in Hev.
  rewrite (bind_Ok _ _ _ _ _ Hit) in Hev.
  apply envKept_empty_scopes.
  destruct iterVal; try (injection Hev as _ <-; apply envKept_refl).
  - unfold mbind, M_bind, getHeap in Hev.
    eapply frames_evalForStatement_loop; [|exact Hev].
    intros key elem. apply frames_iteration.
  - unfold mbind, M_bind, getHeap in Hev.
    eapply frames_evalForStatement_loop; [|exact Hev].
    intros key elem. apply frames_iteration.
Qed.

Lemma for_body_binds_locally_witness :
  ∃ σ0 a σ1 σ',
    evalStatement_n 3 caller bindY store = (Ok (), σ0)
    ∧ evalExpression_n 4 caller oneElement σ0
      = (Ok (ArrayValue a), σ1)
    ∧ evalStatement_n 4 caller assigningLoop σ0 = (Ok (), σ')
    ∧ Scope_Get root "y" (env σ') = Some (inl (NumberValue 2)).
Proof.
  destruct (evalStatement_n 3 caller bindY store) as [[[]| | |] σ0] eqn:H0;
    [|vm_compute in H0; discriminate H0..].
  destruct (evalExpression_n 4 caller oneElement σ0)
    as [[[| | | |a|]| | |] σ1] eqn:H1;
    try (vm_compute in H0; injection H0 as <-; vm_compute in H1; discriminate H1).
  destruct (evalStatement_n 4 caller assigningLoop σ0) as [[[]| | |] σ'] eqn:H2;
    [|vm_compute in H0; injection H0 as <-; vm_compute in H2; discriminate H2..].
  exists σ0, a, σ1, σ'. split_and!; [done..|].
  pose proof (for_body_binds_locally (H := golib.lib) 3 caller "" "x" _ _ _ σ0 σ1 σ' _ _
                H1 H2 root) as Hkept.
  vm_compute in H0. injection H0 as <-. vm_compute in H1. injection H1 as <- <-.
  specialize (Hkept _ eq_refl).
  unfold Scope_Get. simpl. change (scope caller) with root. rewrite Hkept. reflexivity.
Defined.


(** X11: the body of a [with].  The body is evaluated in a new scope that
    holds the [as] variable.  Once the context is evaluated, the statement
    leaves every scope that existed as it was: neither the [as] variable
    nor anything the body binds or assigns reaches the enclosing scope. *)
Theorem with_body_binds_locally `{GoStdlib} (fuel : nat) (e : evaluator)
    (context : Expression) (varName : string) (body : list Node) (pos : Pos)
    (σ σ1 σ' : State) (val : Value) (r : Res error unit) :
  evalExpression_n (S fuel) e context σ = (Ok val, σ1) →
  evalStatement_n (S fuel) e (WithStatement context varName body pos) σ = (r, σ') →
  ∀ l sc, getScope l (env σ1) = Some sc → getScope l (env σ') = Some sc.
Proof.
  intros Hctx Hev l sc. simpl in Hev. unfold evalWithStatement in Hev.
  change (evalExpression (evalExpression_n fuel) (evalStatement_n fuel) e context)
    with (evalExpression_n (S fuel) e context) in Hev.
  rewrite (bind_Ok _ _ _ _ _ Hctx) in Hev.
  apply envKept_empty_scopes. revert Hev. generalize σ1 r σ'.
  change (frames ∅
    (allocEnv (NewScope (Some (scope e))) ≫= λ newScope,
       updateEnv (Scope_Set newScope varName val) ≫= λ _,
         forEach body
           (collectNode (evalExpression_n fuel) (evalStatement_n fuel)
              (mkEvaluator newScope (coll e))))).
  destruct (eval_frames fuel) as [He Hs].
  apply frames_NewScope. intros s.
  assert (s ∈ ({[s]} ∪ ∅ : gset loc)) as Hin
    by (apply elem_of_union; left; by apply elem_of_singleton).
  apply frames_bind; [by apply frames_Scope_Set|intros _].
  apply frames_forEach. intros node. by apply frames_collectNode.
Qed.

(** A [with] whose body assigns to a variable of the enclosing scope. *)
Lemma with_body_binds_locally_witness :
  ∃ σ0 σ',
    evalStatement_n 3 caller bindY store = (Ok (), σ0)
    ∧ evalExpression_n 4 caller (NumberLiteral 1 (at_ 2 6)) σ0 = (Ok (NumberValue 1), σ0)
    ∧ evalStatement_n 4 caller assigningWith σ0 = (Ok (), σ')
    ∧ Scope_Get root "y" (env σ') = Some (inl (NumberValue 2)).
Proof.
  destruct (evalStatement_n 3 caller bindY store) as [[[]| | |] σ0] eqn:H0;
    [|vm_compute in H0; discriminate H0..].
  destruct (evalStatement_n 4 caller assigningWith σ0) as [[[]| | |] σ'] eqn:H2;
    [|vm_compute in H0; injection H0 as <-; vm_compute in H2; discriminate H2..].
  exists σ0, σ'. split_and!; [done..|].
  pose proof (with_body_binds_locally (H := golib.lib) 3 caller
                (NumberLiteral 1 (at_ 2 6)) "x" _ (at_ 2 1) σ0 σ0 σ' (NumberValue 1) _
                eq_refl H2 root) as Hkept.
  vm_compute in H0. injection H0 as <-.
  specialize (Hkept _ eq_refl).
  unfold Scope_Get. simpl. change (scope caller) with root. rewrite Hkept. reflexivity.
Defined.


Lemma literal_needs_no_more_fuel `{GoStdlib} (fuel : nat) (e : evaluator)
    (x : Expression) (σ σ' σ2 : State) (v : Value) (s : string) (pos : Pos) :
  evalExpression_n fuel e x σ = (Ok v, σ') →
  evalExpression_n fuel e (StringLiteral s pos) σ2 = (Ok (StringValue s), σ2).
Proof. destruct fuel; [done|]. reflexivity. Qed.

(** X12: the index of an array.  The number that indexes an array is cut to
    an integer.  Inside the bounds the value is the element at that offset;
    below zero, or at or beyond the length, the expression ends with the
    eval error [array index out of bounds], never with a crash. *)
Theorem array_index_is_checked `{GoStdlib} (fuel : nat) (e : evaluator)
    (object index : Expression) (pos : Pos) (σ σ1 σ2 : State) (a : loc) (num : float) :
  evalExpression_n fuel e object σ = (Ok (ArrayValue a), σ1) →
  evalExpression_n fuel e index σ1 = (Ok (NumberValue num), σ2) →
  let idx := gofloat.to_int num in
  let elements := Elements (heap σ2) a in
  let result := evalExpression_n (S fuel) e (IndexExpression object index pos) σ in
  (0 ≤ idx < Z.of_nat (length elements) →
   ∃ val, elements !! Z.to_nat idx = Some val ∧ result = (Ok val, σ2))
  ∧ (idx < 0 ∨ Z.of_nat (length elements) ≤ idx →
     result = (Err (errorf pos ("array index out of bounds: " +:+ gostr.itoa idx)), σ2)).
Proof.
  intros Ho Hi idx elements result. subst result. simpl. unfold evalIndexExpression.
  rewrite (bind_Ok _ _ _ _ _ Ho), (bind_Ok _ _ _ _ _ Hi).
  unfold mbind, M_bind, getHeap. fold idx elements. split.
  - intros [Hlo Hhi].
    destruct (idx <? 0) eqn:E1; [lia|].
    destruct (Z.of_nat (length elements) <=? idx) eqn:E2; [lia|]. simpl.
    destruct (elements !! Z.to_nat idx) as [val|] eqn:El; [eauto|].
    apply lookup_ge_None in El. lia.
  - intros Hout.
    destruct (idx <? 0) eqn:E1; [done|].
    destruct (Z.of_nat (length elements) <=? idx) eqn:E2; [done|]. lia.
Qed.

(** X13: a field that is missing.  [object.member] is lenient: where the
    object has no such field, and where the object is null, its value is
    null.  [object["member"]] is not: the missing field is the eval error
    [undefined field], and null cannot be indexed. *)
Theorem missing_field_is_null_for_member_only `{GoStdlib} (fuel : nat) (e : evaluator)
    (object : Expression) (member : string) (pos ipos : Pos) (σ σ' : State)
    (objVal : Value) :
  evalExpression_n fuel e object σ = (Ok objVal, σ') →
  objVal = NullValue ∨ (∃ o, objVal = ObjectValue o ∧ Get (heap σ') o member = None) →
  evalExpression_n (S fuel) e (MemberExpression object member pos) σ = (Ok NullValue, σ')
  ∧ evalExpression_n (S fuel) e
      (IndexExpression object (StringLiteral member ipos) pos) σ
    = (Err (errorf pos (match objVal with
                        | NullValue => "cannot index null"
                        | _ => "undefined field: " +:+ member
                        end)), σ').
Proof.
  intros Ho Hcase.
  pose proof (literal_needs_no_more_fuel _ _ _ _ _ σ' _ member ipos Ho) as Hlit.
  simpl. unfold evalMemberExpression, evalIndexExpression.
  rewrite !(bind_Ok _ _ _ _ _ Ho), (bind_Ok _ _ _ _ _ Hlit).
  destruct Hcase as [->|(o & -> & Hget)]; [done|].
  simpl. unfold mbind, M_bind, getHeap. by rewrite Hget.
Qed.


Lemma array_index_is_checked_witness :
  ∃ a σ1,
    evalExpression_n 3 caller oneElement store = (Ok (ArrayValue a), σ1)
    ∧ evalExpression_n 4 caller
        (IndexExpression oneElement (NumberLiteral 0 (at_ 2 15)) (at_ 2 14)) store
      = (Ok (NumberValue 1), σ1)
    ∧ evalExpression_n 4 caller
        (IndexExpression oneElement (NumberLiteral 1 (at_ 2 15)) (at_ 2 14)) store
      = (Err (errorf (at_ 2 14) "array index out of bounds: 1"), σ1).
Proof.
  destruct (evalExpression_n 3 caller oneElement store) as [[[| | | |a|]| | |] σ1] eqn:H1;
    try (vm_compute in H1; discriminate H1).
  exists a, σ1. split; [done|]. split.
  - destruct (array_index_is_checked (H := golib.lib) 3 caller oneElement
                (NumberLiteral 0 (at_ 2 15)) (at_ 2 14) store σ1 σ1 a 0 H1 eq_refl)
      as [Hin _].
    destruct Hin as (val & Hval & ->).
    + vm_compute in H1. injection H1 as <- <-. by vm_compute.
    + vm_compute in H1. injection H1 as <- <-. vm_compute in Hval. by injection Hval as <-.
  - destruct (array_index_is_checked (H := golib.lib) 3 caller oneElement
                (NumberLiteral 1 (at_ 2 15)) (at_ 2 14) store σ1 σ1 a 1 H1 eq_refl)
      as [_ Hout].
    rewrite Hout; [done|].
    right. vm_compute in H1. injection H1 as <- <-. by vm_compute.
Defined.

Lemma missing_field_is_null_for_member_only_witness :
  evalExpression_n 3 caller (MemberExpression (NullLiteral (at_ 1 1)) "a" (at_ 1 5)) store
  = (Ok NullValue, store).
Proof.
  apply (missing_field_is_null_for_member_only (H := golib.lib) 2 caller
           (NullLiteral (at_ 1 1)) "a" (at_ 1 5) (at_ 1 6) store store NullValue).
  - reflexivity.
  - by left.
Defined.

Lemma DefineTemplate_spec (s : loc) (name : string) (tmpl : Template) (E E' : Env) :
  DefineTemplate s name tmpl E = Some E' →
  ∃ sc m, getScope s E = Some sc ∧ getTemplates (templates sc) E = Some m
          ∧ getScope s E' = Some sc
          ∧ getTemplates (templates sc) E' = Some (<[name := tmpl]> m).
Proof.
  unfold DefineTemplate.
  destruct (getScope s E) as [sc|] eqn:Es; [|done]. simpl.
  destruct (getTemplates (templates sc) E) as [m|] eqn:Em; [|done]. simpl.
  intros [= <-]. exists sc, m. split_and!; [done..| |].
  - unfold getScope, getTemplates in *.
    destruct (decide (s = templates sc)) as [Heq|Hne].
    + rewrite <- Heq in Em. by destruct (E !! s) as [[| | | | |]|].
    + by rewrite lookup_insert_ne.
  - unfold getTemplates. by rewrite lookup_insert_eq.
Qed.

Lemma registerDefinition_spec (root : loc) (def : TemplateDefinition) (σ σ' : State) :
  registerDefinition root def σ = (Ok (), σ') →
  ∃ sc m filename,
    getScope root (env σ) = Some sc ∧ getTemplates (templates sc) (env σ) = Some m
    ∧ getScope root (env σ') = Some sc
    ∧ getTemplates (templates sc) (env σ')
      = Some (<[def_Name def := NewTemplate (def_Name def) (def_Body def) filename]> m).
Proof.
  unfold registerDefinition. intros (filename & σ1 & Hf & Hdef)%bind_inv_Ok.
  assert (σ1 = σ) as ->.
  { destruct (def_Body def) as [|first rest]; [by injection Hf as _ <-|].
    apply bind_inv_Ok in Hf as (pos & σ2 & Hpos & Hret).
    injection Hret as _ <-. destruct (GetPos first); [by injection Hpos as _ <-|done]. }
  unfold updateEnv in Hdef.
  destruct (DefineTemplate root _ _ (env σ)) as [E'|] eqn:HD; [|done].
  injection Hdef as <-. simpl.
  apply DefineTemplate_spec in HD as (sc & m & ? & ? & ? & ?). by exists sc, m, filename.
Qed.

Lemma forEach_app_Ok {A} (l1 l2 : list A) (f : A → M unit) (σ σ' : State) :
  forEach (l1 ++ l2) f σ = (Ok (), σ') →
  ∃ σ1, forEach l1 f σ = (Ok (), σ1) ∧ forEach l2 f σ1 = (Ok (), σ').
Proof.
  revert σ. induction l1 as [|x l1 IH]; intros σ; simpl.
  - intros Hr. by exists σ.
  - intros (u & σ1 & Hx & Hrest)%bind_inv_Ok. destruct u.
    apply IH in Hrest as (σ2 & H1 & H2). exists σ2. split; [|done].
    by rewrite (bind_Ok _ _ _ _ _ Hx).
Qed.

Lemma registerDefinition_others (root : loc) (name : string) (sc : Scope)
    (post : list TemplateDefinition) :
  Forall (λ d', def_Name d' ≠ name) post →
  ∀ σ σ' m, forEach post (registerDefinition root) σ = (Ok (), σ') →
    getScope root (env σ) = Some sc → getTemplates (templates sc) (env σ) = Some m →
    ∃ m', getScope root (env σ') = Some sc
          ∧ getTemplates (templates sc) (env σ') = Some m' ∧ m' !! name = m !! name.
Proof.
  induction 1 as [|d post Hd Hpost IH]; intros σ σ' m; simpl.
  - intros [= <-] Hs Hm. by exists m.
  - intros (u & σ1 & Hreg & Hrest)%bind_inv_Ok Hs Hm. destruct u.
    apply registerDefinition_spec in Hreg as (sc1 & m1 & filename & Hs1 & Hm1 & Hs1' & Hm1').
    assert (sc1 = sc) as -> by congruence. assert (m1 = m) as -> by congruence.
    destruct (IH _ _ _ Hrest Hs1' Hm1') as (m' & Hs' & Hm' & Hlook).
    exists m'. split_and!; [done..|]. by rewrite Hlook, lookup_insert_ne.
Qed.

(** X14: definitions of the same name.  [EvalDocument] registers the
    definitions of a document in their order, each under its name.  When
    that succeeds, the template found under a name is the one of the last
    definition of that name: a later [define] replaces an earlier one
    without an error. *)
Theorem later_definition_replaces_earlier (root : loc)
    (pre post : list TemplateDefinition) (d : TemplateDefinition) (σ σ' : State) :
  forEach (pre ++ d :: post) (registerDefinition root) σ = (Ok (), σ') →
  Forall (λ d', def_Name d' ≠ def_Name d) post →
  ∃ filename,
    GetTemplate root (def_Name d) (env σ')
    = Some (inl (NewTemplate (def_Name d) (def_Body d) filename)).
Proof.
  intros (σ1 & _ & Hrest)%forEach_app_Ok Hpost. simpl in Hrest.
  apply bind_inv_Ok in Hrest as (u & σ2 & Hreg & Hrest). destruct u.
  apply registerDefinition_spec in Hreg as (sc & m & filename & _ & _ & Hs & Hm).
  destruct (registerDefinition_others _ _ _ _ Hpost _ _ _ Hrest Hs Hm)
    as (m' & Hs' & Hm' & Hlook).
  exists filename. unfold GetTemplate. simpl. rewrite Hs'. simpl. rewrite Hm'. simpl.
  by rewrite Hlook, lookup_insert_eq.
Qed.


Lemma later_definition_replaces_earlier_witness :
  ∃ σ' filename,
    forEach [firstT; secondT] (registerDefinition root) store = (Ok (), σ')
    ∧ GetTemplate root "t" (env σ')
      = Some (inl (NewTemplate "t" (def_Body secondT) filename)).
Proof.
  destruct (forEach [firstT; secondT] (registerDefinition root) store)
    as [[[]| | |] σ'] eqn:Hreg; [|vm_compute in Hreg; discriminate Hreg..].
  destruct (later_definition_replaces_earlier root [firstT] [] secondT store σ' Hreg)
    as [filename Hget]; [by constructor|].
  by exists σ', filename.
Defined.

Lemma append_assoc (a b c : string) : (a +:+ b) +:+ c = a +:+ (b +:+ c).
Proof.
  induction a as [|ch a IH]; [done|].
  change (String ch ((a +:+ b) +:+ c) = String ch (a +:+ (b +:+ c))). by f_equal.
Qed.

Lemma append_empty_r (a : string) : a +:+ EmptyString = a.
Proof.
  induction a as [|ch a IH]; [done|].
  change (String ch (a +:+ EmptyString) = String ch a). by f_equal.
Qed.

Lemma interpolated_loop_concatenates `{GoStdlib}
    (evalExpression_rec : evaluator → Expression → M Value) (e : evaluator) (pos : Pos)
    (parts : list Expression) :
  ∀ (result : string) (σ σ' : State) (vals : list Value) (strs : list string),
    mapM (evalExpression_rec e) parts σ = (Ok vals, σ') →
    Forall2 (λ val str, ToString val = inl str) vals strs →
    evalInterpolatedString_loop evalExpression_rec e pos parts result σ
    = (Ok (StringValue (result +:+ foldr String.append EmptyString strs)), σ').
Proof.
  induction parts as [|part parts IH]; intros result σ σ' vals strs; simpl.
  - intros [= <- <-] Hstrs. inversion Hstrs. simpl.
    by rewrite append_empty_r.
  - intros (val & σ1 & Hval & Hrest)%bind_inv_Ok.
    apply bind_inv_Ok in Hrest as (vals' & σ2 & Hvals & Hret).
    injection Hret as <- <-. intros Hstrs.
    inversion Hstrs as [|? str ? strs' Hstr Hstrs']; subst.
    rewrite (bind_Ok _ _ _ _ _ Hval), Hstr.
    rewrite (IH _ _ _ _ _ Hvals Hstrs'). simpl. by rewrite append_assoc.
Qed.

(** X15: an interpolated string.  Its parts are evaluated from left to
    right, each in the state the one before left, and where every value
    converts to a string the result is the string of the conversions put
    together in that order. *)
Theorem interpolated_string_concatenates `{GoStdlib} (fuel : nat) (e : evaluator)
    (parts : list Expression) (pos : Pos) (σ σ' : State) (vals : list Value)
    (strs : list string) :
  mapM (evalExpression_n fuel e) parts σ = (Ok vals, σ') →
  Forall2 (λ val str, ToString val = inl str) vals strs →
  evalExpression_n (S fuel) e (InterpolatedString parts pos) σ
  = (Ok (StringValue (foldr String.append EmptyString strs)), σ').
Proof.
  intros Hvals Hstrs. simpl. unfold evalInterpolatedString.
  by rewrite (interpolated_loop_concatenates _ _ _ _ _ _ _ _ _ Hvals Hstrs).
Qed.


Lemma interpolated_string_concatenates_witness :
  evalExpression_n (H := golib.lib) 2 caller
    (InterpolatedString [StringLiteral "a" (at_ 1 1); NullLiteral (at_ 1 2)] (at_ 1 1))
    store
  = (Ok (StringValue "anull"), store).
Proof.
  apply (interpolated_string_concatenates (H := golib.lib) 1 caller
           [StringLiteral "a" (at_ 1 1); NullLiteral (at_ 1 2)] (at_ 1 1) store store
           [StringValue "a"; NullValue] ["a"; "null"]%string).
  - reflexivity.
  - repeat constructor.
Defined.

(** X16: a [break] under an [if].  [break] ends a loop only where it is
    itself an item of the body of the [for].  Inside an [if] of the body
    it is handed to [evalStatement], which knows no such statement: the
    iteration, and with it the loop, ends with the eval error
    [unsupported statement: *parser.BreakStatement], so that no loop can be
    left on a condition. *)
Theorem break_under_if_is_unsupported `{GoStdlib} (fuel : nat) (sub : evaluator)
    (condition : Expression) (rest else_ body : list Node) (bpos ipos : Pos)
    (σ σ1 : State) (cond : Value) :
  evalExpression_n (S (S fuel)) sub condition σ = (Ok cond, σ1) →
  IsTruthy (heap σ1) cond = true →
  evalForIteration_loop (evalExpression_n (S (S fuel))) (evalStatement_n (S (S fuel))) sub
    (IfStatement condition (BreakStatement bpos :: rest) else_ ipos :: body) σ
  = (Err (errorf bpos "unsupported statement: *parser.BreakStatement"), σ1).
Proof.
  intros Hcond Htruthy.
  assert (evalStatement_n (S (S fuel)) sub
            (IfStatement condition (BreakStatement bpos :: rest) else_ ipos) σ
          = (Err (errorf bpos "unsupported statement: *parser.BreakStatement"), σ1))
    as Hif.
  { change (evalStatement_n (S (S fuel)) sub
              (IfStatement condition (BreakStatement bpos :: rest) else_ ipos))
      with (cond ← evalExpression_n (S (S fuel)) sub condition;
            h ← getHeap;
            forEach (if IsTruthy h cond then BreakStatement bpos :: rest else else_)
              (collectNode (evalExpression_n (S fuel)) (evalStatement_n (S fuel)) sub)).
    rewrite (bind_Ok _ _ _ _ _ Hcond). unfold mbind, M_bind, getHeap.
    rewrite Htruthy. reflexivity. }
  change (evalForIteration_loop (evalExpression_n (S (S fuel)))
            (evalStatement_n (S (S fuel))) sub
            (IfStatement condition (BreakStatement bpos :: rest) else_ ipos :: body))
    with (_ ← evalStatement_n (S (S fuel)) sub
                (IfStatement condition (BreakStatement bpos :: rest) else_ ipos);
          evalForIteration_loop (evalExpression_n (S (S fuel)))
            (evalStatement_n (S (S fuel))) sub body).
  by rewrite (bind_Err _ _ _ _ _ Hif).
Qed.

Lemma break_under_if_is_unsupported_witness :
  evalForIteration_loop (evalExpression_n (H := golib.lib) 2) (evalStatement_n 2) caller
    [IfStatement (BooleanLiteral true (at_ 2 6)) [BreakStatement (at_ 3 5)] [] (at_ 2 3)]
    store
  = (Err (EvalError "unsupported statement: *parser.BreakStatement" "test.helmtk" 3 5),
     store).
Proof.
  apply (break_under_if_is_unsupported (H := golib.lib) 0 caller
           (BooleanLiteral true (at_ 2 6)) [] [] [] (at_ 3 5) (at_ 2 3) store store
           (BoolValue true)); reflexivity.
Defined.

End evaluator_more.

(** ** More of the function library *)

Section library_more.

Import runtime funcs library samples.

Lemma newArray_spec (els : list Value) (h : Heap) :
  newArray els h = (Ok (ArrayValue (newLoc h)), <[newLoc h := HArray els]> h).
Proof. reflexivity. Qed.

Lemma Elements_new (els : list Value) (h : Heap) (l : loc) :
  Elements (<[l := HArray els]> h) l = els.
Proof. unfold Elements. by rewrite lookup_insert_eq. Qed.

(** X17: [reverse] twice.  [reverse] of an array is a new array with the
    elements in the opposite order, and [reverse] of that one holds the
    elements of the first in their order again. *)
Theorem reverse_twice_restores (a : loc) (h : Heap) :
  ∃ r h1 r2 h2,
    reverseFunc [ArrayValue a] h = (Ok (ArrayValue r), h1)
    ∧ Elements h1 r = rev (Elements h a)
    ∧ reverseFunc [ArrayValue r] h1 = (Ok (ArrayValue r2), h2)
    ∧ Elements h2 r2 = Elements h a.
Proof.
  exists (newLoc h), (<[newLoc h := HArray (rev (Elements h a))]> h).
  eexists _, _. split_and!.
  - reflexivity.
  - apply Elements_new.
  - unfold reverseFunc, elements, mbind, F_bind. rewrite newArray_spec. reflexivity.
  - rewrite Elements_new, Elements_new. apply rev_involutive.
Qed.

(** X18: the ends of an array.  Of an empty array [first] and [last] are
    errors, [rest] and [initial] are empty arrays.  Of any other array
    [first] is the element that, put before the elements of [rest], gives
    the array, and [last] the one that, put behind those of [initial],
    gives it. *)
Theorem ends_of_an_array (a : loc) (h : Heap) :
  (Elements h a = [] →
   firstFunc [ArrayValue a] h = (Err "first: array is empty", h)
   ∧ lastFunc [ArrayValue a] h = (Err "last: array is empty", h)
   ∧ (∃ r h', restFunc [ArrayValue a] h = (Ok (ArrayValue r), h') ∧ Elements h' r = [])
   ∧ (∃ r h', initialFunc [ArrayValue a] h = (Ok (ArrayValue r), h')
              ∧ Elements h' r = []))
  ∧ (Elements h a ≠ [] →
     ∃ x y r i h1 h2,
       firstFunc [ArrayValue a] h = (Ok x, h)
       ∧ restFunc [ArrayValue a] h = (Ok (ArrayValue r), h1)
       ∧ x :: Elements h1 r = Elements h a
       ∧ lastFunc [ArrayValue a] h = (Ok y, h)
       ∧ initialFunc [ArrayValue a] h = (Ok (ArrayValue i), h2)
       ∧ Elements h2 i ++ [y] = Elements h a).
Proof.
  unfold firstFunc, lastFunc, restFunc, initialFunc, elements, mbind, F_bind, fail,
    mret, F_ret.
  rewrite !newArray_spec. split.
  - intros ->. simpl. split_and!; [done|done| |];
      eexists _, _; (split; [reflexivity|apply Elements_new]).
  - intros Hne. destruct (Elements h a) as [|x xs] eqn:Hels; [done|].
    destruct (last (x :: xs)) as [y|] eqn:Hlast;
      [|by apply last_None in Hlast].
    exists x, y. eexists _, _, _, _. split_and!; try reflexivity.
    + by rewrite Elements_new.
    + rewrite Elements_new.
      apply last_Some in Hlast as [l' Hl']. rewrite Hl'.
      rewrite length_app. simpl.
      replace (length l' + 1 - 1)%nat with (length l') by lia.
      by rewrite take_app_length.
Qed.


(** X19: [keys] and [values].  [keys] of an object is a new array that holds
    every key of the object once, as a string, and [values] one that holds
    the value of every field once; the order of either is that of a Go map
    range and not specified, so the one need not match the other. *)
Theorem keys_and_values_enumerate `{GoStdlib} (o : loc) (h : Heap) :
  (∃ r h', keysFunc [ObjectValue o] h = (Ok (ArrayValue r), h')
           ∧ Elements h' r ≡ₚ StringValue <$> (map_to_list (Fields h o)).*1
           ∧ length (Elements h' r) = size (Fields h o))
  ∧ (∃ r h', valuesFunc [ObjectValue o] h = (Ok (ArrayValue r), h')
             ∧ Elements h' r ≡ₚ (map_to_list (Fields h o)).*2
             ∧ length (Elements h' r) = size (Fields h o)).
Proof.
  unfold keysFunc, valuesFunc, fields, mbind, F_bind. rewrite !newArray_spec.
  split; eexists _, _; (split; [reflexivity|]); rewrite Elements_new.
  - assert ((λ kv : string * Value, StringValue kv.1) <$> rangeMap (Fields h o)
            ≡ₚ StringValue <$> (map_to_list (Fields h o)).*1) as Hperm.
    { rewrite (rangeMap_perm _ (Fields h o)). by rewrite <- list_fmap_compose. }
    split; [done|].
    by rewrite Hperm, !length_fmap, length_map_to_list.
  - assert ((λ kv : string * Value, kv.2) <$> rangeMap (Fields h o)
            ≡ₚ (map_to_list (Fields h o)).*2) as Hperm.
    { by rewrite (rangeMap_perm _ (Fields h o)). }
    split; [done|].
    by rewrite Hperm, !length_fmap, length_map_to_list.
Qed.

(** X20: [default] and [coalesce].  [default(d, v)] is [v] where [v] is
    truthy and [d] otherwise, so that zero, the empty string, false and an
    empty array or object give way to [d] as null does; and [coalesce] of
    two values is [default] with its arguments the other way round. *)
Theorem default_is_coalesce_reversed (d v : Value) (h : Heap) :
  defaultFunc [d; v] h = (Ok (if IsTruthy h v then v else d), h)
  ∧ coalesceFunc [v; d] h = defaultFunc [d; v] h.
Proof.
  unfold defaultFunc, coalesceFunc. simpl.
  unfold truthy, mbind, F_bind, mret, F_ret.
  destruct v; simpl; try done.
  - destruct (negb (String.eqb Value0 EmptyString)); simpl; [done|].
    by destruct (IsTruthy h d), (bool_decide (Type_ d = NullType)).
  - destruct (negb (gofloat.isZero Value0)); simpl; [done|].
    by destruct (IsTruthy h d), (bool_decide (Type_ d = NullType)).
  - destruct Value0; simpl; [done|].
    by destruct (IsTruthy h d), (bool_decide (Type_ d = NullType)).
  - by destruct (IsTruthy h d), (bool_decide (Type_ d = NullType)).
  - destruct (bool_decide _); simpl; [done|].
    by destruct (IsTruthy h d), (bool_decide (Type_ d = NullType)).
  - destruct (bool_decide _); simpl; [done|].
    by destruct (IsTruthy h d), (bool_decide (Type_ d = NullType)).
Qed.

(** X21: a negative count.  [repeat] and [nindent] hand the count they are
    given, cut to an integer, to [strings.Repeat] without a check: a
    negative count is not an error of the function but a panic. *)
Theorem negative_repeat_count_panics `{GoStdlib} (count text : Value) (n : float)
    (str : string) (h : Heap) :
  ToNumber count = inl n → gofloat.to_int n < 0 → ToString text = inl str →
  repeatFunc [count; text] h = (Panic, h)
  ∧ nindentFunc [text; count] h = (Panic, h).
Proof.
  intros Hn Hneg Hstr.
  unfold repeatFunc, nindentFunc, toNumber, toString, Repeat. rewrite Hn, Hstr.
  unfold mbind, F_bind, mret, F_ret, crash.
  apply Z.ltb_lt in Hneg. by rewrite Hneg.
Qed.

Lemma negative_repeat_count_panics_witness :
  repeatFunc (H := golib.lib) [NumberValue (-1); StringValue "ab"] ∅ = (Panic, ∅).
Proof.
  apply (negative_repeat_count_panics (H := golib.lib) (NumberValue (-1))
           (StringValue "ab") (-1) "ab" ∅).
  - reflexivity.
  - by vm_compute.
  - reflexivity.
Defined.


Lemma uniq_loop_spec `{GoStdlib} (els : list Value) :
  ∀ seen,
    NoDup (toStringOrEmpty <$> uniq_loop els seen)
    ∧ (∀ str, str ∈ toStringOrEmpty <$> uniq_loop els seen → str ∉ seen)
    ∧ sublist (uniq_loop els seen) els
    ∧ (∀ v, v ∈ els → toStringOrEmpty v ∈ seen
                     ∨ toStringOrEmpty v ∈ toStringOrEmpty <$> uniq_loop els seen).
Proof.
  induction els as [|v els IH]; intros seen; simpl.
  - split_and!; [constructor|by intros str ?%elem_of_nil|done|by intros v ?%elem_of_nil].
  - case_bool_decide as Hseen.
    + destruct (IH seen) as (Hnd & Hnot & Hsub & Hall).
      split_and!; [done|done|by constructor|].
      intros w [->|Hw]%elem_of_cons; [by left|by apply Hall].
    + destruct (IH (toStringOrEmpty v :: seen)) as (Hnd & Hnot & Hsub & Hall).
      split_and!.
      * rewrite fmap_cons. constructor; [|done].
        intros Hin%Hnot. apply Hin. by left.
      * intros str. rewrite fmap_cons. intros [->|Hin%Hnot]%elem_of_cons; [done|].
        intros Hs. apply Hin. by right.
      * by constructor.
      * intros w [->|Hw]%elem_of_cons.
        -- right. rewrite fmap_cons. by left.
        -- destruct (Hall w Hw) as [[Heq|Hin]%elem_of_cons|Hin].
           ++ right. rewrite fmap_cons, Heq. by left.
           ++ by left.
           ++ right. rewrite fmap_cons. by right.
Qed.

(** X22: [uniq].  [uniq] tells its elements apart by the string they
    convert to, the empty string where they do not convert.  The new array
    holds, in their order, the first element of every such string: no two
    of its elements convert to the same string, and every element of the
    argument converts to the string of one of them.  So of all arrays,
    objects and empty strings of the argument only the first is kept. *)
Theorem uniq_keeps_first_of_each_text `{GoStdlib} (a : loc) (h : Heap) :
  ∃ r h',
    uniqFunc [ArrayValue a] h = (Ok (ArrayValue r), h')
    ∧ NoDup (toStringOrEmpty <$> Elements h' r)
    ∧ sublist (Elements h' r) (Elements h a)
    ∧ head (Elements h' r) = head (Elements h a)
    ∧ ∀ v, v ∈ Elements h a →
           toStringOrEmpty v ∈ toStringOrEmpty <$> Elements h' r.
Proof.
  unfold uniqFunc, elements, mbind, F_bind. rewrite newArray_spec.
  eexists _, _. split; [reflexivity|]. rewrite Elements_new.
  destruct (uniq_loop_spec (Elements h a) []) as (Hnd & _ & Hsub & Hall).
  split_and!; [done|done| |].
  - by destruct (Elements h a) as [|v els].
  - intros v Hv. destruct (Hall v Hv) as [Hin|Hin]; [|done].
    by apply elem_of_nil in Hin.
Qed.


Lemma Fields_new (m : gmap string Value) (h : Heap) (l : loc) :
  Fields (<[l := HObject m]> h) l = m.
Proof. unfold Fields. by rewrite lookup_insert_eq. Qed.

(** The fields of [o] once the cell [r], which the heap had not, holds
    some of them. *)
Lemma Fields_result (m : gmap string Value) (h : Heap) (r o : loc) :
  h !! r = None → m ⊆ Fields h o → Fields (<[r := HObject m]> h) o = Fields h o.
Proof.
  intros Hr Hm. unfold Fields in *. destruct (decide (o = r)) as [->|Hne].
  - rewrite lookup_insert_eq. rewrite Hr in *.
    apply map_eq. intros k. rewrite lookup_empty.
    destruct (m !! k) as [v|] eqn:Ek; [|done].
    pose proof (lookup_weaken _ _ _ _ Ek Hm) as Hk. by rewrite lookup_empty in Hk.
  - by rewrite lookup_insert_ne.
Qed.

Lemma copied_union `{GoStdlib} (m acc : gmap string Value) :
  copied (rangeMap m) acc = m ∪ acc.
Proof.
  apply map_eq. intros k.
  assert (NoDup (rangeMap m).*1) as Hnd.
  { rewrite (rangeMap_perm _ m). apply NoDup_fst_map_to_list. }
  rewrite copied_lookup by done.
  rewrite (list_to_map_proper _ (map_to_list m)) by (done || apply rangeMap_perm).
  rewrite list_to_map_to_list. rewrite lookup_union.
  by destruct (m !! k), (acc !! k).
Qed.

Lemma setFunc_result `{GoStdlib} (o : loc) (k v : Value) (key : string) (h : Heap) :
  ToString k = inl key →
  setFunc [ObjectValue o; k; v] h
  = (Ok (ObjectValue (newLoc h)), <[newLoc h := HObject (<[key := v]> (Fields h o))]> h).
Proof.
  intros Hk. unfold setFunc, toString. rewrite Hk.
  unfold mbind at 1, F_bind at 1. unfold mret at 1, F_ret at 1.
  unfold mbind at 1, F_bind at 1. unfold newObject at 1.
  set (r := newLoc h).
  unfold mbind at 1, F_bind at 1. unfold fields at 1.
  unfold mbind at 1, F_bind at 1.
  rewrite (forEach_set _ r ∅) by apply lookup_insert_eq.
  unfold mbind, F_bind, set, mret, F_ret, Set_. f_equal.
  rewrite Fields_new, !insert_insert_eq, copied_union, map_union_empty.
  by rewrite (Fields_result ∅ h r o (newLoc_fresh h) (map_empty_subseteq _)).
Qed.

(** X23: [get] after [set].  [set(o, k, v)] gives a new object in which
    [get] under [k] is [v], and under every other key what the key has in
    [o], null where it has nothing. *)
Theorem get_after_set `{GoStdlib} (o : loc) (k v : Value) (key : string) (h : Heap) :
  ToString k = inl key →
  ∃ o' h',
    setFunc [ObjectValue o; k; v] h = (Ok (ObjectValue o'), h')
    ∧ getFunc [ObjectValue o'; k] h' = (Ok v, h')
    ∧ ∀ k' key', ToString k' = inl key' → key' ≠ key →
        getFunc [ObjectValue o'; k'] h'
        = (Ok (default NullValue (Fields h o !! key')), h').
Proof.
  intros Hk. eexists _, _. split; [by apply setFunc_result|]. split.
  - unfold getFunc, toString. rewrite Hk.
    unfold mbind, F_bind, mret, F_ret, fields. rewrite Fields_new.
    by rewrite lookup_insert_eq.
  - intros k' key' Hk' Hne. unfold getFunc, toString. rewrite Hk'.
    unfold mbind, F_bind, mret, F_ret, fields. rewrite Fields_new.
    rewrite lookup_insert_ne by done. by destruct (Fields h o !! key').
Qed.

Lemma get_after_set_witness :
  ∃ o' h',
    setFunc (H := golib.lib) [ObjectValue 1; StringValue "b"; NumberValue 2] oneField
    = (Ok (ObjectValue o'), h')
    ∧ getFunc (H := golib.lib) [ObjectValue o'; StringValue "b"] h' = (Ok (NumberValue 2), h')
    ∧ getFunc (H := golib.lib) [ObjectValue o'; StringValue "a"] h' = (Ok (NumberValue 1), h')
    ∧ getFunc (H := golib.lib) [ObjectValue o'; StringValue "c"] h' = (Ok NullValue, h').
Proof.
  destruct (get_after_set (H := golib.lib) 1%positive (StringValue "b") (NumberValue 2)
              "b" oneField eq_refl) as (o' & h' & Hset & Hget & Hother).
  exists o', h'. split_and!; [done|done| |].
  - by rewrite (Hother (StringValue "a") "a" eq_refl).
  - by rewrite (Hother (StringValue "c") "c" eq_refl).
Defined.


Lemma copy_fields `{GoStdlib} (fs acc : gmap string Value) (r : loc) (h : Heap) :
  forEach (rangeMap fs) (λ kv, set r kv.1 kv.2) (<[r := HObject acc]> h)
  = (Ok (), <[r := HObject (fs ∪ acc)]> h).
Proof.
  rewrite (forEach_set _ r acc) by apply lookup_insert_eq.
  by rewrite insert_insert_eq, copied_union.
Qed.

(** The fields of [o] while [r], which the heap had not, collects fields:
    they are those it had, but for [r] itself, which had none. *)
Lemma Fields_other (acc : gmap string Value) (h : Heap) (r o : loc) :
  h !! r = None →
  Fields (<[r := HObject acc]> h) o ∪ acc = Fields h o ∪ acc.
Proof.
  intros Hr. unfold Fields. destruct (decide (o = r)) as [->|Hne].
  - rewrite lookup_insert_eq, Hr. by rewrite map_union_idemp, map_empty_union.
  - by rewrite lookup_insert_ne.
Qed.

Lemma merge_loop `{GoStdlib} (h : Heap) (r : loc) (os : list loc) :
  h !! r = None →
  ∀ acc,
    forEach (ObjectValue <$> os)
      (λ arg, match arg with
              | ObjectValue obj =>
                  fs ← fields obj; forEach (rangeMap fs) (λ kv, set r kv.1 kv.2)
              | _ => fail ("merge expects all arguments to be objects, got "
                           +:+ typeOf arg)
              end)
      (<[r := HObject acc]> h)
    = (Ok (), <[r := HObject (foldl (λ acc o, Fields h o ∪ acc) acc os)]> h).
Proof.
  intros Hr. induction os as [|o os IH]; intros acc; [done|].
  rewrite fmap_cons. cbn [forEach].
  unfold mbind at 1, F_bind at 1. unfold mbind at 1, F_bind at 1. unfold fields at 1.
  rewrite copy_fields, (Fields_other _ _ _ _ Hr). apply IH.
Qed.

(** X24: [merge].  [merge] of objects is a new object that holds every field
    of every argument; where several arguments have a field of one name,
    the value is that of the last of them.  The arguments are read as they
    were when the function was called. *)
Theorem merge_prefers_later_arguments `{GoStdlib} (os : list loc) (h : Heap) :
  ∃ r h',
    mergeFunc (ObjectValue <$> os) h = (Ok (ObjectValue r), h')
    ∧ Fields h' r = foldl (λ acc o, Fields h o ∪ acc) ∅ os
    ∧ ∀ a b, os = [a; b] →
        ∀ key, Fields h' r !! key
               = match Fields h b !! key with
                 | Some val => Some val
                 | None => Fields h a !! key
                 end.
Proof.
  exists (newLoc h),
    (<[newLoc h := HObject (foldl (λ acc o, Fields h o ∪ acc) ∅ os)]> h).
  split; [|split].
  - unfold mergeFunc. unfold mbind at 1, F_bind at 1. unfold newObject at 1.
    unfold mbind at 1, F_bind at 1.
    by rewrite (merge_loop h (newLoc h) os (newLoc_fresh h) ∅).
  - apply Fields_new.
  - intros a b -> key. rewrite Fields_new. simpl.
    rewrite map_union_empty, lookup_union.
    by destruct (Fields h b !! key), (Fields h a !! key).
Qed.


Lemma pick_loop `{GoStdlib} (h : Heap) (r o : loc) :
  h !! r = None →
  ∀ (ks : list Value) (keys seen : list string),
    Forall2 (λ k key, ToString k = inl key) ks keys →
    forEach ks
      (λ arg, key ← toString arg;
              fs ← fields o;
              match fs !! key with
              | Some val => set r key val
              | None => mret ()
              end)
      (<[r := HObject (filter (λ kv, kv.1 ∈ seen) (Fields h o))]> h)
    = (Ok (), <[r := HObject (filter (λ kv, kv.1 ∈ keys ++ seen) (Fields h o))]> h).
Proof.
  intros Hr ks. induction ks as [|k ks IH]; intros keys seen Hkeys.
  - by inversion Hkeys.
  - inversion Hkeys as [|? key ? keys' Hk Hkeys']; subst. cbn [forEach].
    unfold mbind at 1, F_bind at 1. unfold toString. rewrite Hk.
    unfold mbind at 1, F_bind at 1. unfold mret at 1, F_ret at 1.
    unfold mbind at 1, F_bind at 1. unfold fields at 1.
    rewrite (Fields_result _ h r o Hr) by apply map_filter_subseteq.
    assert (filter (λ kv : string * Value, kv.1 ∈ keys' ++ key :: seen) (Fields h o)
            = filter (λ kv : string * Value, kv.1 ∈ (key :: keys') ++ seen) (Fields h o))
      as <-.
    { apply map_filter_ext. intros i x _. simpl.
      rewrite !elem_of_app, !elem_of_cons, elem_of_app. tauto. }
    destruct (Fields h o !! key) as [val|] eqn:Eval.
    + unfold set, Set_. rewrite Fields_new, insert_insert_eq.
      rewrite <- (IH keys' (key :: seen) Hkeys'). do 3 f_equal.
      apply map_eq. intros i. destruct (decide (i = key)) as [->|Hne].
      * rewrite lookup_insert_eq. symmetry. apply map_lookup_filter_Some.
        split; [done|]. simpl. by left.
      * rewrite lookup_insert_ne by done.
        destruct (filter _ _ !! i) as [x|] eqn:Ei.
        -- apply map_lookup_filter_Some in Ei as [Hi Hin]. symmetry.
           apply map_lookup_filter_Some. split; [done|]. simpl in *. by right.
        -- symmetry. apply map_lookup_filter_None. apply map_lookup_filter_None in Ei.
           destruct Ei as [Ei|Ei]; [by left|]. right. intros x Hx [?|Hin]%elem_of_cons;
             [done|]. by apply (Ei x).
    + unfold mret, F_ret.
      rewrite <- (IH keys' (key :: seen) Hkeys'). do 3 f_equal.
      apply map_filter_ext. intros i x Hi. simpl. rewrite elem_of_cons.
      split; [tauto|]. intros [->|?]; [congruence|done].
Qed.

Lemma elem_of_rev {A} (x : A) (l : list A) : x ∈ rev l ↔ x ∈ l.
Proof. rewrite !list_elem_of_In. symmetry. apply in_rev. Qed.

Lemma omitKeys_loop_spec `{GoStdlib} (ks : list Value) :
  ∀ (keys acc : list string) (h : Heap),
    Forall2 (λ k key, ToString k = inl key) ks keys →
    omitKeys_loop ks acc h = (Ok (rev keys ++ acc), h).
Proof.
  induction ks as [|k ks IH]; intros keys acc h Hkeys.
  - by inversion Hkeys.
  - inversion Hkeys as [|? key ? keys' Hk Hkeys']; subst. simpl.
    unfold mbind, F_bind, toString. rewrite Hk. unfold mret, F_ret.
    rewrite (IH keys' (key :: acc) h Hkeys'). by rewrite <- app_assoc.
Qed.

Lemma forEach_set_if (P : string * Value → bool) (kvs : list (string * Value))
    (r : loc) :
  ∀ (m0 : gmap string Value) (h : Heap),
    h !! r = Some (HObject m0) →
    forEach kvs (λ kv, if P kv then set r kv.1 kv.2 else mret ()) h
    = (Ok (), <[r := HObject (copied (filter (λ kv, P kv = true) kvs) m0)]> h).
Proof.
  induction kvs as [|[k v] kvs IH]; intros m0 h Hr; simpl.
  - unfold mret, F_ret. by rewrite insert_id.
  - unfold mbind, F_bind. rewrite filter_cons.
    destruct (P (k, v)) eqn:EP.
    + rewrite decide_True by done. unfold set. simpl.
      rewrite (IH (<[k := v]> m0)).
      * unfold Set_, Fields. rewrite Hr. by rewrite insert_insert_eq.
      * unfold Set_, Fields. rewrite Hr. by rewrite lookup_insert_eq.
    + rewrite decide_False by done. unfold mret, F_ret. by apply IH.
Qed.

Lemma copied_filter `{GoStdlib} (P : string * Value → bool) (m : gmap string Value) :
  copied (filter (λ kv, P kv = true) (rangeMap m)) ∅ = filter (λ kv, P kv = true) m.
Proof.
  assert (NoDup (rangeMap m).*1) as Hnd.
  { rewrite (rangeMap_perm _ m). apply NoDup_fst_map_to_list. }
  assert (NoDup (filter (λ kv, P kv = true) (rangeMap m)).*1) as Hnd'.
  { eapply sublist_NoDup; [exact Hnd|apply fmap_sublist, sublist_filter]. }
  apply map_eq. intros k. rewrite copied_lookup, lookup_empty by done.
  apply option_eq. intros v.
  destruct (list_to_map _ !! k) as [w|] eqn:Ew.
  - apply elem_of_list_to_map in Ew; [|done].
    apply list_elem_of_filter in Ew as [HP Hin].
    rewrite (rangeMap_perm _ m) in Hin. apply elem_of_map_to_list in Hin.
    rewrite map_lookup_filter_Some. split.
    + intros [= <-]. done.
    + intros [Hv _]. congruence.
  - split; [done|]. intros [Hv HP]%map_lookup_filter_Some.
    apply not_elem_of_list_to_map_2 in Ew. destruct Ew.
    apply list_elem_of_fmap. exists (k, v). split; [done|].
    apply list_elem_of_filter. split; [done|].
    rewrite (rangeMap_perm _ m). by apply elem_of_map_to_list.
Qed.

(** X25: [pick] and [omit].  For an object and keys that convert to strings,
    [pick] gives a new object with those fields of the object whose name
    is one of the keys, [omit] one with those whose name is none of them:
    the two share no field and together hold the fields of the object.  A
    key the object has no field of is passed over without an error. *)
Theorem pick_and_omit_split `{GoStdlib} (o : loc) (k : Value) (ks : list Value)
    (keys : list string) (h : Heap) :
  Forall2 (λ k key, ToString k = inl key) (k :: ks) keys →
  ∃ picked hp omitted ho,
    pickFunc (ObjectValue o :: k :: ks) h = (Ok (ObjectValue picked), hp)
    ∧ Fields hp picked = filter (λ kv, kv.1 ∈ keys) (Fields h o)
    ∧ omitFunc (ObjectValue o :: k :: ks) h = (Ok (ObjectValue omitted), ho)
    ∧ Fields ho omitted = filter (λ kv, kv.1 ∉ keys) (Fields h o)
    ∧ Fields hp picked ##ₘ Fields ho omitted
    ∧ Fields hp picked ∪ Fields ho omitted = Fields h o.
Proof.
  intros Hkeys.
  exists (newLoc h), (<[newLoc h := HObject (filter (λ kv, kv.1 ∈ keys) (Fields h o))]> h),
    (newLoc h), (<[newLoc h := HObject (filter (λ kv, kv.1 ∉ keys) (Fields h o))]> h).
  rewrite !Fields_new. split_and!; [|done| |done| |].
  - unfold pickFunc. unfold mbind at 1, F_bind at 1. unfold newObject at 1.
    unfold mbind at 1, F_bind at 1.
    assert ((∅ : gmap string Value)
            = filter (λ kv : string * Value, kv.1 ∈ ([] : list string)) (Fields h o))
      as Hempty.
    { apply map_eq. intros i. rewrite lookup_empty. symmetry.
      apply map_lookup_filter_None. right. intros x _ Hin. by apply elem_of_nil in Hin. }
    rewrite Hempty at 1.
    rewrite (pick_loop h (newLoc h) o (newLoc_fresh h) (k :: ks) keys [] Hkeys).
    by rewrite app_nil_r.
  - unfold omitFunc. unfold mbind at 1, F_bind at 1.
    rewrite (omitKeys_loop_spec (k :: ks) keys [] h Hkeys). rewrite app_nil_r.
    unfold mbind at 1, F_bind at 1. unfold newObject at 1.
    unfold mbind at 1, F_bind at 1. unfold fields at 1.
    rewrite (Fields_result ∅ h _ o (newLoc_fresh h) (map_empty_subseteq _)).
    unfold mbind at 1, F_bind at 1.
    rewrite (forEach_set_if (λ kv, negb (bool_decide (kv.1 ∈ rev keys))) _ _ ∅)
      by apply lookup_insert_eq.
    rewrite copied_filter, insert_insert_eq. do 4 f_equal.
    apply map_filter_ext. intros i x _. simpl.
    rewrite negb_true_iff, bool_decide_eq_false, elem_of_rev. done.
  - apply map_disjoint_filter_complement.
  - apply map_filter_union_complement.
Qed.

Lemma pick_and_omit_split_witness :
  ∃ picked hp omitted ho,
    pickFunc (H := golib.lib) [ObjectValue 1; StringValue "a"; StringValue "z"] twoObjects
    = (Ok (ObjectValue picked), hp)
    ∧ Fields hp picked = {[ "a" := NumberValue 1 ]}
    ∧ omitFunc (H := golib.lib) [ObjectValue 1; StringValue "a"; StringValue "z"] twoObjects
      = (Ok (ObjectValue omitted), ho)
    ∧ Fields ho omitted = {[ "b" := NumberValue 2 ]}.
Proof.
  destruct (pick_and_omit_split (H := golib.lib) 1%positive (StringValue "a")
              [StringValue "z"] ["a"; "z"]%string twoObjects)
    as (picked & hp & omitted & ho & Hpick & Hp & Homit & Ho & _).
  { repeat constructor. }
  exists picked, hp, omitted, ho. rewrite Hp, Ho. split_and!; [done| |done|].
  - by vm_compute.
  - by vm_compute.
Defined.

End library_more.
